(** * alhambra_mixes: quantity propagation, validation and split mixes

    A shallow embedding of the parts of [mixes.py], [echo.py] and
    [components.py] that compute volumes, validate a mix, derive a split mix,
    quantise acoustic transfers and reconcile a strand with a reference.

    Python exceptions are values of [result]; mutation of a receiver is
    explicit state passing; the abstract base class of actions is a type
    class, since the module that defines the pipetting actions is not part of
    the sources at hand. *)

From Stdlib Require Import ZArith QArith Qround List String Ascii Bool Lia.
Import ListNotations.
Open Scope string_scope.
Open Scope list_scope.
Open Scope Z_scope.

(** ** Exceptions *)

Inductive exn : Type :=
| ValueError
| TypeError
| IndexError
| NotImplementedError
| RuntimeError.

Inductive result (A : Type) : Type :=
| Ok (a : A)
| Raise (e : exn).

Arguments Ok {A} a.
Arguments Raise {A} e.

Definition bind {A B : Type} (r : result A) (k : A -> result B) : result B :=
  match r with
  | Ok a => k a
  | Raise e => Raise e
  end.

Notation "x <- r ;; k" := (bind r (fun x => k))
  (at level 61, r at next level, right associativity).

Definition is_ok {A : Type} (r : result A) : bool :=
  match r with Ok _ => true | Raise _ => false end.

(** A list comprehension whose body may raise: the first exception aborts. *)
Fixpoint mapM {A B : Type} (f : A -> result B) (l : list A) : result (list B) :=
  match l with
  | [] => Ok []
  | a :: l' => b <- f a ;; bs <- mapM f l' ;; Ok (b :: bs)
  end.

(** ** Decimal magnitudes

    Modelled from the spec: the quantity layer (module [units], not among the
    sources).  A magnitude is either the undefined sentinel or an exact
    rational; every operation that touches the sentinel yields the sentinel,
    comparisons with the sentinel are false, and nothing raises.  Infinities
    are not modelled: a division by zero is undefined.  Results are kept in
    lowest terms. *)

Inductive Decimal : Type :=
| DNaN
| DFin (q : Q).

Definition isnan (d : Decimal) : bool :=
  match d with DNaN => true | DFin _ => false end.

Definition dec_of_Z (z : Z) : Decimal := DFin (inject_Z z).

Definition dec_lift2 (f : Q -> Q -> Q) (a b : Decimal) : Decimal :=
  match a, b with
  | DFin x, DFin y => DFin (Qred (f x y))
  | _, _ => DNaN
  end.

Definition dec_add : Decimal -> Decimal -> Decimal := dec_lift2 Qplus.
Definition dec_sub : Decimal -> Decimal -> Decimal := dec_lift2 Qminus.
Definition dec_mul : Decimal -> Decimal -> Decimal := dec_lift2 Qmult.

Definition dec_div (a b : Decimal) : Decimal :=
  match a, b with
  | DFin x, DFin y => if Qeq_bool y 0 then DNaN else DFin (Qred (x / y))
  | _, _ => DNaN
  end.

(** [==] and [!=] of two quantities of one dimension. *)
Definition dec_eqb (a b : Decimal) : bool :=
  match a, b with
  | DFin x, DFin y => Qeq_bool x y
  | _, _ => false
  end.

Definition dec_neb (a b : Decimal) : bool := negb (dec_eqb a b).

Definition dec_ltb (a b : Decimal) : bool :=
  match a, b with
  | DFin x, DFin y => negb (Qle_bool y x)
  | _, _ => false
  end.

Definition dec_gtb (a b : Decimal) : bool := dec_ltb b a.

(** Truncating quotient, as the remainder of [Decimal] takes the sign of the
    dividend. *)
Definition Qtrunc (q : Q) : Z := Z.quot (Qnum q) (Zpos (Qden q)).

(** [a % b] on magnitudes. *)
Definition dec_rem (a b : Decimal) : Decimal :=
  match a, b with
  | DFin x, DFin y =>
      if Qeq_bool y 0 then DNaN
      else DFin (Qred (x - y * inject_Z (Qtrunc (x / y))))
  | _, _ => DNaN
  end.

(** Rounding of a rational to the nearest integer, ties to even. *)
Definition round_half_even (q : Q) : Z :=
  let n := Qnum q in
  let d := Zpos (Qden q) in
  let f := n / d in
  let r2 := 2 * (n mod d) in
  if r2 <? d then f
  else if d <? r2 then f + 1
  else if Z.even f then f else f + 1.

(** [round(x)] of a magnitude: an integer, and [ValueError] on the sentinel. *)
Definition py_round (d : Decimal) : result Z :=
  match d with
  | DNaN => Raise ValueError
  | DFin q => Ok (round_half_even q)
  end.

(** A volume is a magnitude in microlitres, a concentration one in nanomolar. *)
Definition Volume : Type := Decimal.
Definition Conc : Type := Decimal.

Definition uL (q : Q) : Volume := DFin (Qred q).
Definition nL (q : Q) : Volume := DFin (Qred (q / 1000)).
Definition nM (q : Q) : Conc := DFin (Qred q).

Definition ZERO_VOL : Volume := uL 0.
Definition NAN_VOL : Volume := DNaN.

(** [v.m_as("nL")]. *)
Definition m_as_nL (v : Volume) : Decimal := dec_mul v (dec_of_Z 1000).

(** [n * v] for a Python integer [n]. *)
Definition int_mul (n : Z) (v : Decimal) : Decimal := dec_mul (dec_of_Z n) v.

(** [sum(vs, start)]. *)
Definition dec_sum (start : Decimal) (vs : list Decimal) : Decimal :=
  fold_left dec_add vs start.

(** Modelled from the spec: [_parse_vol_optional] of the units module, which
    turns an absent volume into the undefined sentinel.  The sources rely on
    it: [EchoFillToVolume] defaults its target volume to [None] and then
    reads the magnitude of the attribute, and [has_fixed_total_volume] reads
    the magnitude of [fixed_total_volume] without a test for [None]. *)
Definition _parse_vol_optional (v : option Volume) : Volume :=
  match v with
  | Some q => q
  | None => NAN_VOL
  end.

(** Modelled from the spec: [_parse_vol_required] of the units module, which
    refuses an absent volume. *)
Definition _parse_vol_required (v : option Volume) : result Volume :=
  match v with
  | Some q => Ok q
  | None => Raise ValueError
  end.

(** Modelled from the spec: [_ratio] of the units module, a dimensionless
    quotient, here of one quantity by each of a sequence and of each of a
    sequence by one quantity. *)
Definition _ratio_by_each (top : Decimal) (bottom : list Decimal) : list Decimal :=
  map (fun y => dec_div top y) bottom.


(** [v] is an exact integer multiple of the droplet volume [d]. *)
Definition is_multiple_of (v d : Decimal) : Prop :=
  match v, d with
  | DFin x, DFin y => exists n : Z, (x == inject_Z n * y)%Q
  | _, _ => False
  end.

(** ** Components ([components.py]) *)

(** A well position is kept as its label. *)
Definition WellPos : Type := string.

Record Component : Type := {
  name : string;
  concentration : Conc;
  plate : string;
  well : option WellPos
}.

Record Strand : Type := {
  strand_base : Component;
  sequence : option string
}.

(** A cell of the [Sequence] column of a reference table: absent, a string,
    or a value of another type (a missing float, say). *)
Inductive SeqCell : Type :=
| SeqNone
| SeqStr (s : string)
| SeqOther.

(** One row of the reference table, with the well already parsed. *)
Record RefRow : Type := {
  ref_name : string;
  ref_conc : Conc;
  ref_plate : string;
  ref_well : option WellPos;
  ref_sequence : SeqCell
}.

(** The reference table: rows in table order, names may repeat. *)
Definition Reference : Type := list RefRow.

(** ** Mix lines

    Modelled from the spec: [MixLine] of the printing module.  Only the
    fields that validation reads are kept.  A line built without a count and
    without a per-transfer volume is a single transfer of its total volume. *)

Record MixLine : Type := {
  names : list string;
  total_tx_vol : option Volume;
  number : Z;
  each_tx_vol : Volume;
  line_plate : string
}.

Definition MixLine_init (nms : list string) (total : option Volume) : MixLine :=
  {| names := nms;
     total_tx_vol := total;
     number := 1;
     each_tx_vol := _parse_vol_optional total;
     line_plate := "" |}.

(** ** Mixes ([mixes.py]) *)

Inductive FixedConcentrationSpec : Type :=
| FCNone
| FCName (component_name : string)
| FCQuantity (c : Conc).

(** The attributes of [Mix].  [split_tubes] is set on the subclass that
    [split_mix] returns and holds its tube count. *)
Record Mix (Action : Type) : Type := {
  actions : list Action;
  mix_name : string;
  test_tube_name : option string;
  fixed_total_volume : Volume;
  fixed_concentration : FixedConcentrationSpec;
  buffer_name : string;
  reference : option Reference;
  min_volume : Volume;
  split_tubes : option Z
}.

Arguments actions {Action} _.
Arguments mix_name {Action} _.
Arguments test_tube_name {Action} _.
Arguments fixed_total_volume {Action} _.
Arguments fixed_concentration {Action} _.
Arguments buffer_name {Action} _.
Arguments reference {Action} _.
Arguments min_volume {Action} _.
Arguments split_tubes {Action} _.

(** What an action can draw from: a component, a strand, or a mix. *)
Inductive Source (Action : Type) : Type :=
| SComponent (c : Component)
| SStrand (s : Strand)
| SMix (m : Mix Action).

Arguments SComponent {Action} c.
Arguments SStrand {Action} s.
Arguments SMix {Action} m.

(** The fields [split_mix] reads off a [FixedVolume] action. *)
Record FixedVolumeFields (Action : Type) : Type := {
  fv_components : list (Source Action);
  fv_fixed_volume : Volume;
  fv_set_name : option string;
  fv_compact_display : bool
}.

Arguments fv_components {Action} _.
Arguments fv_fixed_volume {Action} _.
Arguments fv_set_name {Action} _.
Arguments fv_compact_display {Action} _.

(** The abstract base class of actions, as [mixes.py] uses it: the methods a
    mix calls on its actions, the two [isinstance] tests it makes, and the
    [FixedVolume] constructor. *)
Class AbstractAction (Action : Type) : Type := {
  components : Action -> list (Source Action);
  each_volumes : Action -> Volume -> list Action -> result (list Volume);
  tx_volume : Action -> Volume -> list Action -> result Volume;
  _mixlines : Action -> string -> Volume -> list Action -> result (list MixLine);
  action_with_reference : Action -> Reference -> result Action;
  is_FixedConcentration : Action -> bool;
  as_FixedVolume : Action -> option (FixedVolumeFields Action);
  FixedVolume : list (Source Action) -> Volume -> option string -> bool -> Action
}.

(** The findings of validation, one constructor per message. *)
Inductive VolumeError : Type :=
| FixedConcentrationNeedsTotal
| VolumesNotDefined (lines : list (list string))
| HigherThanTotal (total : Volume) (lines : list (list string * Volume))
| NegativeBuffer (mix : string)
| LowerThanMinimum (minimum : Volume) (mix : string) (each : Volume)
    (nms : list string)
| LastComponentNegative (nms : list string) (vol : Volume)
| NegativeVolumes (lines : list (list string * Volume))
| IntermediateTooSmall (intermediate : string) (needed : Volume)
    (mix : string) (available : Volume).

(** The argument [actions] of the constructor: one action or a sequence. *)
Inductive ActionsArg (Action : Type) : Type :=
| OneAction (a : Action)
| ActionSeq (l : list Action).

Arguments OneAction {Action} a.
Arguments ActionSeq {Action} l.

Definition _maybesequence_action {Action : Type}
  (object_or_sequence : ActionsArg Action) : list Action :=
  match object_or_sequence with
  | ActionSeq l => l
  | OneAction a => [a]
  end.

Definition list_string_eqb (a b : list string) : bool :=
  if list_eq_dec string_dec a b then true else false.

(** Truth value of a quantity: false only for a zero magnitude. *)
Definition quantity_truthy (v : Decimal) : bool :=
  match v with
  | DNaN => true
  | DFin q => negb (Qeq_bool q 0)
  end.

Definition quantity_or (v dflt : Decimal) : Decimal :=
  if quantity_truthy v then v else dflt.

Definition default_min_volume : Volume := uL (1 # 2).

Section MixMethods.

Context {Action : Type} `{AbstractAction Action}.

(** [Mix.__attrs_post_init__], after the converters of the attributes: the
    reference, when given, is applied to every action, and an empty action
    list is refused. *)
Definition Mix_init (acts : ActionsArg Action) (nm : string)
  (tube : option string) (ftv : option Volume)
  (fc : FixedConcentrationSpec) (buf : string) (ref : option Reference)
  (minv : option Volume) (tubes : option Z) : result (Mix Action) :=
  let converted := _maybesequence_action acts in
  referenced <- match ref with
                | Some r => mapM (fun action => action_with_reference action r)
                              converted
                | None => Ok converted
                end ;;
  if (List.length referenced =? 0)%nat then Raise ValueError
  else Ok {| actions := referenced;
             mix_name := nm;
             test_tube_name := tube;
             fixed_total_volume := _parse_vol_optional ftv;
             fixed_concentration := fc;
             buffer_name := buf;
             reference := ref;
             min_volume := _parse_vol_optional minv;
             split_tubes := tubes |}.

(** The property [Mix.total_volume]. *)
Definition total_volume (self : Mix Action) : result Volume :=
  if negb (isnan (fixed_total_volume self)) then Ok (fixed_total_volume self)
  else
    vols <- mapM (fun c => tx_volume c
                             (quantity_or (fixed_total_volume self) NAN_VOL)
                             (actions self))
              (actions self) ;;
    Ok (dec_sum (uL 0) vols).

(** The property [Mix.buffer_volume]; the generator reads [total_volume]
    anew for every action. *)
Definition buffer_volume (self : Mix Action) : result Volume :=
  txs <- mapM (fun c => tv <- total_volume self ;;
                        tx_volume c tv (actions self))
           (actions self) ;;
  let mvol := dec_sum (dec_of_Z 0) txs in
  tv <- total_volume self ;;
  Ok (dec_sub tv mvol).

Definition has_fixed_concentration_action (self : Mix Action) : bool :=
  existsb is_FixedConcentration (actions self).

Definition has_fixed_total_volume (self : Mix Action) : bool :=
  negb (isnan (fixed_total_volume self)).

Fixpoint action_mixlines (self : Mix Action) (tablefmt : string)
  (acts : list Action) (mixlines : list MixLine) : result (list MixLine) :=
  match acts with
  | [] => Ok mixlines
  | action :: rest =>
      tv <- total_volume self ;;
      ls <- _mixlines action tablefmt tv (actions self) ;;
      action_mixlines self tablefmt rest (mixlines ++ ls)
  end.

(** [Mix.mixlines]. *)
Definition mixlines (self : Mix Action) (tablefmt : string)
  (buffer : string) : result (list MixLine) :=
  mls <- action_mixlines self tablefmt (actions self) [] ;;
  if has_fixed_total_volume self then
    bv <- buffer_volume self ;;
    Ok (mls ++ [MixLine_init [buffer] (Some bv)])
  else Ok mls.

(** The pairs [(names, total_tx_vol)] of the lines that carry a volume. *)
Definition ntx_of (mls : list MixLine) : list (list string * Volume) :=
  flat_map (fun m => match total_tx_vol m with
                     | Some v => [(names m, v)]
                     | None => []
                     end) mls.

(** The test of the loop that enforces the minimum pipetting volume. *)
Definition below_minimum (self : Mix Action) (mixline : MixLine) : bool :=
  negb (isnan (each_tx_vol mixline))
  && dec_neb (each_tx_vol mixline) ZERO_VOL
  && dec_ltb (each_tx_vol mixline) (min_volume self).

Definition minimum_finding (self : Mix Action) (mixline : MixLine)
  : VolumeError :=
  if list_string_eqb (names mixline) [buffer_name self]
  then NegativeBuffer (mix_name self)
  else LowerThanMinimum (min_volume self) (mix_name self)
         (each_tx_vol mixline) (names mixline).

Fixpoint check_minimum (self : Mix Action) (mls : list MixLine)
  (error_list : list VolumeError) : list VolumeError :=
  match mls with
  | [] => error_list
  | mixline :: rest =>
      if below_minimum self mixline
      then check_minimum self rest (error_list ++ [minimum_finding self mixline])
      else check_minimum self rest error_list
  end.

(** The findings of one action in the loop over intermediate mixes. *)
Fixpoint intermediate_findings (self : Mix Action)
  (zipped : list (Source Action * Volume)) (error_list : list VolumeError)
  : list VolumeError :=
  match zipped with
  | [] => error_list
  | (SMix component, volume) :: rest =>
      if dec_ltb (fixed_total_volume component) volume
      then intermediate_findings self rest
             (error_list ++ [IntermediateTooSmall (mix_name component) volume
                               (mix_name self) (fixed_total_volume component)])
      else intermediate_findings self rest error_list
  | _ :: rest => intermediate_findings self rest error_list
  end.

Fixpoint check_intermediates (self : Mix Action) (acts : list Action)
  (error_list : list VolumeError) : result (list VolumeError) :=
  match acts with
  | [] => Ok error_list
  | action :: rest =>
      tv <- total_volume self ;;
      vols <- each_volumes action tv (actions self) ;;
      check_intermediates self rest
        (intermediate_findings self (combine (components action) vols)
           error_list)
  end.

(** [ntx[-1]]. *)
Definition last_item {A : Type} (l : list A) : result A :=
  match rev l with
  | [] => Raise IndexError
  | x :: _ => Ok x
  end.

(** [if cond: error_list.append(e)]. *)
Definition append_when (cond : bool) (e : VolumeError)
  (error_list : list VolumeError) : list VolumeError :=
  if cond then error_list ++ [e] else error_list.

(** Truth value of a list. *)
Definition nonempty {A : Type} (l : list A) : bool :=
  match l with [] => false | _ :: _ => true end.

(** The lines that validation works on: those given, else those of the mix
    in the given table format, else an error. *)
Definition resolved_mixlines (self : Mix Action) (tablefmt : option string)
  (given : option (list MixLine)) : result (list MixLine) :=
  match given with
  | Some mls => Ok mls
  | None =>
      match tablefmt with
      | None => Raise ValueError
      | Some fmt => mixlines self fmt "Buffer"
      end
  end.

(** [Mix.validate]. *)
Definition validate (self : Mix Action) (tablefmt : option string)
  (given : option (list MixLine)) (raise_errors : bool)
  : result (list VolumeError) :=
  mls <- resolved_mixlines self tablefmt given ;;
  let ntx := ntx_of mls in
  let error_list : list VolumeError := [] in
  let error_list :=
    append_when (negb (has_fixed_total_volume self)
                 && has_fixed_concentration_action self)
      FixedConcentrationNeedsTotal error_list in
  let nan_vols := map fst (filter (fun nx => isnan (snd nx)) ntx) in
  let error_list :=
    append_when (nonempty nan_vols) (VolumesNotDefined nan_vols) error_list in
  tot_vol <- total_volume self ;;
  let high_vols := filter (fun nx => dec_gtb (snd nx) tot_vol) ntx in
  let error_list :=
    append_when (nonempty high_vols) (HigherThanTotal tot_vol high_vols)
      error_list in
  let error_list := check_minimum self mls error_list in
  final <- last_item ntx ;;
  let error_list :=
    append_when (dec_ltb (snd final) ZERO_VOL)
      (LastComponentNegative (fst final) (snd final)) error_list in
  let neg_vols := filter (fun nx => dec_ltb (snd nx) ZERO_VOL) ntx in
  let error_list :=
    append_when (nonempty neg_vols) (NegativeVolumes neg_vols) error_list in
  check_intermediates self (actions self) error_list.

End MixMethods.

(** ** Plain [Decimal] arithmetic under a context

    [split_mix] computes its multiplier with [Decimal] numbers outside any
    quantity.  Such arithmetic rounds each result to the precision of the
    active decimal context, ties to even.  The context is set up outside the
    sources at hand, so its precision is an argument. *)

Fixpoint ndigits_aux (fuel : nat) (n : Z) : Z :=
  match fuel with
  | O => 1
  | S fuel' => if n <? 10 then 1 else 1 + ndigits_aux fuel' (n / 10)
  end.

(** Number of decimal digits of a positive integer. *)
Definition ndigits (n : Z) : Z := ndigits_aux (Z.to_nat (Z.log2 n)) n.

(** The exponent [e] with [10^e <= n/d < 10^(e+1)], for positive [n], [d]. *)
Definition adjusted (n d : Z) : Z :=
  let e0 := ndigits n - ndigits d in
  let reached := if 0 <=? e0 then d * 10 ^ e0 <=? n
                 else d <=? n * 10 ^ (- e0) in
  if reached then e0 else e0 - 1.

(** Rounding to [prec] significant digits. *)
Definition ctx_round (prec : Z) (q : Q) : Q :=
  let n := Qnum q in
  let d := Zpos (Qden q) in
  if n =? 0 then q
  else
    let s := adjusted (Z.abs n) d - prec + 1 in
    if 0 <=? s then
      let r := round_half_even (n # Z.to_pos (d * 10 ^ s)) in
      inject_Z (r * 10 ^ s)
    else
      let r := round_half_even (n * 10 ^ (- s) # Qden q) in
      Qred (r # Z.to_pos (10 ^ (- s))).

Definition ctx_lift2 (prec : Z) (f : Q -> Q -> Q) (a b : Decimal) : Decimal :=
  match a, b with
  | DFin x, DFin y => DFin (Qred (ctx_round prec (f x y)))
  | _, _ => DNaN
  end.

Definition decimal_add (prec : Z) : Decimal -> Decimal -> Decimal :=
  ctx_lift2 prec Qplus.
Definition decimal_mul (prec : Z) : Decimal -> Decimal -> Decimal :=
  ctx_lift2 prec Qmult.

(** A Python float: not-a-number, or the finite binary value [m * 2^e]. *)
Inductive pyfloat : Type :=
| FloatNaN
| FloatFinite (m e : Z).

Definition float_value (m e : Z) : Q :=
  if 0 <=? e then inject_Z (m * 2 ^ e) else Qred (m # Z.to_pos (2 ^ (- e))).

(** [Decimal(x)] of a float: the exact value of the float, never rounded. *)
Definition Decimal_of_float (x : pyfloat) : Decimal :=
  match x with
  | FloatNaN => DNaN
  | FloatFinite m e => DFin (float_value m e)
  end.

(** The float that the literal [0.05] denotes: the binary64 number nearest
    to one twentieth. *)
Definition float_0_05 : pyfloat := FloatFinite 7205759403792794 (-57).

(** The argument [excess] of [split_mix] by its runtime type. *)
Inductive ExcessArg : Type :=
| ExInt (z : Z)
| ExFloat (x : pyfloat)
| ExDecimal (d : Decimal)
| ExOther.

(** The default of [excess], [Decimal(0.05)]. *)
Definition default_excess : ExcessArg := ExDecimal (Decimal_of_float float_0_05).

(** [l[i] = x] for an index within the list. *)
Fixpoint list_set {A : Type} (i : nat) (x : A) (l : list A) : list A :=
  match l, i with
  | [], _ => []
  | _ :: t, O => x :: t
  | h :: t, S i' => h :: list_set i' x t
  end.

Fixpoint enumerate_from {A : Type} (i : nat) (l : list A) : list (nat * A) :=
  match l with
  | [] => []
  | a :: t => (i, a) :: enumerate_from (S i) t
  end.

Section SplitMix.

Context {Action : Type} `{AbstractAction Action}.

(** The body of the first loop of [split_mix] for one action. *)
Definition enlarge (volume_multiplier : Decimal) (i : nat) (action : Action)
  : list (nat * Action) :=
  match as_FixedVolume action with
  | Some fv =>
      [(i, FixedVolume (fv_components fv)
             (dec_mul (fv_fixed_volume fv) volume_multiplier)
             (fv_set_name fv) (fv_compact_display fv))]
  | None => []
  end.

(** [num_tubes * (1 + excess)]. *)
Definition volume_multiplier_of (prec : Z) (num_tubes : Z) (excess : Decimal)
  : Decimal :=
  decimal_mul prec (dec_of_Z num_tubes)
    (decimal_add prec (dec_of_Z 1) excess).

(** [x is not None] for an attribute whose converter has made it a
    quantity. *)
Definition quantity_is_not_None (v : Volume) : bool := true.

Definition convert_excess (excess : ExcessArg) : result Decimal :=
  match excess with
  | ExInt z => Ok (dec_of_Z z)
  | ExFloat x => Ok (Decimal_of_float x)
  | ExDecimal d => Ok d
  | ExOther => Raise TypeError
  end.

(** [split_mix], under a decimal context of precision [prec]. *)
Definition split_mix (prec : Z) (mix : Mix Action) (num_tubes : Z)
  (excess : ExcessArg) : result (Mix Action) :=
  excess <- convert_excess excess ;;
  let volume_multiplier := volume_multiplier_of prec num_tubes excess in
  tv <- total_volume mix ;;
  let large_volume := dec_mul tv volume_multiplier in
  let acts := actions mix in
  let new_fixed_volume_actions :=
    flat_map (fun ia => enlarge volume_multiplier (fst ia) (snd ia))
      (enumerate_from 0 acts) in
  let acts :=
    fold_left (fun l ia => list_set (fst ia) (snd ia) l)
      new_fixed_volume_actions acts in
  Mix_init (ActionSeq acts) (mix_name mix) (test_tube_name mix)
    (if quantity_is_not_None (fixed_total_volume mix)
     then Some large_volume else None)
    (fixed_concentration mix) (buffer_name mix) (reference mix)
    (Some (min_volume mix)) (Some num_tubes).

(** What the two loops amount to for one action. *)
Definition enlarged (volume_multiplier : Decimal) (action : Action) : Action :=
  match as_FixedVolume action with
  | Some fv =>
      FixedVolume (fv_components fv)
        (dec_mul (fv_fixed_volume fv) volume_multiplier)
        (fv_set_name fv) (fv_compact_display fv)
  | None => action
  end.

End SplitMix.

(** ** Pipetting actions

    Modelled from the spec: the class [FixedVolume] of the actions module,
    which is not among the sources.  Every listed component receives the same
    volume whatever the mix volume; the volume the action adds is the sum
    over its components; the action shows as one line of the mix table.
    Reconciliation with a reference leaves the action as it is. *)

#[warnings="-register-all"]
Inductive PipetteAction : Type :=
| PFixedVolume (comps : list (Source PipetteAction)) (fixed_volume : Volume)
    (set_name : option string) (compact_display : bool).

Definition source_name {Action : Type} (s : Source Action) : string :=
  match s with
  | SComponent c => name c
  | SStrand st => name (strand_base st)
  | SMix m => mix_name m
  end.

Definition pipette_components (a : PipetteAction) : list (Source PipetteAction) :=
  match a with PFixedVolume comps _ _ _ => comps end.

Definition pipette_each_volumes (a : PipetteAction) (mix_vol : Volume)
  (acts : list PipetteAction) : result (list Volume) :=
  match a with
  | PFixedVolume comps v _ _ => Ok (repeat v (List.length comps))
  end.

Definition pipette_tx_volume (a : PipetteAction) (mix_vol : Volume)
  (acts : list PipetteAction) : result Volume :=
  vols <- pipette_each_volumes a mix_vol acts ;;
  Ok (dec_sum (uL 0) vols).

Definition pipette_mixlines (a : PipetteAction) (tablefmt : string)
  (mix_vol : Volume) (acts : list PipetteAction) : result (list MixLine) :=
  match a with
  | PFixedVolume comps v _ _ =>
      let n := Z.of_nat (List.length comps) in
      Ok [ {| names := map source_name comps;
              total_tx_vol := Some (int_mul n v);
              number := n;
              each_tx_vol := v;
              line_plate := "" |} ]
  end.

#[export] Instance PipetteAction_AbstractAction : AbstractAction PipetteAction := {
  components := pipette_components;
  each_volumes := pipette_each_volumes;
  tx_volume := pipette_tx_volume;
  _mixlines := pipette_mixlines;
  action_with_reference := fun a _ => Ok a;
  is_FixedConcentration := fun _ => false;
  as_FixedVolume := fun a =>
    match a with
    | PFixedVolume comps v sn cd =>
        Some {| fv_components := comps; fv_fixed_volume := v;
                fv_set_name := sn; fv_compact_display := cd |}
    end;
  FixedVolume := PFixedVolume
}.

(** ** Acoustic actions ([echo.py]) *)

Definition DEFAULT_DROPLET_VOL : Volume := nL 25.

(** The attribute [method] of [EchoEqualTargetConcentration]: a string or a
    pair of strings. *)
Inductive Method : Type :=
| MStr (s : string)
| MPair (a b : string).

Definition method_is (m : Method) (s : string) : bool :=
  match m with
  | MStr s' => String.eqb s' s
  | MPair _ _ => false
  end.

(** [isinstance(method, Sequence) and method[0] == "max_fill"]: a string is
    a sequence too, and its first item is a one-character string. *)
Definition method_is_max_fill (m : Method) : result bool :=
  match m with
  | MStr "" => Raise IndexError
  | MStr _ => Ok false
  | MPair a _ => Ok (String.eqb a "max_fill")
  end.

(** [max] and [min] of a sequence of quantities: the first item is kept
    until a later one compares greater (smaller). *)
Definition py_max (l : list Decimal) : result Decimal :=
  match l with
  | [] => Raise ValueError
  | x :: t => Ok (fold_left (fun m y => if dec_gtb y m then y else m) t x)
  end.

Definition py_min (l : list Decimal) : result Decimal :=
  match l with
  | [] => Raise ValueError
  | x :: t => Ok (fold_left (fun m y => if dec_ltb y m then y else m) t x)
  end.

(** [round((v / droplet).m_as("")) * droplet]. *)
Definition quantize (v droplet : Volume) : result Volume :=
  n <- py_round (dec_div v droplet) ;;
  Ok (int_mul n droplet).

(** The argument [components] of an action: a name, a sequence of names and
    components, or one component. *)
Inductive ComponentsArg (Comp : Type) : Type :=
| CompName (s : string)
| CompSeq (l : list (string + Comp))
| CompOne (c : Comp).

Arguments CompName {Comp} s.
Arguments CompSeq {Comp} l.
Arguments CompOne {Comp} c.

Section Echo.

(** The components an action draws from, with their source concentration
    and the constructor [Component(name)]; the other actions of the mix,
    with the outcome of their [tx_volume]. *)
Variable Comp : Type.
Variable comp_concentration : Comp -> Conc.
Variable Component_of_name : string -> Comp.
Variable Sibling : Type.

(** An entry of the list [actions]: the action itself or another one. *)
Inductive ActionRef : Type :=
| Self
| Other (a : Sibling).

Variable sibling_tx_volume : Sibling -> Volume -> list ActionRef -> result Volume.

Definition _maybesequence_comps (object_or_sequence : ComponentsArg Comp)
  : list Comp :=
  match object_or_sequence with
  | CompName s => [Component_of_name s]
  | CompSeq l => map (fun x => match x with
                               | inl s => Component_of_name s
                               | inr c => c
                               end) l
  | CompOne c => [c]
  end.

(** Modelled from the spec: [source_concentrations] of the class
    [ActionWithComponents], the concentration of each component in order. *)
Definition source_concentrations (comps : list Comp) : list Conc :=
  map comp_concentration comps.

Record EchoFixedVolume : Type := {
  efv_components : list Comp;
  efv_fixed_volume : Volume;
  efv_set_name : option string;
  efv_droplet_volume : Volume;
  efv_compact_display : bool
}.

Record EchoEqualTargetConcentration : Type := {
  eetc_components : list Comp;
  eetc_fixed_volume : Volume;
  eetc_set_name : option string;
  eetc_droplet_volume : Volume;
  eetc_compact_display : bool;
  eetc_method : Method
}.

Record EchoTargetConcentration : Type := {
  etc_components : list Comp;
  etc_target_concentration : Conc;
  etc_set_name : option string;
  etc_droplet_volume : Volume;
  etc_compact_display : bool
}.

Record EchoFillToVolume : Type := {
  eftv_components : list Comp;
  eftv_target_total_volume : Volume;
  eftv_droplet_volume : Volume
}.

(** The generated constructors: each attribute goes through its converter,
    and nothing else runs. *)
Definition EchoFixedVolume_init (comps : ComponentsArg Comp)
  (fixed_volume : option Volume) (set_name : option string)
  (droplet_volume : Volume) (compact_display : bool)
  : result EchoFixedVolume :=
  fv <- _parse_vol_required fixed_volume ;;
  Ok {| efv_components := _maybesequence_comps comps;
        efv_fixed_volume := fv;
        efv_set_name := set_name;
        efv_droplet_volume := droplet_volume;
        efv_compact_display := compact_display |}.

Definition EchoEqualTargetConcentration_init (comps : ComponentsArg Comp)
  (fixed_volume : option Volume) (set_name : option string)
  (droplet_volume : Volume) (compact_display : bool) (method : Method)
  : result EchoEqualTargetConcentration :=
  fv <- _parse_vol_required fixed_volume ;;
  Ok {| eetc_components := _maybesequence_comps comps;
        eetc_fixed_volume := fv;
        eetc_set_name := set_name;
        eetc_droplet_volume := droplet_volume;
        eetc_compact_display := compact_display;
        eetc_method := method |}.

Definition EchoFillToVolume_init (comps : ComponentsArg Comp)
  (target_total_volume : option Volume) (droplet_volume : Volume)
  : result EchoFillToVolume :=
  Ok {| eftv_components := _maybesequence_comps comps;
        eftv_target_total_volume := _parse_vol_optional target_total_volume;
        eftv_droplet_volume := droplet_volume |}.

(** The body shared by both [_check_volume] methods. *)
Definition check_volume (fixed_volume droplet_volume : Volume) : result unit :=
  let fv := m_as_nL fixed_volume in
  let dv := m_as_nL droplet_volume in
  if dec_neb (dec_rem fv dv) (dec_of_Z 0) then Raise ValueError else Ok tt.

Definition EchoFixedVolume__check_volume (self : EchoFixedVolume) : result unit :=
  check_volume (efv_fixed_volume self) (efv_droplet_volume self).

Definition EchoEqualTargetConcentration__check_volume
  (self : EchoEqualTargetConcentration) : result unit :=
  check_volume (eetc_fixed_volume self) (eetc_droplet_volume self).

Definition EchoFixedVolume_each_volumes (self : EchoFixedVolume)
  (mix_vol : Volume) (acts : list ActionRef) : result (list Volume) :=
  Ok (repeat (efv_fixed_volume self) (List.length (efv_components self))).

(** The comprehension of the branches [min_volume] and [max_volume]. *)
Definition scaled_volumes (fixed_volume droplet_volume : Volume)
  (ratios : list Decimal) : result (list Volume) :=
  mapM (fun x => quantize (dec_mul fixed_volume x) droplet_volume) ratios.

Definition EchoEqualTargetConcentration_each_volumes
  (self : EchoEqualTargetConcentration) (mix_vol : Volume)
  (acts : list ActionRef) : result (list Volume) :=
  if method_is (eetc_method self) "min_volume" then
    let sc := source_concentrations (eetc_components self) in
    scmax <- py_max sc ;;
    scaled_volumes (eetc_fixed_volume self) (eetc_droplet_volume self)
      (_ratio_by_each scmax sc)
  else
    max_fill <- method_is_max_fill (eetc_method self) ;;
    if method_is (eetc_method self) "max_volume" || max_fill then
      let sc := source_concentrations (eetc_components self) in
      scmin <- py_min sc ;;
      scaled_volumes (eetc_fixed_volume self) (eetc_droplet_volume self)
        (_ratio_by_each scmin sc)
    else if method_is (eetc_method self) "check" then
      let sc := source_concentrations (eetc_components self) in
      if existsb (fun x => dec_neb x (hd DNaN sc)) sc then Raise ValueError
      else Ok (repeat (eetc_fixed_volume self)
                 (List.length (eetc_components self)))
    else Raise ValueError.

Definition EchoTargetConcentration_each_volumes
  (self : EchoTargetConcentration) (mix_vol : Volume)
  (acts : list ActionRef) : result (list Volume) :=
  mapM (fun r =>
          if negb (isnan mix_vol) && negb (isnan r)
          then quantize (dec_mul mix_vol r) (etc_droplet_volume self)
          else Ok NAN_VOL)
    (_ratio_by_each (etc_target_concentration self)
       (source_concentrations (etc_components self))).

(** [a is not self]. *)
Definition others (acts : list ActionRef) : list Sibling :=
  flat_map (fun a => match a with Self => [] | Other s => [s] end) acts.

Definition EchoFillToVolume_each_volumes (self : EchoFillToVolume)
  (mix_vol : Volume) (acts : list ActionRef) : result (list Volume) :=
  txs <- mapM (fun a => sibling_tx_volume a mix_vol acts) (others acts) ;;
  let othervol := dec_sum (dec_of_Z 0) txs in
  if (1 <? List.length (eftv_components self))%nat
  then Raise NotImplementedError
  else
    let tvol := if isnan (eftv_target_total_volume self) then mix_vol
                else eftv_target_total_volume self in
    v <- quantize (dec_sub tvol othervol) (eftv_droplet_volume self) ;;
    Ok [v].

(** The four acoustic action classes. *)
Inductive EchoAction : Type :=
| AFixedVolume (a : EchoFixedVolume)
| AEqualTargetConcentration (a : EchoEqualTargetConcentration)
| ATargetConcentration (a : EchoTargetConcentration)
| AFillToVolume (a : EchoFillToVolume).

Definition echo_each_volumes (a : EchoAction) (mix_vol : Volume)
  (acts : list ActionRef) : result (list Volume) :=
  match a with
  | AFixedVolume x => EchoFixedVolume_each_volumes x mix_vol acts
  | AEqualTargetConcentration x =>
      EchoEqualTargetConcentration_each_volumes x mix_vol acts
  | ATargetConcentration x => EchoTargetConcentration_each_volumes x mix_vol acts
  | AFillToVolume x => EchoFillToVolume_each_volumes x mix_vol acts
  end.

Definition echo_droplet_volume (a : EchoAction) : Volume :=
  match a with
  | AFixedVolume x => efv_droplet_volume x
  | AEqualTargetConcentration x => eetc_droplet_volume x
  | ATargetConcentration x => etc_droplet_volume x
  | AFillToVolume x => eftv_droplet_volume x
  end.

(** The actions whose [each_volumes] hands the stored fixed volume on as
    it is: [EchoFixedVolume], and the method [check]. *)
Definition passes_fixed_volume (a : EchoAction) : bool :=
  match a with
  | AFixedVolume _ => true
  | AEqualTargetConcentration x =>
      negb (method_is (eetc_method x) "min_volume")
      && negb (method_is (eetc_method x) "max_volume")
      && method_is (eetc_method x) "check"
  | _ => false
  end.

End Echo.

(** ** Reconciling a strand with a reference ([Strand.with_reference]) *)

(** [s.replace(c, "")] for a one-character [c]. *)
Fixpoint remove_char (c : ascii) (s : string) : string :=
  match s with
  | EmptyString => EmptyString
  | String a rest =>
      if Ascii.eqb a c then remove_char c rest
      else String a (remove_char c rest)
  end.

(** [s.replace(" ", "").replace("-", "")]. *)
Definition strip_sequence (s : string) : string :=
  remove_char "-"%char (remove_char " "%char s).

Inductive Mismatch : Type :=
| MisConcentration (row : RefRow)
| MisPlate (row : RefRow)
| MisWell (ref_well : option WellPos)
| MisSequence (cell : SeqCell).

(** What the call hands back: the receiver itself or a new object. *)
Inductive Returned : Type :=
| RetSelf
| RetNew (s : Strand).

Definition set_sequence (self : Strand) (seq : option string) : Strand :=
  {| strand_base := strand_base self; sequence := seq |}.

Definition option_string_eqb (a b : option WellPos) : bool :=
  match a, b with
  | Some x, Some y => String.eqb x y
  | None, None => true
  | _, _ => false
  end.

(** The three tests of the loop that come before the sequence test; they
    read attributes that the loop never assigns. *)
Definition row_passes (base : Component) (ref_comp : RefRow) : bool :=
  negb (negb (isnan (concentration base))
        && negb (dec_eqb (ref_conc ref_comp) (concentration base)))
  && negb (negb (String.eqb (plate base) "")
           && negb (String.eqb (ref_plate ref_comp) (plate base)))
  && negb (match well base with
           | Some w => negb (option_string_eqb (Some w) (ref_well ref_comp))
           | None => false
           end).

(** The state of the loop: the receiver, the mismatches and the matches. *)
Definition LoopState : Type := (Strand * list Mismatch * list RefRow)%type.

(** One iteration of the loop over the rows of the reference. *)
Definition reference_step (st : LoopState) (ref_comp : RefRow) : LoopState :=
  let '(self, mismatches, matches) := st in
  let base := strand_base self in
  if negb (isnan (concentration base))
     && negb (dec_eqb (ref_conc ref_comp) (concentration base))
  then (self, mismatches ++ [MisConcentration ref_comp], matches)
  else if negb (String.eqb (plate base) "")
          && negb (String.eqb (ref_plate ref_comp) (plate base))
  then (self, mismatches ++ [MisPlate ref_comp], matches)
  else if match well base with
          | Some w => negb (option_string_eqb (Some w) (ref_well ref_comp))
          | None => false
          end
  then (self, mismatches ++ [MisWell (ref_well ref_comp)], matches)
  else
    match sequence self, ref_sequence ref_comp with
    | Some ss, SeqStr y =>
        let self := set_sequence self (Some (strip_sequence ss)) in
        let y' := strip_sequence y in
        if negb (String.eqb (strip_sequence ss) y')
        then (self, mismatches ++ [MisSequence (ref_sequence ref_comp)], matches)
        else (self, mismatches, matches ++ [ref_comp])
    | _, _ => (self, mismatches, matches ++ [ref_comp])
    end.

(** The sequence of the result, from the receiver's and the match's. *)
Definition merged_sequence (ss : option string) (ms : SeqCell)
  : result (option string) :=
  match ss, ms with
  | None, SeqNone => Ok None
  | Some s, SeqNone => Ok (Some s)
  | Some s, SeqStr "" => Ok (Some s)
  | _, SeqStr t => Ok (Some t)
  | _, _ => Raise RuntimeError
  end.

(** [Strand.with_reference]: the receiver after the call, and the outcome. *)
Definition Strand_with_reference (self : Strand) (reference : Reference)
  (inplace : bool) : Strand * result Returned :=
  let ref_comps :=
    filter (fun row => String.eqb (ref_name row) (name (strand_base self)))
      reference in
  match ref_comps with
  | [] => (self, Ok RetSelf)
  | _ =>
      let '(self, mismatches, matches) :=
        fold_left reference_step ref_comps (self, [], []) in
      if (List.length matches =? 0)%nat && (0 <? List.length mismatches)%nat
      then (self, Raise ValueError)
      else
        match matches with
        | [] => (self, Raise IndexError)
        | m :: _ =>
            match merged_sequence (sequence self) (ref_sequence m) with
            | Raise e => (self, Raise e)
            | Ok seq =>
                let updated :=
                  {| strand_base :=
                       {| name := name (strand_base self);
                          concentration := ref_conc m;
                          plate := ref_plate m;
                          well := ref_well m |};
                     sequence := seq |} in
                if inplace then (updated, Ok RetSelf)
                else (self, Ok (RetNew updated))
            end
        end
  end.

(** ** Scenarios *)

Definition plain (nm : string) : Component :=
  {| name := nm; concentration := DNaN; plate := ""; well := None |}.

(** [Mix(actions, name, fixed_total_volume=ftv)], the other arguments at
    their defaults. *)
Definition Mix_new {Action : Type} `{AbstractAction Action}
  (acts : list Action) (nm : string) (ftv : option Volume)
  : result (Mix Action) :=
  Mix_init (ActionSeq acts) nm None ftv FCNone "Buffer" None
    (Some default_min_volume) None.

(** The mix of two fixed-volume transfers of 5 and 10 microlitres, one
    component each. *)
Definition two_transfers (c1 c2 : Component) (nm : string) (ftv : Volume)
  : Mix PipetteAction :=
  {| actions := [PFixedVolume [SComponent c1] (uL 5) None true;
                 PFixedVolume [SComponent c2] (uL 10) None true];
     mix_name := nm;
     test_tube_name := None;
     fixed_total_volume := ftv;
     fixed_concentration := FCNone;
     buffer_name := "Buffer";
     reference := None;
     min_volume := default_min_volume;
     split_tubes := None |}.


(** An intermediate mix that holds 0.05 microlitres, and a mix that draws
    0.1 microlitres from it. *)
Definition inner_mix : Mix PipetteAction :=
  {| actions := [PFixedVolume [SComponent (plain "s")] (uL (1 # 20)) None true];
     mix_name := "inner";
     test_tube_name := None;
     fixed_total_volume := uL (1 # 20);
     fixed_concentration := FCNone;
     buffer_name := "Buffer";
     reference := None;
     min_volume := default_min_volume;
     split_tubes := None |}.

Definition outer_mix : Mix PipetteAction :=
  {| actions := [PFixedVolume [SMix inner_mix] (uL (1 # 10)) None true];
     mix_name := "outer";
     test_tube_name := None;
     fixed_total_volume := uL 10;
     fixed_concentration := FCNone;
     buffer_name := "Buffer";
     reference := None;
     min_volume := default_min_volume;
     split_tubes := None |}.


(** Acoustic actions over plain components; another action of the mix is
    given by the outcome of its [tx_volume]. *)
Definition PlainEchoAction : Type := EchoAction Component.

Definition plain_echo_each_volumes
  : PlainEchoAction -> Volume -> list (ActionRef (result Volume))
    -> result (list Volume) :=
  echo_each_volumes Component concentration (result Volume)
    (fun s _ _ => s).

Definition at_conc (nm : string) (c : Conc) : Component :=
  {| name := nm; concentration := c; plate := ""; well := None |}.


(** A target of 100 nM from a component whose concentration is not known. *)
Definition target_of_unknown : EchoTargetConcentration Component :=
  {| etc_components := [plain "x"];
     etc_target_concentration := nM 100;
     etc_set_name := None;
     etc_droplet_volume := DEFAULT_DROPLET_VOL;
     etc_compact_display := true |}.


(** A target of 100 nM from a component whose concentration is not known
    and one at 200 nM. *)
Definition target_of_two : EchoTargetConcentration Component :=
  {| etc_components := [plain "x"; at_conc "y" (nM 200)];
     etc_target_concentration := nM 100;
     etc_set_name := None;
     etc_droplet_volume := DEFAULT_DROPLET_VOL;
     etc_compact_display := true |}.

(** The sentinel that [EchoTargetConcentration] returns at position [i]:
    the component at that position is the one whose ratio of target to
    source concentration is undefined. *)
Definition undefined_ratio_sentinel {Comp : Type} (conc : Comp -> Conc)
  (a : EchoAction Comp) (i : nat) (v : Volume) : Prop :=
  match a with
  | ATargetConcentration _ x =>
      v = NAN_VOL
      /\ exists c,
           nth_error (etc_components Comp x) i = Some c
           /\ isnan (dec_div (etc_target_concentration Comp x) (conc c))
              = true
  | _ => False
  end.

(** The decimal [Decimal("0.05")]. *)
Definition decimal_0_05 : Decimal := DFin (1 # 20).

(** A mix whose only action is a fixed-volume transfer of one microlitre
    from each of its components. *)
Definition one_microlitre_mix (comps : list (Source PipetteAction))
  (set_name : option string) (compact : bool) (nm : string) (ftv : Volume)
  : Mix PipetteAction :=
  {| actions := [PFixedVolume comps (uL 1) set_name compact];
     mix_name := nm;
     test_tube_name := None;
     fixed_total_volume := ftv;
     fixed_concentration := FCNone;
     buffer_name := "Buffer";
     reference := None;
     min_volume := default_min_volume;
     split_tubes := None |}.

(** The excess 0.05 as [split_mix] may receive it, and the context
    precisions under which it yields the multiplier 10.5. *)
Definition excess_0_05_within (prec : Z) (excess : ExcessArg) : Prop :=
  (excess = ExDecimal decimal_0_05 /\ 3 <= prec)
  \/ (excess = ExFloat float_0_05 /\ 3 <= prec <= 18).

(** The receiver of a loop state. *)
Definition loop_self (st : LoopState) : Strand := fst (fst st).

(** A row of the reference that reaches the sequence test of the loop with
    a string in its [Sequence] column. *)
Definition row_with_sequence (base : Component) (row : RefRow) : Prop :=
  ref_name row = name base
  /\ row_passes base row = true
  /\ exists y, ref_sequence row = SeqStr y.

(** The characters that Python counts as ASCII whitespace. *)
Definition is_whitespace (c : ascii) : bool :=
  let n := nat_of_ascii c in
  ((9 <=? n) && (n <=? 13))%nat || (n =? 32)%nat.

(** Stripping of whitespace and hyphens in the words of the specification:
    every whitespace character and every hyphen is removed.  The code
    removes the space and the hyphen only, see [strip_sequence]. *)
Fixpoint strip_whitespace_and_hyphens (s : string) : string :=
  match s with
  | EmptyString => EmptyString
  | String a rest =>
      if is_whitespace a || Ascii.eqb a "-"%char
      then strip_whitespace_and_hyphens rest
      else String a (strip_whitespace_and_hyphens rest)
  end.

(** The tabulator. *)
Definition tab : ascii := ascii_of_nat 9.

(** A strand whose sequence holds a space and a tabulator, and a reference
    that lists it with the tabulator. *)
Definition tabbed_sequence : string :=
  String.append "AC G" (String tab "TA").

Definition tabbed_strand : Strand :=
  {| strand_base := plain "s1"; sequence := Some tabbed_sequence |}.

Definition tabbed_reference : Reference :=
  [ {| ref_name := "s1"; ref_conc := nM 1000; ref_plate := "P1";
       ref_well := Some "A1";
       ref_sequence := SeqStr (String.append "ACG" (String tab "TA")) |} ].

(** A strand to reconcile and a reference that knows it. *)
Definition spaced_strand : Strand :=
  {| strand_base := plain "s1"; sequence := Some "AC GT-A" |}.

Definition spaced_reference : Reference :=
  [ {| ref_name := "s1"; ref_conc := nM 1000; ref_plate := "P1";
       ref_well := Some "A1"; ref_sequence := SeqStr "ACGTA" |} ].

(** A defined, nonzero magnitude. *)
Definition usable (d : Decimal) : Prop :=
  match d with
  | DNaN => False
  | DFin q => ~ (q == 0)%Q
  end.

(** Case analysis over the precisions from [n] on, [count] of them. *)
Ltac enumerate_precisions p n count :=
  lazymatch count with
  | O => exfalso; lia
  | S ?count' =>
      destruct (Z.eq_dec p n) as [->|?];
      [ vm_compute; reflexivity
      | let n' := eval compute in (n + 1) in
        enumerate_precisions p n' count' ]
  end.


From Stdlib Require Import Qabs Qfield.
Open Scope Z_scope.

(** ** The findings of validation, check by check *)

Section FindingsByCheck.

Context {Action : Type} `{AbstractAction Action}.

(** The finding of one check: present when its condition holds. *)
Definition finding_when (cond : bool) (e : VolumeError) : list VolumeError :=
  if cond then [e] else [].

(** The findings of the loop over the lines, in line order. *)
Definition minimum_findings (self : Mix Action) (mls : list MixLine)
  : list VolumeError :=
  flat_map (fun l => finding_when (below_minimum self l)
                       (minimum_finding self l)) mls.

(** The finding for one component of an action and the volume drawn. *)
Definition intermediate_finding (self : Mix Action)
  (cv : Source Action * Volume) : list VolumeError :=
  match fst cv with
  | SMix component =>
      finding_when (dec_ltb (fixed_total_volume component) (snd cv))
        (IntermediateTooSmall (mix_name component) (snd cv) (mix_name self)
           (fixed_total_volume component))
  | _ => []
  end.

(** The findings for the intermediate mixes, action by action, given the
    volumes of every action. *)
Definition intermediate_findings_of (self : Mix Action)
  (volss : list (list Volume)) : list VolumeError :=
  flat_map (fun av => flat_map (intermediate_finding self)
                        (combine (components (fst av)) (snd av)))
    (combine (actions self) volss).

Definition nan_vols_of (mls : list MixLine) : list (list string) :=
  map fst (filter (fun nx => isnan (snd nx)) (ntx_of mls)).

Definition high_vols_of (mls : list MixLine) (tv : Volume)
  : list (list string * Volume) :=
  filter (fun nx => dec_gtb (snd nx) tv) (ntx_of mls).

Definition neg_vols_of (mls : list MixLine) : list (list string * Volume) :=
  filter (fun nx => dec_ltb (snd nx) ZERO_VOL) (ntx_of mls).

(** The seven checks in the order in which validation runs them. *)
Definition findings_in_order (self : Mix Action) (mls : list MixLine)
  (tv : Volume) (final : list string * Volume) (volss : list (list Volume))
  : list VolumeError :=
  finding_when (negb (has_fixed_total_volume self)
                && has_fixed_concentration_action self)
    FixedConcentrationNeedsTotal
  ++ finding_when (nonempty (nan_vols_of mls))
       (VolumesNotDefined (nan_vols_of mls))
  ++ finding_when (nonempty (high_vols_of mls tv))
       (HigherThanTotal tv (high_vols_of mls tv))
  ++ minimum_findings self mls
  ++ finding_when (dec_ltb (snd final) ZERO_VOL)
       (LastComponentNegative (fst final) (snd final))
  ++ finding_when (nonempty (neg_vols_of mls)) (NegativeVolumes (neg_vols_of mls))
  ++ intermediate_findings_of self volss.

(** The volumes of every action of the mix at the mix volume [tv]. *)
Definition all_each_volumes (self : Mix Action) (tv : Volume)
  : result (list (list Volume)) :=
  mapM (fun a => each_volumes a tv (actions self)) (actions self).

End FindingsByCheck.

(** The mix of two transfers of 5 and 10 microlitres into 12 microlitres,
    topped up with water rather than buffer. *)
Definition watered_mix : Mix PipetteAction :=
  {| actions := [PFixedVolume [SComponent (plain "a")] (uL 5) None true;
                 PFixedVolume [SComponent (plain "b")] (uL 10) None true];
     mix_name := "m";
     test_tube_name := None;
     fixed_total_volume := uL 12;
     fixed_concentration := FCNone;
     buffer_name := "Water";
     reference := None;
     min_volume := default_min_volume;
     split_tubes := None |}.

(** The two transfers of 5 and 10 microlitres without a fixed total volume. *)
Definition unfixed_two_transfers : Mix PipetteAction :=
  two_transfers (plain "a") (plain "b") "m" NAN_VOL.

(** ** Acoustic actions: destination concentrations *)

Section EchoDestinations.

Variable Comp : Type.
Variable comp_concentration : Comp -> Conc.
Variable Sibling : Type.
Variable sibling_tx_volume :
  Sibling -> Volume -> list (ActionRef Sibling) -> result Volume.





End EchoDestinations.


(** ** Components: equality and reconciliation *)

(** What a component may be compared with: a component, a strand, or a
    value of another class. *)
Inductive PyValue : Type :=
| VComponent (c : Component)
| VStrand (s : Strand)
| VOther.

(** [Component.__eq__]. *)
Definition Component_eq (self : Component) (other : PyValue) : bool :=
  match other with
  | VComponent o =>
      if negb (String.eqb (name self) (name o)) then false
      else if isnan (concentration self) && isnan (concentration o) then true
      else dec_eqb (concentration self) (concentration o)
  | _ => false
  end.

(** What [Component.with_reference] hands back. *)
Inductive ComponentReturned : Type :=
| CRetSelf
| CRetNew (c : Component).

(** One iteration of the loop of [Component.with_reference]. *)
Definition component_step (self : Component)
  (st : list Mismatch * list RefRow) (ref_comp : RefRow)
  : list Mismatch * list RefRow :=
  let '(mismatches, matches) := st in
  if negb (isnan (concentration self))
     && negb (dec_eqb (ref_conc ref_comp) (concentration self))
  then (mismatches ++ [MisConcentration ref_comp], matches)
  else if negb (String.eqb (plate self) "")
          && negb (String.eqb (ref_plate ref_comp) (plate self))
  then (mismatches ++ [MisPlate ref_comp], matches)
  else if match well self with
          | Some w => negb (option_string_eqb (Some w) (ref_well ref_comp))
          | None => false
          end
  then (mismatches ++ [MisWell (ref_well ref_comp)], matches)
  else (mismatches, matches ++ [ref_comp]).

(** The component with the concentration and location of a reference row. *)
Definition reconciled (self : Component) (m : RefRow) : Component :=
  {| name := name self;
     concentration := ref_conc m;
     plate := ref_plate m;
     well := ref_well m |}.

(** [Component.with_reference]: the receiver after the call, and the
    outcome. *)
Definition Component_with_reference (self : Component)
  (reference : Reference) (inplace : bool)
  : Component * result ComponentReturned :=
  let ref_comps :=
    filter (fun row => String.eqb (ref_name row) (name self)) reference in
  match ref_comps with
  | [] => (self, Ok CRetSelf)
  | _ =>
      let '(mismatches, matches) :=
        fold_left (component_step self) ref_comps ([], []) in
      if (List.length matches =? 0)%nat && (0 <? List.length mismatches)%nat
      then (self, Raise ValueError)
      else
        match matches with
        | [] => (self, Raise IndexError)
        | m :: _ =>
            if inplace then (reconciled self m, Ok CRetSelf)
            else (self, Ok (CRetNew (reconciled self m)))
        end
  end.

(** The first row of the reference, in table order, that carries the name
    of the component and agrees with what the component already has. *)
Definition first_matching_row (self : Component) (reference : Reference)
  : option RefRow :=
  find (fun row => String.eqb (ref_name row) (name self)
                   && row_passes self row) reference.

(** The reference lists the name of the component. *)
Definition listed (self : Component) (reference : Reference) : bool :=
  existsb (fun row => String.eqb (ref_name row) (name self)) reference.

(** A component on plate P1 and a reference that lists it on two plates. *)
Definition placed_component : Component :=
  {| name := "c1"; concentration := DNaN; plate := "P2"; well := None |}.

Definition two_plate_reference : Reference :=
  [ {| ref_name := "c1"; ref_conc := nM 100; ref_plate := "P1";
       ref_well := Some "A1"; ref_sequence := SeqNone |};
    {| ref_name := "c2"; ref_conc := nM 300; ref_plate := "P2";
       ref_well := Some "A2"; ref_sequence := SeqNone |};
    {| ref_name := "c1"; ref_conc := nM 200; ref_plate := "P2";
       ref_well := Some "B1"; ref_sequence := SeqNone |};
    {| ref_name := "c1"; ref_conc := nM 250; ref_plate := "P2";
       ref_well := Some "B2"; ref_sequence := SeqNone |} ].

(** ** Strands: the row that a reconciliation takes *)

(** The four tests of the loop of [Strand.with_reference], on the strand as
    it is before the call. *)
Definition strand_row_passes (self : Strand) (row : RefRow) : bool :=
  row_passes (strand_base self) row
  && match sequence self, ref_sequence row with
     | Some ss, SeqStr y =>
         String.eqb (strip_sequence ss) (strip_sequence y)
     | _, _ => true
     end.

Definition first_matching_strand_row (self : Strand) (reference : Reference)
  : option RefRow :=
  find (fun row => String.eqb (ref_name row) (name (strand_base self))
                   && strand_row_passes self row) reference.

(** A loop state whose receiver is the strand [self], with its sequence as
    it was or stripped. *)
Definition tracks (self st : Strand) : Prop :=
  strand_base st = strand_base self
  /\ (sequence st = sequence self
      \/ sequence st = option_map strip_sequence (sequence self)).

(** The row passes the three tests on the location and has a string in its
    [Sequence] column, so that the loop strips the sequence of the receiver
    when it has one. *)
Definition reaches_sequence_test (self : Strand) (row : RefRow) : bool :=
  row_passes (strand_base self) row
  && match ref_sequence row with
     | SeqStr _ => true
     | _ => false
     end.

(** The sequence that the loop leaves on the receiver. *)
Definition receiver_sequence (self : Strand) (reference : Reference)
  : option string :=
  if existsb (fun row => String.eqb (ref_name row) (name (strand_base self))
                         && reaches_sequence_test self row) reference
  then option_map strip_sequence (sequence self)
  else sequence self.

(** ** Volumes made and consumed ([_update_volumes]) *)

(** A dictionary from names to volumes, in insertion order. *)
Definition Dict : Type := list (string * Volume).

Fixpoint dict_get (d : Dict) (k : string) : option Volume :=
  match d with
  | [] => None
  | (k', v) :: rest => if String.eqb k' k then Some v else dict_get rest k
  end.

(** [k in d]. *)
Definition dict_mem (d : Dict) (k : string) : bool :=
  match dict_get d k with
  | Some _ => true
  | None => false
  end.

(** [d.get(k, dflt)]. *)
Definition dict_get_default (d : Dict) (k : string) (dflt : Volume) : Volume :=
  match dict_get d k with
  | Some v => v
  | None => dflt
  end.

(** [d[k] = v]: the entry is replaced where it stands, or added at the
    end. *)
Fixpoint dict_set (d : Dict) (k : string) (v : Volume) : Dict :=
  match d with
  | [] => [(k, v)]
  | (k', v') :: rest =>
      if String.eqb k' k then (k', v) :: rest
      else (k', v') :: dict_set rest k v
  end.

(** The two dictionaries that the calls pass along and update: the volumes
    consumed and the volumes made. *)
Definition Volumes : Type := (Dict * Dict)%type.

(** [AbstractComponent._update_volumes], which components and strands
    inherit. *)
Definition Component_update_volumes (nm : string) (cm : Volumes) : Volumes :=
  let '(consumed_volumes, made_volumes) := cm in
  if dict_mem made_volumes nm then (consumed_volumes, made_volumes)
  else (consumed_volumes, dict_set made_volumes nm ZERO_VOL).

Section UpdateVolumes.

Context {Action : Type} `{AbstractAction Action}.

(** The outcome of a call that recurses into the mixes it draws from:
    [None] when the nesting is deeper than the depth allowed. *)
Definition Outcome : Type := option (result Volumes).

(** [component._update_volumes(consumed_volumes, made_volumes)], where
    [update_mix] is the method of a mix. *)
Definition Source_update_volumes (update_mix : Mix Action -> Volumes -> Outcome)
  (component : Source Action) (cm : Volumes) : Outcome :=
  match component with
  | SMix m => update_mix m cm
  | _ => Some (Ok (Component_update_volumes (source_name component) cm))
  end.

(** The inner loop of [Mix._update_volumes], over the components of one
    action and their volumes. *)
Fixpoint consume_components (update_mix : Mix Action -> Volumes -> Outcome)
  (zipped : list (Source Action * Volume)) (cm : Volumes) : Outcome :=
  match zipped with
  | [] => Some (Ok cm)
  | (component, volume) :: rest =>
      let '(consumed_volumes, made_volumes) := cm in
      let consumed_volumes :=
        dict_set consumed_volumes (source_name component)
          (dec_add (dict_get_default consumed_volumes (source_name component)
                      ZERO_VOL) volume) in
      match Source_update_volumes update_mix component
              (consumed_volumes, made_volumes) with
      | Some (Ok cm') => consume_components update_mix rest cm'
      | other => other
      end
  end.

(** The outer loop of [Mix._update_volumes], over the actions. *)
Fixpoint consume_actions (update_mix : Mix Action -> Volumes -> Outcome)
  (self : Mix Action) (acts : list Action) (cm : Volumes) : Outcome :=
  match acts with
  | [] => Some (Ok cm)
  | action :: rest =>
      match total_volume self with
      | Raise e => Some (Raise e)
      | Ok tv =>
          match each_volumes action tv (actions self) with
          | Raise e => Some (Raise e)
          | Ok vols =>
              match consume_components update_mix
                      (combine (components action) vols) cm with
              | Some (Ok cm') => consume_actions update_mix self rest cm'
              | other => other
              end
          end
      end
  end.

(** The end of [Mix._update_volumes]: the buffer. *)
Definition consume_buffer (self : Mix Action) (cm : Volumes) : Outcome :=
  let '(consumed_volumes, made_volumes) := cm in
  match buffer_volume self with
  | Raise e => Some (Raise e)
  | Ok bv =>
      if dec_gtb bv (dec_of_Z 0)
      then
        let made_volumes :=
          dict_set made_volumes (buffer_name self)
            (dict_get_default made_volumes (buffer_name self) (uL 0)) in
        match buffer_volume self with
        | Raise e => Some (Raise e)
        | Ok bv' =>
            Some (Ok (dict_set consumed_volumes (buffer_name self)
                        (dec_add (dict_get_default consumed_volumes
                                    (buffer_name self) (uL 0)) bv'),
                      made_volumes))
        end
      else Some (Ok (consumed_volumes, made_volumes))
  end.

(** [Mix._update_volumes], to the given depth of nesting. *)
Fixpoint Mix_update_volumes (depth : nat) (self : Mix Action) (cm : Volumes)
  : Outcome :=
  match depth with
  | O => None
  | S depth' =>
      let '(consumed_volumes, made_volumes) := cm in
      if dict_mem made_volumes (mix_name self) then Some (Ok cm)
      else
        match total_volume self with
        | Raise e => Some (Raise e)
        | Ok tv =>
            let made_volumes := dict_set made_volumes (mix_name self) tv in
            let consumed_volumes :=
              dict_set consumed_volumes (mix_name self) ZERO_VOL in
            match consume_actions (Mix_update_volumes depth') self
                    (actions self) (consumed_volumes, made_volumes) with
            | Some (Ok cm') => consume_buffer self cm'
            | other => other
            end
        end
  end.

(** The second pair of dictionaries has every entry of the volumes made
    that the first has, with its value, and every name of the volumes
    consumed that the first has. *)
Definition extends (cm cm' : Volumes) : Prop :=
  (forall k v, dict_get (snd cm) k = Some v -> dict_get (snd cm') k = Some v)
  /\ (forall k, dict_mem (fst cm) k = true -> dict_mem (fst cm') k = true).

End UpdateVolumes.

(** ** Ordering of quantities *)

(** [a >= b], both defined. *)
Definition at_least (a b : Decimal) : Prop :=
  match a, b with
  | DFin x, DFin y => (y <= x)%Q
  | _, _ => False
  end.

(** Three components at 100, 50 and 200 nM, sent at equal target
    concentration from a fixed volume of 50 nL. *)
Definition equal_target_of_three (method : Method)
  : EchoEqualTargetConcentration Component :=
  {| eetc_components :=
       [at_conc "a" (nM 100); at_conc "b" (nM 50); at_conc "c" (nM 200)];
     eetc_fixed_volume := nL 50;
     eetc_set_name := None;
     eetc_droplet_volume := DEFAULT_DROPLET_VOL;
     eetc_compact_display := false;
     eetc_method := method |}.
(** * Properties *)

(** ** Total volume and construction of a mix *)

Lemma two_transfers_constructed (c1 c2 : Component) (nm : string) (v : Volume) :
  Mix_new [PFixedVolume [SComponent c1] (uL 5) None true;
           PFixedVolume [SComponent c2] (uL 10) None true] nm (Some v)
  = Ok (two_transfers c1 c2 nm v).
Proof. reflexivity. Qed.

(** C1: a mix whose fixed total volume is defined has exactly that volume as
    its total volume, whatever its actions are and whatever they compute. *)
Theorem total_volume_is_fixed_total_volume :
  forall (Action : Type) (I : AbstractAction Action) (m : Mix Action),
    isnan (fixed_total_volume m) = false ->
    total_volume m = Ok (fixed_total_volume m).
Proof.
  intros Action I m Hdef.
  unfold total_volume.
  rewrite Hdef.
  reflexivity.
Qed.

Lemma total_volume_is_fixed_total_volume_witness :
  isnan (fixed_total_volume (two_transfers (plain "a") (plain "b") "m" (uL 12)))
  = false
  /\ total_volume (two_transfers (plain "a") (plain "b") "m" (uL 12))
     = Ok (uL 12).
Proof.
  split.
  - reflexivity.
  - apply (total_volume_is_fixed_total_volume PipetteAction _
             (two_transfers (plain "a") (plain "b") "m" (uL 12))).
    reflexivity.
Defined.

Lemma mapM_length {A B : Type} (f : A -> result B) (l : list A) (bs : list B) :
  mapM f l = Ok bs -> List.length bs = List.length l.
Proof.
  revert bs.
  induction l as [|a l IH]; intros bs Hm; simpl in Hm.
  - injection Hm as <-. reflexivity.
  - destruct (f a) as [b|e]; simpl in Hm; [|discriminate].
    destruct (mapM f l) as [bs'|e]; simpl in Hm; [|discriminate].
    injection Hm as <-. simpl. f_equal. apply IH. reflexivity.
Qed.

(** C9: constructing a mix from an empty action list raises at once, and a
    mix that construction returns has at least one action. *)
Theorem Mix_init_refuses_no_actions :
  forall (Action : Type) (I : AbstractAction Action)
         (nm : string) (tube : option string) (ftv : option Volume)
         (fc : FixedConcentrationSpec) (buf : string)
         (ref : option Reference) (minv : option Volume) (tubes : option Z),
    Mix_init (ActionSeq []) nm tube ftv fc buf ref minv tubes = Raise ValueError
    /\ forall acts : ActionsArg Action,
         match Mix_init acts nm tube ftv fc buf ref minv tubes with
         | Ok m => actions m <> []
         | Raise _ => True
         end.
Proof.
  intros Action I nm tube ftv fc buf ref minv tubes.
  split.
  - unfold Mix_init. destruct ref; reflexivity.
  - intro acts. unfold Mix_init.
    destruct (match ref with
              | Some r => mapM (fun action => action_with_reference action r)
                            (_maybesequence_action acts)
              | None => Ok (_maybesequence_action acts)
              end) as [referenced|e]; simpl; [|exact Logic.I].
    destruct referenced as [|a rest]; simpl; [exact Logic.I|].
    discriminate.
Qed.

(** ** The scenario of two fixed-volume transfers *)

Lemma two_transfers_20_valid (c1 c2 : Component) (nm fmt : string) :
  buffer_volume (two_transfers c1 c2 nm (uL 20)) = Ok (uL 5)
  /\ validate (two_transfers c1 c2 nm (uL 20)) (Some fmt) None false = Ok [].
Proof. split; reflexivity. Qed.

(** C3, as amended: with two fixed-volume transfers of 5 and 10 microlitres
    and a fixed total volume of 12 microlitres the buffer volume is -3
    microlitres, and validation returns three findings, each about the
    negative buffer volume: the buffer line is below the minimum volume, the
    last line is negative, and some volumes are negative. *)
Theorem two_transfers_12_findings :
  forall (c1 c2 : Component) (nm fmt : string),
    buffer_volume (two_transfers c1 c2 nm (uL 12)) = Ok (uL (-3))
    /\ validate (two_transfers c1 c2 nm (uL 12)) (Some fmt) None false
       = Ok [NegativeBuffer nm;
             LastComponentNegative ["Buffer"] (uL (-3));
             NegativeVolumes [(["Buffer"], uL (-3))]].
Proof.
  intros c1 c2 nm fmt.
  split; reflexivity.
Qed.

(** C3, as stated, fails: validation does not return exactly one finding. *)
Lemma two_transfers_12_not_one_finding :
  buffer_volume (two_transfers (plain "a") (plain "b") "m" (uL 12))
  = Ok (uL (-3))
  /\ ~ (exists e : VolumeError,
          validate (two_transfers (plain "a") (plain "b") "m" (uL 12))
            (Some "pipe") None false = Ok [e]).
Proof.
  split.
  - reflexivity.
  - intros [e He].
    vm_compute in He.
    discriminate He.
Qed.

(** ** Validation accumulates every finding *)

Section ValidateFacts.

Context {Action : Type} `{AbstractAction Action}.

Lemma check_minimum_keeps (self : Mix Action) (mls : list MixLine) :
  forall error_list, incl error_list (check_minimum self mls error_list).
Proof.
  induction mls as [|l mls IH]; intros acc e He; simpl.
  - exact He.
  - destruct (below_minimum self l); apply IH; [|exact He].
    apply in_or_app. left. exact He.
Qed.

Lemma check_minimum_finds (self : Mix Action) (mls : list MixLine) :
  forall error_list l,
    In l mls -> below_minimum self l = true ->
    In (minimum_finding self l) (check_minimum self mls error_list).
Proof.
  induction mls as [|l0 mls IH]; intros acc l Hin Hlow; simpl.
  - destruct Hin.
  - destruct Hin as [<-|Hin].
    + rewrite Hlow. apply check_minimum_keeps.
      apply in_or_app. right. left. reflexivity.
    + destruct (below_minimum self l0); apply IH; assumption.
Qed.

Lemma intermediate_findings_keeps (self : Mix Action)
  (zipped : list (Source Action * Volume)) :
  forall error_list,
    incl error_list (intermediate_findings self zipped error_list).
Proof.
  induction zipped as [|[c v] zipped IH]; intros acc e He; simpl.
  - exact He.
  - destruct c as [c|s|sub]; try (apply IH; exact He).
    destruct (dec_ltb (fixed_total_volume sub) v); apply IH; [|exact He].
    apply in_or_app. left. exact He.
Qed.

Lemma intermediate_findings_finds (self : Mix Action)
  (zipped : list (Source Action * Volume)) :
  forall error_list sub v,
    In (SMix sub, v) zipped ->
    dec_ltb (fixed_total_volume sub) v = true ->
    In (IntermediateTooSmall (mix_name sub) v (mix_name self)
          (fixed_total_volume sub))
      (intermediate_findings self zipped error_list).
Proof.
  induction zipped as [|[c0 v0] zipped IH]; intros acc sub v Hin Hlt; simpl.
  - destruct Hin.
  - destruct Hin as [Heq|Hin].
    + injection Heq as -> ->. rewrite Hlt.
      apply intermediate_findings_keeps.
      apply in_or_app. right. left. reflexivity.
    + destruct c0 as [c|s|sub0]; try (apply IH; assumption).
      destruct (dec_ltb (fixed_total_volume sub0) v0); apply IH; assumption.
Qed.

Lemma check_intermediates_ok (self : Mix Action) (tv : Volume) :
  total_volume self = Ok tv ->
  forall acts error_list,
    (forall a, In a acts ->
               is_ok (each_volumes a tv (actions self)) = true) ->
    exists errs,
      check_intermediates self acts error_list = Ok errs
      /\ incl error_list errs
      /\ forall a vols sub v,
           In a acts ->
           each_volumes a tv (actions self) = Ok vols ->
           In (SMix sub, v) (combine (components a) vols) ->
           dec_ltb (fixed_total_volume sub) v = true ->
           In (IntermediateTooSmall (mix_name sub) v (mix_name self)
                 (fixed_total_volume sub)) errs.
Proof.
  intros Htv acts.
  induction acts as [|a0 acts IH]; intros acc Hok; simpl.
  - exists acc. split; [reflexivity|]. split; [apply incl_refl|].
    intros a vols sub v [].
  - rewrite Htv. simpl.
    pose proof (Hok a0 (or_introl eq_refl)) as Ha0.
    destruct (each_volumes a0 tv (actions self)) as [vols0|e] eqn:Hev;
      [|discriminate Ha0].
    simpl.
    destruct (IH (intermediate_findings self
                    (combine (components a0) vols0) acc)) as
      (errs & Hrun & Hincl & Hfind).
    { intros a Ha. apply Hok. right. exact Ha. }
    exists errs. split; [exact Hrun|]. split.
    + intros e He. apply Hincl. apply intermediate_findings_keeps. exact He.
    + intros a vols sub v [<-|Hin] Hvols Hzip Hlt.
      * rewrite Hev in Hvols. injection Hvols as <-.
        apply Hincl. apply intermediate_findings_finds; assumption.
      * apply (Hfind a vols sub v); assumption.
Qed.

Lemma last_item_nonempty {A : Type} (l : list A) :
  l <> [] -> exists x, last_item l = Ok x.
Proof.
  intro Hne. unfold last_item.
  destruct (rev l) as [|x r] eqn:Hrev.
  - exfalso. apply Hne.
    rewrite <- (rev_involutive l), Hrev. reflexivity.
  - exists x. reflexivity.
Qed.

Lemma two_distinct_members {A : Type} (x y : A) (l : list A) :
  In x l -> In y l -> x <> y -> (2 <= List.length l)%nat.
Proof.
  intros Hx Hy Hne.
  destruct l as [|a [|b l]]; simpl in *.
  - destruct Hx.
  - destruct Hx as [<-|[]]. destruct Hy as [<-|[]]. congruence.
  - lia.
Qed.

Lemma minimum_finding_not_intermediate (self : Mix Action) (l : MixLine)
  (i : string) (n : Volume) (m : string) (a : Volume) :
  minimum_finding self l <> IntermediateTooSmall i n m a.
Proof.
  unfold minimum_finding.
  destruct (list_string_eqb (names l) [buffer_name self]); discriminate.
Qed.

End ValidateFacts.

Section ValidateComplete.

Context {Action : Type} `{AbstractAction Action}.

Lemma append_when_keeps (cond : bool) (e : VolumeError)
  (error_list : list VolumeError) :
  incl error_list (append_when cond e error_list).
Proof.
  intros x Hx. unfold append_when.
  destruct cond; [apply in_or_app; left|]; exact Hx.
Qed.

Lemma append_when_adds (e : VolumeError) (error_list : list VolumeError) :
  In e (append_when true e error_list).
Proof. apply in_or_app. right. left. reflexivity. Qed.

(** Without lines and without a table format validation raises. *)
Lemma validate_needs_lines_or_format (self : Mix Action) (raise_errors : bool) :
  validate self None None raise_errors = Raise ValueError.
Proof. reflexivity. Qed.

End ValidateComplete.

(** C2, as amended: called without mix lines and without a table format,
    validation raises ValueError.  Called with either, on a mix whose lines,
    total volume and transfer volumes can be computed and one of whose lines
    carries a volume, it does not raise, whatever [raise_errors] is, and
    returns a list in which no check hides another: every line below the
    minimum volume has its finding, every intermediate mix that holds less
    than is drawn from it has its finding, and so have the five other
    checks.  A mix with a transfer below the minimum and an intermediate mix
    that is too small therefore gets at least two findings. *)
Theorem validate_returns_all_findings :
  forall (Action : Type) (I : AbstractAction Action) (self : Mix Action)
         (tablefmt : option string) (given : option (list MixLine))
         (raise_errors : bool) (mls : list MixLine) (tv : Volume),
    resolved_mixlines self tablefmt given = Ok mls ->
    ntx_of mls <> [] ->
    total_volume self = Ok tv ->
    (forall a, In a (actions self) ->
               is_ok (each_volumes a tv (actions self)) = true) ->
    validate self None None raise_errors = Raise ValueError
    /\ exists errs final,
         validate self tablefmt given raise_errors = Ok errs
         /\ last_item (ntx_of mls) = Ok final
         /\ (forall l, In l mls -> below_minimum self l = true ->
                       In (minimum_finding self l) errs)
         /\ (forall a vols sub v,
               In a (actions self) ->
               each_volumes a tv (actions self) = Ok vols ->
               In (SMix sub, v) (combine (components a) vols) ->
               dec_ltb (fixed_total_volume sub) v = true ->
               In (IntermediateTooSmall (mix_name sub) v (mix_name self)
                     (fixed_total_volume sub)) errs)
         /\ (negb (has_fixed_total_volume self)
             && has_fixed_concentration_action self = true ->
             In FixedConcentrationNeedsTotal errs)
         /\ (forall nan_vols,
               nan_vols = map fst (filter (fun nx => isnan (snd nx)) (ntx_of mls)) ->
               nan_vols <> [] -> In (VolumesNotDefined nan_vols) errs)
         /\ (forall high_vols,
               high_vols = filter (fun nx => dec_gtb (snd nx) tv) (ntx_of mls) ->
               high_vols <> [] -> In (HigherThanTotal tv high_vols) errs)
         /\ (dec_ltb (snd final) ZERO_VOL = true ->
             In (LastComponentNegative (fst final) (snd final)) errs)
         /\ (forall neg_vols,
               neg_vols = filter (fun nx => dec_ltb (snd nx) ZERO_VOL) (ntx_of mls) ->
               neg_vols <> [] -> In (NegativeVolumes neg_vols) errs)
         /\ ((exists l, In l mls /\ below_minimum self l = true) ->
             (exists a vols sub v,
                 In a (actions self)
                 /\ each_volumes a tv (actions self) = Ok vols
                 /\ In (SMix sub, v) (combine (components a) vols)
                 /\ dec_ltb (fixed_total_volume sub) v = true) ->
             (2 <= List.length errs)%nat).
Proof.
  intros Action I self tablefmt given raise_errors mls tv
         Hmls Hntx Htv Hev.
  split; [reflexivity|].
  destruct (last_item_nonempty (ntx_of mls) Hntx) as [final Hfinal].
  unfold validate.
  rewrite Hmls. cbn [bind].
  rewrite Htv. cbn [bind].
  rewrite Hfinal. cbn [bind].
  set (e1 := append_when _ FixedConcentrationNeedsTotal []).
  set (e2 := append_when _ (VolumesNotDefined _) e1).
  set (e3 := append_when _ (HigherThanTotal tv _) e2).
  set (e4 := check_minimum self mls e3).
  set (e5 := append_when _ (LastComponentNegative _ _) e4).
  set (e6 := append_when _ (NegativeVolumes _) e5).
  destruct (check_intermediates_ok self tv Htv (actions self) e6 Hev)
    as (errs & Hrun & Hincl & Hinter).
  assert (H56 : incl e5 e6) by apply append_when_keeps.
  assert (H45 : incl e4 e5) by apply append_when_keeps.
  assert (H34 : incl e3 e4) by apply check_minimum_keeps.
  assert (H23 : incl e2 e3) by apply append_when_keeps.
  assert (H12 : incl e1 e2) by apply append_when_keeps.
  assert (Hmin : forall l, In l mls -> below_minimum self l = true ->
                           In (minimum_finding self l) errs).
  { intros l Hl Hlow. apply Hincl, H56, H45.
    apply check_minimum_finds; assumption. }
  exists errs, final.
  split; [exact Hrun|]. split; [reflexivity|].
  split; [exact Hmin|]. split; [exact Hinter|].
  split.
  { intro Hc. apply Hincl, H56, H45, H34, H23, H12.
    subst e1. rewrite Hc. apply append_when_adds. }
  split.
  { intros nan_vols -> Hne. apply Hincl, H56, H45, H34, H23.
    subst e2.
    destruct (map fst (filter (fun nx => isnan (snd nx)) (ntx_of mls)))
      as [|x r] eqn:Hn; [contradiction|].
    apply append_when_adds. }
  split.
  { intros high_vols -> Hne. apply Hincl, H56, H45, H34.
    subst e3.
    destruct (filter (fun nx => dec_gtb (snd nx) tv) (ntx_of mls))
      as [|x r] eqn:Hn; [contradiction|].
    apply append_when_adds. }
  split.
  { intro Hneg. apply Hincl, H56. subst e5. rewrite Hneg.
    apply append_when_adds. }
  split.
  { intros neg_vols -> Hne. apply Hincl. subst e6.
    destruct (filter (fun nx => dec_ltb (snd nx) ZERO_VOL) (ntx_of mls))
      as [|x r] eqn:Hn; [contradiction|].
    apply append_when_adds. }
  intros (l & Hl & Hlow) (a & vols & sub & v & Ha & Hvols & Hzip & Hlt).
  apply (two_distinct_members (minimum_finding self l)
           (IntermediateTooSmall (mix_name sub) v (mix_name self)
              (fixed_total_volume sub))).
  - apply Hmin; assumption.
  - apply (Hinter a vols sub v); assumption.
  - apply minimum_finding_not_intermediate.
Qed.

Lemma validate_returns_all_findings_witness :
  total_volume outer_mix = Ok (uL 10)
  /\ exists errs,
       validate outer_mix (Some "pipe") None false = Ok errs
       /\ (2 <= List.length errs)%nat.
Proof.
  split; [reflexivity|].
  destruct (validate_returns_all_findings PipetteAction _ outer_mix
              (Some "pipe") None false
              [ {| names := ["inner"];
                   total_tx_vol := Some (uL (1 # 10));
                   number := 1;
                   each_tx_vol := uL (1 # 10);
                   line_plate := "" |};
                MixLine_init ["Buffer"] (Some (uL (99 # 10))) ]
              (uL 10))
    as (_ & errs & final & Hrun & _ & _ & _ & _ & _ & _ & _ & _ & Htwo).
  - reflexivity.
  - discriminate.
  - reflexivity.
  - intros a [<-|[]]. reflexivity.
  - exists errs. split; [exact Hrun|].
    apply Htwo.
    + eexists. split; [left; reflexivity|reflexivity].
    + exists (PFixedVolume [SMix inner_mix] (uL (1 # 10)) None true),
        [uL (1 # 10)], inner_mix, (uL (1 # 10)).
      split; [left; reflexivity|].
      split; [reflexivity|].
      split; [left; reflexivity|reflexivity].
Defined.

(** C2, as stated, fails: with its default arguments validation raises. *)
Lemma validate_raises_by_default :
  validate outer_mix None None false = Raise ValueError
  /\ ~ (exists errs, validate outer_mix None None false = Ok errs).
Proof.
  split.
  - reflexivity.
  - intros [errs Herrs]. discriminate Herrs.
Qed.

(** ** Acoustic actions: droplet multiples *)

Lemma mapM_members {A B : Type} (f : A -> result B) (l : list A) (bs : list B) :
  mapM f l = Ok bs ->
  forall b, In b bs -> exists a, In a l /\ f a = Ok b.
Proof.
  revert bs.
  induction l as [|a l IH]; intros bs Hm b Hb; simpl in Hm.
  - injection Hm as <-. destruct Hb.
  - destruct (f a) as [b0|e] eqn:Hfa; simpl in Hm; [|discriminate].
    destruct (mapM f l) as [bs'|e]; simpl in Hm; [|discriminate].
    injection Hm as <-.
    destruct Hb as [<-|Hb].
    + exists a. split; [left; reflexivity|exact Hfa].
    + destruct (IH bs' eq_refl b Hb) as (a' & Ha' & Hfa').
      exists a'. split; [right; exact Ha'|exact Hfa'].
Qed.

Lemma int_mul_is_multiple (n : Z) (y : Q) :
  is_multiple_of (int_mul n (DFin y)) (DFin y).
Proof.
  cbv [int_mul dec_mul dec_lift2 dec_of_Z is_multiple_of].
  exists n. apply Qred_correct.
Qed.

Lemma quantize_is_multiple (v droplet w : Volume) :
  quantize v droplet = Ok w -> is_multiple_of w droplet.
Proof.
  unfold quantize. intro Hq.
  destruct droplet as [|y].
  - destruct v; simpl in Hq; discriminate.
  - destruct (py_round (dec_div v (DFin y))) as [n|e]; simpl in Hq;
      [|discriminate].
    injection Hq as <-. apply int_mul_is_multiple.
Qed.

Section EchoFacts.

Variable Comp : Type.
Variable comp_concentration : Comp -> Conc.
Variable Sibling : Type.
Variable sibling_tx_volume :
  Sibling -> Volume -> list (ActionRef Sibling) -> result Volume.

Lemma scaled_volumes_multiples (fv droplet : Volume) (ratios : list Decimal)
  (vols : list Volume) :
  scaled_volumes fv droplet ratios = Ok vols ->
  Forall (fun v => is_multiple_of v droplet) vols.
Proof.
  intro Hs. apply Forall_forall. intros v Hv.
  destruct (mapM_members _ _ _ Hs v Hv) as (x & _ & Hx).
  apply (quantize_is_multiple _ _ _ Hx).
Qed.

End EchoFacts.

Lemma mapM_returns {A B : Type} (f : A -> result B) (l : list A) :
  (forall a, In a l -> exists b, f a = Ok b) ->
  exists bs, mapM f l = Ok bs /\ List.length bs = List.length l.
Proof.
  induction l as [|a l IH]; intro Hall.
  - exists []. split; reflexivity.
  - destruct (Hall a (or_introl eq_refl)) as [b Hb].
    destruct IH as (bs & Hbs & Hlen).
    { intros a' Ha'. apply Hall. right. exact Ha'. }
    exists (b :: bs). split.
    + simpl. rewrite Hb. simpl. rewrite Hbs. reflexivity.
    + simpl. f_equal. exact Hlen.
Qed.

Lemma dec_div_usable (a b : Decimal) :
  isnan a = false -> usable b -> isnan (dec_div a b) = false.
Proof.
  destruct a as [|x]; [discriminate|].
  destruct b as [|y]; [intros _ []|].
  intros _ Hy. simpl.
  destruct (Qeq_bool y 0) eqn:Hz; [|reflexivity].
  exfalso. apply Hy. apply Qeq_bool_iff. exact Hz.
Qed.

Lemma quantize_returns (v droplet : Volume) :
  isnan v = false -> usable droplet -> exists w, quantize v droplet = Ok w.
Proof.
  intros Hv Hd. unfold quantize.
  pose proof (dec_div_usable v droplet Hv Hd) as Hq.
  destruct (dec_div v droplet) as [|q]; [discriminate|].
  eexists. reflexivity.
Qed.

Lemma extremum_defined (pick : Decimal -> Decimal -> bool) (t : list Decimal) :
  forall x,
    isnan x = false ->
    (forall c, In c t -> isnan c = false) ->
    isnan (fold_left (fun m y => if pick y m then y else m) t x) = false.
Proof.
  induction t as [|y t IH]; intros x Hx Hall.
  - exact Hx.
  - cbn [fold_left]. apply IH.
    + destruct (pick y x); [apply Hall; left; reflexivity|exact Hx].
    + intros c Hc. apply Hall. right. exact Hc.
Qed.

(** With at least one component, source concentrations that are defined and
    not zero, a defined fixed volume and a droplet volume that is defined
    and not zero, the method min_volume returns one volume per component. *)
Lemma min_volume_returns (Comp : Type) (conc : Comp -> Conc) (Sibling : Type)
  (self : EchoEqualTargetConcentration Comp) (mix_vol : Volume)
  (acts : list (ActionRef Sibling)) :
  eetc_method Comp self = MStr "min_volume" ->
  eetc_components Comp self <> [] ->
  (forall c, In c (eetc_components Comp self) -> usable (conc c)) ->
  isnan (eetc_fixed_volume Comp self) = false ->
  usable (eetc_droplet_volume Comp self) ->
  exists vols,
    EchoEqualTargetConcentration_each_volumes Comp conc Sibling self
      mix_vol acts = Ok vols
    /\ List.length vols = List.length (eetc_components Comp self).
Proof.
  intros Hm Hne Hsc Hfv Hdv.
  unfold EchoEqualTargetConcentration_each_volumes.
  rewrite Hm. cbn [method_is]. rewrite String.eqb_refl.
  unfold source_concentrations.
  destruct (eetc_components Comp self) as [|c0 cs] eqn:Hcs; [contradiction|].
  cbn [map py_max bind].
  assert (Hdefined : forall c, In c (c0 :: cs) -> isnan (conc c) = false).
  { intros c Hc. specialize (Hsc c Hc). destruct (conc c); [destruct Hsc|].
    reflexivity. }
  set (scmax := fold_left (fun m y => if dec_gtb y m then y else m)
                  (map conc cs) (conc c0)).
  unfold scaled_volumes.
  assert (Hmax : isnan scmax = false).
  { apply extremum_defined.
    - apply Hdefined. left. reflexivity.
    - intros c Hc. apply in_map_iff in Hc. destruct Hc as (c' & <- & Hc').
      apply Hdefined. right. exact Hc'. }
  destruct (mapM_returns
              (fun x => quantize (dec_mul (eetc_fixed_volume Comp self) x)
                          (eetc_droplet_volume Comp self))
              (_ratio_by_each scmax (conc c0 :: map conc cs)))
    as (vols & Hvols & Hlen).
  { intros r Hr. apply quantize_returns; [|exact Hdv].
    unfold _ratio_by_each in Hr. apply in_map_iff in Hr.
    destruct Hr as (y & <- & Hy).
    assert (Huse : usable y).
    { destruct Hy as [<-|Hy]; [apply Hsc; left; reflexivity|].
      apply in_map_iff in Hy. destruct Hy as (c' & <- & Hc').
      apply Hsc. right. exact Hc'. }
    pose proof (dec_div_usable scmax y Hmax Huse) as Hq.
    destruct (eetc_fixed_volume Comp self); [discriminate|].
    destruct (dec_div scmax y); [discriminate|]. reflexivity. }
  exists vols. split; [exact Hvols|].
  rewrite Hlen. unfold _ratio_by_each. rewrite length_map.
  cbn [List.length]. rewrite length_map. reflexivity.
Qed.

Lemma mapM_nth {A B : Type} (f : A -> result B) (l : list A) (bs : list B) :
  mapM f l = Ok bs ->
  forall i b, nth_error bs i = Some b ->
              exists a, nth_error l i = Some a /\ f a = Ok b.
Proof.
  revert bs.
  induction l as [|a l IH]; intros bs Hm i b Hb; simpl in Hm.
  - injection Hm as <-. destruct i; discriminate Hb.
  - destruct (f a) as [b0|e] eqn:Hfa; simpl in Hm; [|discriminate].
    destruct (mapM f l) as [bs'|e]; simpl in Hm; [|discriminate].
    injection Hm as <-.
    destruct i as [|i].
    + injection Hb as <-. exists a. split; [reflexivity|exact Hfa].
    + apply (IH bs' eq_refl i b Hb).
Qed.

(** The equal-target-concentration action under one of the rounding
    methods returns multiples of its droplet volume only. *)
Lemma equal_target_volumes_multiples (Comp : Type) (conc : Comp -> Conc)
  (Sibling : Type) (x : EchoEqualTargetConcentration Comp)
  (mix_vol : Volume) (acts : list (ActionRef Sibling))
  (vols : list Volume) :
  negb (method_is (eetc_method Comp x) "min_volume")
  && negb (method_is (eetc_method Comp x) "max_volume")
  && method_is (eetc_method Comp x) "check" = false ->
  EchoEqualTargetConcentration_each_volumes Comp conc Sibling x mix_vol acts
  = Ok vols ->
  Forall (fun v => is_multiple_of v (eetc_droplet_volume Comp x)) vols.
Proof.
  intros Hpass Hev.
  unfold EchoEqualTargetConcentration_each_volumes in Hev.
  destruct (method_is (eetc_method Comp x) "min_volume") eqn:Hmin.
  - destruct (py_max _) as [scmax|e]; simpl in Hev; [|discriminate].
    apply (scaled_volumes_multiples _ _ _ _ Hev).
  - destruct (method_is_max_fill (eetc_method Comp x)) as [mf|e];
      simpl in Hev; [|discriminate].
    destruct (method_is (eetc_method Comp x) "max_volume") eqn:Hmax;
      simpl in Hev.
    + destruct (py_min _) as [scmin|e]; simpl in Hev; [|discriminate].
      apply (scaled_volumes_multiples _ _ _ _ Hev).
    + destruct mf.
      * destruct (py_min _) as [scmin|e]; simpl in Hev; [|discriminate].
        apply (scaled_volumes_multiples _ _ _ _ Hev).
      * simpl in Hpass. rewrite Hpass in Hev. discriminate Hev.
Qed.

(** C4, as amended: for every acoustic action whose [each_volumes] rounds
    to droplets (equal target concentration under a method other than
    check, target concentration, fill to volume) and every defined mix
    volume, every volume returned is an exact integer multiple of the
    droplet volume of the action, except that the target-concentration
    action returns the undefined sentinel at the position of a component
    whose own ratio of target to source concentration is undefined. *)
Theorem echo_volumes_are_droplet_multiples :
  forall (Comp : Type) (conc : Comp -> Conc) (Sibling : Type)
         (sibling_tx :
            Sibling -> Volume -> list (ActionRef Sibling) -> result Volume)
         (a : EchoAction Comp) (mix_vol : Volume)
         (acts : list (ActionRef Sibling)) (vols : list Volume),
    passes_fixed_volume Comp a = false ->
    isnan mix_vol = false ->
    echo_each_volumes Comp conc Sibling sibling_tx a mix_vol acts = Ok vols ->
    forall (i : nat) (v : Volume),
      nth_error vols i = Some v ->
      is_multiple_of v (echo_droplet_volume Comp a)
      \/ undefined_ratio_sentinel conc a i v.
Proof.
  intros Comp conc Sibling sibling_tx a mix_vol acts vols Hpass Hdef Hev
         i v Hi.
  destruct a as [x|x|x|x];
    cbn [passes_fixed_volume echo_each_volumes echo_droplet_volume
         undefined_ratio_sentinel] in *.
  - discriminate Hpass.
  - left.
    pose proof (equal_target_volumes_multiples Comp conc Sibling x mix_vol
                  acts vols Hpass Hev) as Hall.
    rewrite Forall_forall in Hall. apply Hall.
    apply (nth_error_In _ _ Hi).
  - unfold EchoTargetConcentration_each_volumes in Hev.
    destruct (mapM_nth _ _ _ Hev i v Hi) as (r & Hr & Hrv).
    rewrite Hdef in Hrv. cbn [negb andb] in Hrv.
    unfold _ratio_by_each, source_concentrations in Hr.
    rewrite !nth_error_map in Hr.
    destruct (nth_error (etc_components Comp x) i) as [c|] eqn:Hc;
      [|discriminate Hr].
    cbn [option_map] in Hr. injection Hr as <-.
    destruct (isnan (dec_div (etc_target_concentration Comp x) (conc c)))
      eqn:Hnan; cbn [negb] in Hrv.
    + right. injection Hrv as <-. split; [reflexivity|].
      exists c. split; [reflexivity|exact Hnan].
    + left. apply (quantize_is_multiple _ _ _ Hrv).
  - left. unfold EchoFillToVolume_each_volumes in Hev.
    destruct (mapM _ _) as [txs|e]; simpl in Hev; [|discriminate].
    destruct (1 <? List.length (eftv_components Comp x))%nat;
      [discriminate|].
    destruct (quantize _ _) as [w|e] eqn:Hq; simpl in Hev; [|discriminate].
    injection Hev as <-.
    destruct i as [|[|i]]; try discriminate Hi.
    injection Hi as <-. apply (quantize_is_multiple _ _ _ Hq).
Qed.

Lemma echo_volumes_are_droplet_multiples_witness :
  plain_echo_each_volumes (ATargetConcentration _ target_of_two)
    (uL 10) [Self _] = Ok [NAN_VOL; uL 5]
  /\ (is_multiple_of NAN_VOL DEFAULT_DROPLET_VOL
      \/ undefined_ratio_sentinel concentration
           (ATargetConcentration _ target_of_two) 0 NAN_VOL)
  /\ (is_multiple_of (uL 5) DEFAULT_DROPLET_VOL
      \/ undefined_ratio_sentinel concentration
           (ATargetConcentration _ target_of_two) 1 (uL 5)).
Proof.
  split; [reflexivity|].
  split;
    apply (echo_volumes_are_droplet_multiples Component concentration
             (result Volume) (fun s _ _ => s)
             (ATargetConcentration _ target_of_two)
             (uL 10) [Self _] [NAN_VOL; uL 5]); reflexivity.
Defined.

(** C4, as stated, fails: with a defined mix volume the target-concentration
    action returns the undefined sentinel, which is no multiple of the
    droplet volume, for a component of unknown concentration. *)
Lemma echo_volume_not_a_multiple :
  isnan (uL 10) = false
  /\ plain_echo_each_volumes (ATargetConcentration _ target_of_unknown)
       (uL 10) [Self _] = Ok [NAN_VOL]
  /\ ~ Forall (fun v => is_multiple_of v
                          (echo_droplet_volume _
                             (ATargetConcentration _ target_of_unknown)))
         [NAN_VOL].
Proof.
  split; [reflexivity|]. split; [reflexivity|].
  intro Hall. inversion Hall as [|v l Hv _]. exact Hv.
Qed.

(** ** Acoustic actions: the droplet check and construction *)

(** Construction succeeds for every volume that is given: the converters
    are all that runs, and they do not look at the droplet volume. *)
Lemma EchoFixedVolume_init_accepts (Comp : Type) (mk : string -> Comp)
  (comps : ComponentsArg Comp) (v : Volume) (set_name : option string)
  (droplet : Volume) (compact : bool) :
  exists a,
    EchoFixedVolume_init Comp mk comps (Some v) set_name droplet compact = Ok a
    /\ efv_fixed_volume Comp a = v
    /\ efv_droplet_volume Comp a = droplet.
Proof.
  eexists. split; [reflexivity|]. split; reflexivity.
Qed.

Lemma EchoEqualTargetConcentration_init_accepts (Comp : Type)
  (mk : string -> Comp) (comps : ComponentsArg Comp) (v : Volume)
  (set_name : option string) (droplet : Volume) (compact : bool)
  (method : Method) :
  exists a,
    EchoEqualTargetConcentration_init Comp mk comps (Some v) set_name droplet
      compact method = Ok a
    /\ eetc_fixed_volume Comp a = v
    /\ eetc_droplet_volume Comp a = droplet.
Proof.
  eexists. split; [reflexivity|]. split; reflexivity.
Qed.

(** C5 fails on the code: a fixed volume of 30 nL with droplets of 25 nL is
    accepted by the constructors of both classes, the check that would
    refuse it raises only when it is called by hand, and [each_volumes]
    hands the 30 nL on without an error. *)
Theorem echo_construction_skips_droplet_check :
  (exists a,
      EchoFixedVolume_init Component plain (CompName "a") (Some (nL 30)) None
        DEFAULT_DROPLET_VOL true = Ok a
      /\ EchoFixedVolume__check_volume Component a = Raise ValueError
      /\ plain_echo_each_volumes (AFixedVolume _ a) (uL 10) [Self _]
         = Ok [nL 30]
      /\ ~ is_multiple_of (nL 30) DEFAULT_DROPLET_VOL)
  /\ (exists a,
         EchoEqualTargetConcentration_init Component plain (CompName "a")
           (Some (nL 30)) None DEFAULT_DROPLET_VOL false (MStr "check") = Ok a
         /\ EchoEqualTargetConcentration__check_volume Component a
            = Raise ValueError).
Proof.
  split.
  - eexists. split; [reflexivity|]. split; [reflexivity|].
    split; [reflexivity|].
    intros [n Hn]. unfold Qeq in Hn. simpl in Hn. lia.
  - eexists. split; reflexivity.
Qed.

(** ** Acoustic actions: the method check *)






(** ** Split mixes: the multiplier *)

(** The float literal [0.05] is the binary64 number nearest to 1/20: its
    significand has 53 bits and it is off by less than half a unit in the
    last place. *)
Lemma float_0_05_nearest :
  2 ^ 52 <= 7205759403792794 < 2 ^ 53
  /\ Z.abs (20 * 7205759403792794 - 2 ^ 57) <= 10
  /\ Decimal_of_float float_0_05 = DFin (3602879701896397 # 72057594037927936).
Proof.
  split; [split; [apply Z.leb_le|apply Z.ltb_lt]; vm_compute; reflexivity|].
  split; [apply Z.leb_le; vm_compute; reflexivity|reflexivity].
Qed.

(** A number that fits the precision is left as it is: when the scaled
    numerator is a multiple of the denominator nothing is rounded away. *)
Lemma ctx_round_exact (prec n k : Z) (d : positive) :
  n <> 0 ->
  adjusted (Z.abs n) (Zpos d) - prec + 1 < 0 ->
  n * 10 ^ (- (adjusted (Z.abs n) (Zpos d) - prec + 1)) = k * Zpos d ->
  (ctx_round prec (n # d) == n # d)%Q.
Proof.
  intros Hn Hs Hk.
  unfold ctx_round. cbn [Qnum Qden].
  destruct (Z.eqb_spec n 0) as [|_]; [contradiction|].
  set (s := adjusted (Z.abs n) (Zpos d) - prec + 1) in *.
  destruct (Z.leb_spec 0 s) as [Hle|_]; [lia|].
  assert (Hpow : 0 < 10 ^ (- s)) by (apply Z.pow_pos_nonneg; lia).
  assert (Hr : round_half_even (n * 10 ^ (- s) # d) = k).
  { unfold round_half_even. cbn [Qnum Qden]. rewrite Hk.
    rewrite Z.div_mul by discriminate.
    rewrite Z.mod_mul by discriminate.
    reflexivity. }
  rewrite Hr. rewrite Qred_correct.
  unfold Qeq. cbn [Qnum Qden].
  rewrite Z2Pos.id by exact Hpow.
  rewrite <- Hk. ring.
Qed.

Lemma pow10_split (prec j : Z) :
  0 <= j <= prec -> 10 ^ prec = 10 ^ (prec - j) * 10 ^ j.
Proof.
  intro Hj. rewrite <- Z.pow_add_r by lia. f_equal. lia.
Qed.

(** With the decimal 0.05 the multiplier for ten tubes is 10.5 under every
    precision of three digits or more. *)
Lemma multiplier_decimal_0_05 (prec : Z) :
  3 <= prec -> volume_multiplier_of prec 10 decimal_0_05 = DFin (21 # 2).
Proof.
  intro Hp.
  unfold volume_multiplier_of, decimal_mul, decimal_add, ctx_lift2,
    decimal_0_05, dec_of_Z.
  assert (Hadd : Qred (ctx_round prec (inject_Z 1 + (1 # 20))) = (21 # 20)%Q).
  { change (inject_Z 1 + (1 # 20))%Q with (21 # 20)%Q.
    change (21 # 20)%Q with (Qred (21 # 20)) at 2.
    apply Qred_complete.
    apply (ctx_round_exact prec 21 (105 * 10 ^ (prec - 3)) 20).
    - discriminate.
    - change (adjusted (Z.abs 21) 20) with 0. lia.
    - change (adjusted (Z.abs 21) 20) with 0.
      replace (- (0 - prec + 1)) with (prec - 1) by lia.
      rewrite (pow10_split (prec - 1) 2) by lia.
      replace (prec - 1 - 2) with (prec - 3) by lia.
      change (10 ^ 2) with 100. ring. }
  rewrite Hadd.
  f_equal.
  change (inject_Z 10 * (21 # 20))%Q with (210 # 20)%Q.
  change (21 # 2)%Q with (Qred (210 # 20)).
  apply Qred_complete.
  apply (ctx_round_exact prec 210 (105 * 10 ^ (prec - 3)) 20).
  - discriminate.
  - change (adjusted (Z.abs 210) 20) with 1. lia.
  - change (adjusted (Z.abs 210) 20) with 1.
    replace (- (1 - prec + 1)) with (prec - 2) by lia.
    rewrite (pow10_split (prec - 2) 1) by lia.
    replace (prec - 2 - 1) with (prec - 3) by lia.
    change (10 ^ 1) with 10. ring.
Qed.

(** With the float 0.05 the sum [1 + excess] has the digits 1.05 followed
    by fifteen zeros before the error of the float shows, so the multiplier
    is 10.5 under a precision of three to eighteen digits. *)
Lemma multiplier_float_0_05 (prec : Z) :
  3 <= prec <= 18 ->
  volume_multiplier_of prec 10 (Decimal_of_float float_0_05) = DFin (21 # 2).
Proof.
  intro Hp.
  enumerate_precisions prec 3 16%nat.
Qed.

(** Under the 28 digits of the default context the float 0.05 leaves its
    error in the multiplier. *)
Lemma multiplier_float_0_05_at_28 :
  volume_multiplier_of 28 10 (Decimal_of_float float_0_05)
  = DFin (525000000000000001387778781 # 50000000000000000000000000)
  /\ volume_multiplier_of 19 10 (Decimal_of_float float_0_05)
     <> DFin (21 # 2).
Proof.
  split; [vm_compute; reflexivity|].
  vm_compute. discriminate.
Qed.

(** ** Split mixes: the derived mix *)

Lemma list_set_middle {A : Type} (pre : list A) (x a : A) (t : list A) :
  list_set (List.length pre) x (pre ++ a :: t) = pre ++ x :: t.
Proof.
  induction pre as [|p pre IH]; simpl.
  - reflexivity.
  - f_equal. exact IH.
Qed.

Section SplitMixFacts.

Context {Action : Type} `{AbstractAction Action}.

(** The two loops of [split_mix] replace every [FixedVolume] action by its
    enlarged copy and leave every other action where and as it is. *)
Lemma split_loops_enlarge (m : Decimal) (suf : list Action) :
  forall pre : list Action,
    fold_left (fun l ia => list_set (fst ia) (snd ia) l)
      (flat_map (fun ia => enlarge m (fst ia) (snd ia))
         (enumerate_from (List.length pre) suf))
      (pre ++ suf)
    = pre ++ map (enlarged m) suf.
Proof.
  induction suf as [|a t IH]; intro pre.
  - reflexivity.
  - cbn [enumerate_from flat_map fst snd map].
    rewrite fold_left_app.
    destruct (as_FixedVolume a) as [fv|] eqn:Hfv.
    + assert (He : enlarge m (List.length pre) a
                   = [(List.length pre,
                       FixedVolume (fv_components fv)
                         (dec_mul (fv_fixed_volume fv) m)
                         (fv_set_name fv) (fv_compact_display fv))])
        by (unfold enlarge; rewrite Hfv; reflexivity).
      assert (Hd : enlarged m a
                   = FixedVolume (fv_components fv)
                       (dec_mul (fv_fixed_volume fv) m)
                       (fv_set_name fv) (fv_compact_display fv))
        by (unfold enlarged; rewrite Hfv; reflexivity).
      rewrite He, Hd.
      cbn [fold_left fst snd].
      rewrite list_set_middle.
      specialize (IH (pre ++ [FixedVolume (fv_components fv)
                                (dec_mul (fv_fixed_volume fv) m)
                                (fv_set_name fv) (fv_compact_display fv)])).
      rewrite length_app in IH. cbn [List.length] in IH.
      rewrite Nat.add_1_r in IH.
      rewrite <- !app_assoc in IH. cbn [app] in IH.
      exact IH.
    + assert (He : enlarge m (List.length pre) a = [])
        by (unfold enlarge; rewrite Hfv; reflexivity).
      assert (Hd : enlarged m a = a)
        by (unfold enlarged; rewrite Hfv; reflexivity).
      rewrite He, Hd.
      cbn [fold_left].
      specialize (IH (pre ++ [a])).
      rewrite length_app in IH. cbn [List.length] in IH.
      rewrite Nat.add_1_r in IH.
      rewrite <- !app_assoc in IH. cbn [app] in IH.
      exact IH.
Qed.

(** [split_mix] on a mix without a reference: every [FixedVolume] action is
    enlarged by the multiplier, the other actions and attributes are kept,
    and the fixed total volume is the total volume times the multiplier. *)
Lemma split_mix_result (prec : Z) (mix : Mix Action) (num_tubes : Z)
  (excess : ExcessArg) (e : Decimal) (tv : Volume) :
  convert_excess excess = Ok e ->
  total_volume mix = Ok tv ->
  reference mix = None ->
  actions mix <> [] ->
  split_mix prec mix num_tubes excess
  = Ok {| actions := map (enlarged (volume_multiplier_of prec num_tubes e))
                       (actions mix);
          mix_name := mix_name mix;
          test_tube_name := test_tube_name mix;
          fixed_total_volume :=
            dec_mul tv (volume_multiplier_of prec num_tubes e);
          fixed_concentration := fixed_concentration mix;
          buffer_name := buffer_name mix;
          reference := None;
          min_volume := min_volume mix;
          split_tubes := Some num_tubes |}.
Proof.
  intros He Htv Href Hne.
  unfold split_mix. rewrite He. cbn [bind]. rewrite Htv. cbn [bind].
  rewrite (split_loops_enlarge _ (actions mix) []).
  unfold Mix_init. rewrite Href. cbn [_maybesequence_action bind app].
  destruct (actions mix) as [|a t]; [contradiction|].
  reflexivity.
Qed.

End SplitMixFacts.

Lemma one_microlitre_mix_total (comps : list (Source PipetteAction))
  (set_name : option string) (compact : bool) (nm : string) (ftv : Volume) :
  exists tv, total_volume (one_microlitre_mix comps set_name compact nm ftv)
             = Ok tv.
Proof.
  unfold total_volume. cbn [fixed_total_volume one_microlitre_mix].
  destruct (isnan ftv); cbn; eexists; reflexivity.
Qed.

(** C6: [split_mix] with ten tubes and an excess of 0.05, on a mix whose
    only action transfers one microlitre per component, gives a mix whose
    action transfers exactly 10.5 microlitres per component.  The excess
    may be the decimal 0.05, under any context precision from three digits
    on, or the float 0.05, under three to eighteen digits. *)
Theorem split_mix_ten_tubes_excess_0_05 :
  forall (prec : Z) (excess : ExcessArg)
         (comps : list (Source PipetteAction)) (set_name : option string)
         (compact : bool) (nm : string) (ftv : Volume),
    excess_0_05_within prec excess ->
    exists large,
      split_mix prec (one_microlitre_mix comps set_name compact nm ftv) 10 excess
      = Ok large
      /\ actions large = [PFixedVolume comps (uL (21 # 2)) set_name compact]
      /\ forall mix_vol,
           each_volumes (PFixedVolume comps (uL (21 # 2)) set_name compact)
             mix_vol (actions large)
           = Ok (repeat (uL (21 # 2)) (List.length comps)).
Proof.
  intros prec excess comps set_name compact nm ftv Hex.
  destruct (one_microlitre_mix_total comps set_name compact nm ftv)
    as [tv Htv].
  assert (Hmult : exists e, convert_excess excess = Ok e
                            /\ volume_multiplier_of prec 10 e = DFin (21 # 2)).
  { destruct Hex as [[-> Hp]|[-> Hp]].
    - exists decimal_0_05. split; [reflexivity|].
      apply multiplier_decimal_0_05. exact Hp.
    - exists (Decimal_of_float float_0_05). split; [reflexivity|].
      apply multiplier_float_0_05. exact Hp. }
  destruct Hmult as (e & He & Hm).
  eexists. split.
  - apply (split_mix_result prec _ 10 excess e tv He Htv).
    + reflexivity.
    + discriminate.
  - rewrite Hm. split; reflexivity.
Qed.

Lemma split_mix_ten_tubes_excess_0_05_witness :
  excess_0_05_within 9 (ExFloat float_0_05)
  /\ exists large,
       split_mix 9
         (one_microlitre_mix [SComponent (plain "a"); SComponent (plain "b")]
            None true "m" NAN_VOL)
         10 (ExFloat float_0_05) = Ok large
       /\ each_volumes
            (PFixedVolume [SComponent (plain "a"); SComponent (plain "b")]
               (uL (21 # 2)) None true)
            NAN_VOL (actions large)
          = Ok [uL (21 # 2); uL (21 # 2)].
Proof.
  assert (Hin : excess_0_05_within 9 (ExFloat float_0_05)).
  { right. split; [reflexivity|lia]. }
  split; [exact Hin|].
  destruct (split_mix_ten_tubes_excess_0_05 9 (ExFloat float_0_05)
              [SComponent (plain "a"); SComponent (plain "b")]
              None true "m" NAN_VOL Hin)
    as (large & Hlarge & _ & Heach).
  exists large. split; [exact Hlarge|].
  exact (Heach NAN_VOL).
Defined.

(** The defect is systematic: whenever the template has no reference, has
    a total volume that can be computed and is defined, and the multiplier
    is defined, the derived mix has a fixed total volume, whether or not
    the template has one. *)
Lemma split_mix_always_fixes_total_volume {Action : Type}
  `{AbstractAction Action} (prec : Z) (mix : Mix Action) (num_tubes : Z)
  (excess : ExcessArg) (e : Decimal) (tv : Volume) :
  convert_excess excess = Ok e ->
  total_volume mix = Ok tv ->
  reference mix = None ->
  actions mix <> [] ->
  isnan tv = false ->
  isnan (volume_multiplier_of prec num_tubes e) = false ->
  exists large,
    split_mix prec mix num_tubes excess = Ok large
    /\ has_fixed_total_volume large = true.
Proof.
  intros He Htv Href Hne Hdef Hmult.
  eexists. split.
  - apply (split_mix_result prec mix num_tubes excess e tv); assumption.
  - unfold has_fixed_total_volume. cbn [fixed_total_volume].
    destruct tv; [discriminate|].
    destruct (volume_multiplier_of prec num_tubes e); [discriminate|].
    reflexivity.
Qed.

(** C7 fails on the code: a template without a fixed total volume gives a
    derived mix that has one, its total volume times the multiplier,
    because the attribute is the undefined sentinel and never [None]. *)
Theorem split_mix_fixes_total_volume_of_unfixed_template :
  let template :=
    one_microlitre_mix [SComponent (plain "a")] None true "m" NAN_VOL in
  has_fixed_total_volume template = false
  /\ exists large,
       split_mix 9 template 10 (ExDecimal decimal_0_05) = Ok large
       /\ split_mix 28 template 10 (ExDecimal decimal_0_05) = Ok large
       /\ has_fixed_total_volume large = true
       /\ fixed_total_volume large = uL (21 # 2).
Proof.
  split; [reflexivity|].
  eexists. split; [vm_compute; reflexivity|].
  split; [vm_compute; reflexivity|].
  split; reflexivity.
Qed.

(** ** Reconciling a strand leaves a mark on the receiver *)

Lemma remove_char_idem (c : ascii) (s : string) :
  remove_char c (remove_char c s) = remove_char c s.
Proof.
  induction s as [|a s IH]; simpl.
  - reflexivity.
  - destruct (Ascii.eqb a c) eqn:Hac; simpl.
    + exact IH.
    + rewrite Hac. f_equal. exact IH.
Qed.

Lemma remove_char_comm (c d : ascii) (s : string) :
  remove_char c (remove_char d s) = remove_char d (remove_char c s).
Proof.
  induction s as [|a s IH]; simpl.
  - reflexivity.
  - destruct (Ascii.eqb a d) eqn:Had, (Ascii.eqb a c) eqn:Hac; simpl;
      rewrite ?Had, ?Hac; try exact IH.
    f_equal. exact IH.
Qed.

Lemma strip_sequence_idem (s : string) :
  strip_sequence (strip_sequence s) = strip_sequence s.
Proof.
  unfold strip_sequence.
  rewrite (remove_char_comm " "%char "-"%char
             (remove_char " "%char s)).
  rewrite !remove_char_idem.
  reflexivity.
Qed.

Lemma reference_step_base (st : LoopState) (row : RefRow) :
  strand_base (loop_self (reference_step st row)) = strand_base (loop_self st).
Proof.
  destruct st as [[self mm] mt]. unfold reference_step, loop_self.
  cbn [fst].
  repeat match goal with
         | |- context [if ?b then _ else _] => destruct b
         end; try reflexivity.
  destruct (sequence self) as [ss|]; [|reflexivity].
  destruct (ref_sequence row) as [|y|]; try reflexivity.
  destruct (negb (String.eqb (strip_sequence ss) (strip_sequence y)));
    reflexivity.
Qed.

Lemma row_passes_reaches (st : LoopState) (row : RefRow) :
  row_passes (strand_base (loop_self st)) row = true ->
  forall ss y,
    sequence (loop_self st) = Some ss ->
    ref_sequence row = SeqStr y ->
    sequence (loop_self (reference_step st row)) = Some (strip_sequence ss).
Proof.
  destruct st as [[self mm] mt]. unfold row_passes, reference_step, loop_self.
  cbn [fst].
  intros Hpass ss y Hss Hy.
  apply andb_prop in Hpass. destruct Hpass as [Hpass Hwell].
  apply andb_prop in Hpass. destruct Hpass as [Hconc Hplate].
  apply negb_true_iff in Hconc, Hplate, Hwell.
  rewrite Hconc, Hplate, Hwell, Hss, Hy.
  destruct (negb (String.eqb (strip_sequence ss) (strip_sequence y)));
    reflexivity.
Qed.

Lemma reference_step_sequence (st : LoopState) (row : RefRow) (s : string) :
  sequence (loop_self st) = Some s
  \/ sequence (loop_self st) = Some (strip_sequence s) ->
  (sequence (loop_self (reference_step st row)) = Some s
   \/ sequence (loop_self (reference_step st row)) = Some (strip_sequence s))
  /\ (sequence (loop_self st) = Some (strip_sequence s) ->
      sequence (loop_self (reference_step st row)) = Some (strip_sequence s)).
Proof.
  destruct st as [[self mm] mt]. unfold reference_step, loop_self.
  cbn [fst].
  intro Hseq.
  repeat match goal with
         | |- context [if ?b then _ else _] => destruct b
         end; cbn [fst]; try (split; [exact Hseq|intro Hs; exact Hs]).
  destruct (sequence self) as [ss|] eqn:Hss;
    [|destruct Hseq; discriminate].
  destruct (ref_sequence row) as [|y|]; cbn [fst];
    try (rewrite Hss; split; [exact Hseq|intro Hs; exact Hs]).
  assert (Hnew : strip_sequence ss = strip_sequence s).
  { destruct Hseq as [Hs|Hs]; injection Hs as ->;
      [reflexivity|apply strip_sequence_idem]. }
  destruct (negb (String.eqb (strip_sequence ss) (strip_sequence y)));
    cbn [fst set_sequence sequence]; rewrite Hnew;
    (split; [right; reflexivity|intros _; reflexivity]).
Qed.

Lemma reference_loop_invariant (s : string) (base : Component)
  (rows : list RefRow) :
  forall st : LoopState,
    strand_base (loop_self st) = base ->
    sequence (loop_self st) = Some s
    \/ sequence (loop_self st) = Some (strip_sequence s) ->
    strand_base (loop_self (fold_left reference_step rows st)) = base
    /\ (sequence (loop_self st) = Some (strip_sequence s)
        \/ (exists row, In row rows /\ row_with_sequence base row) ->
        sequence (loop_self (fold_left reference_step rows st))
        = Some (strip_sequence s)).
Proof.
  induction rows as [|row rows IH]; intros st Hbase Hseq.
  - split; [exact Hbase|].
    intros [Hs|(row & [] & _)]. exact Hs.
  - cbn [fold_left].
    destruct (reference_step_sequence st row s Hseq) as [Hseq' Hkeep].
    assert (Hbase' : strand_base (loop_self (reference_step st row)) = base)
      by (rewrite reference_step_base; exact Hbase).
    destruct (IH (reference_step st row) Hbase' Hseq') as [Hb Hfinal].
    split; [exact Hb|].
    intros [Hs|(r & [<-|Hin] & Hrow)].
    + apply Hfinal. left. apply Hkeep. exact Hs.
    + apply Hfinal. left.
      destruct Hrow as (_ & Hpass & y & Hy).
      rewrite <- Hbase in Hpass.
      destruct Hseq as [Hs|Hs].
      * apply (row_passes_reaches st row Hpass s y Hs Hy).
      * rewrite (row_passes_reaches st row Hpass _ y Hs Hy).
        rewrite strip_sequence_idem. reflexivity.
    + apply Hfinal. right. exists r. split; assumption.
Qed.

(** C10, as amended: for a strand with a sequence,
    [with_reference(reference, inplace=False)] is not a pure transform.
    When a row of the reference that matches the strand has a string
    sequence, the sequence of the receiver is overwritten with the sequence
    from which the space character and the hyphen are removed, and no
    other whitespace, although what the call returns is a new strand; no
    other attribute of the receiver changes. *)
Theorem with_reference_strips_receiver_sequence :
  forall (self : Strand) (reference : Reference) (s : string),
    sequence self = Some s ->
    (exists row, In row reference
                 /\ row_with_sequence (strand_base self) row) ->
    strand_base (fst (Strand_with_reference self reference false))
    = strand_base self
    /\ sequence (fst (Strand_with_reference self reference false))
       = Some (strip_sequence s)
    /\ forall ret,
         snd (Strand_with_reference self reference false) = Ok ret ->
         exists new, ret = RetNew new.
Proof.
  intros self reference s Hs (row & Hin & Hrow).
  unfold Strand_with_reference.
  set (ref_comps := filter _ reference).
  assert (Hrc : In row ref_comps).
  { apply filter_In. split; [exact Hin|].
    destruct Hrow as (Hname & _). rewrite Hname. apply String.eqb_refl. }
  destruct (reference_loop_invariant s (strand_base self) ref_comps
              (self, [], []) eq_refl (or_introl Hs)) as [Hbase Hseq].
  assert (Hstrip : sequence (loop_self (fold_left reference_step ref_comps
                                          (self, [], [])))
                   = Some (strip_sequence s)).
  { apply Hseq. right. exists row. split; assumption. }
  destruct ref_comps as [|r0 rest] eqn:Hrows; [destruct Hrc|].
  destruct (fold_left reference_step (r0 :: rest) (self, [], []))
    as [[self' mm] mt].
  unfold loop_self in Hbase, Hstrip. cbn [fst] in Hbase, Hstrip.
  destruct ((List.length mt =? 0)%nat && (0 <? List.length mm)%nat).
  - cbn [fst snd]. split; [exact Hbase|]. split; [exact Hstrip|].
    intros ret Hret. discriminate Hret.
  - destruct mt as [|m mt'].
    + cbn [fst snd]. split; [exact Hbase|]. split; [exact Hstrip|].
      intros ret Hret. discriminate Hret.
    + destruct (merged_sequence (sequence self') (ref_sequence m))
        as [seq|e].
      * cbn [fst snd]. split; [exact Hbase|]. split; [exact Hstrip|].
        intros ret Hret. injection Hret as <-. eexists. reflexivity.
      * cbn [fst snd]. split; [exact Hbase|]. split; [exact Hstrip|].
        intros ret Hret. discriminate Hret.
Qed.

Lemma with_reference_strips_receiver_sequence_witness :
  sequence spaced_strand = Some "AC GT-A"
  /\ Strand_with_reference spaced_strand spaced_reference false
     = ({| strand_base := plain "s1"; sequence := Some "ACGTA" |},
        Ok (RetNew {| strand_base :=
                        {| name := "s1"; concentration := nM 1000;
                           plate := "P1"; well := Some "A1" |};
                      sequence := Some "ACGTA" |}))
  /\ sequence (fst (Strand_with_reference spaced_strand spaced_reference false))
     = Some (strip_sequence "AC GT-A").
Proof.
  split; [reflexivity|]. split; [reflexivity|].
  apply (with_reference_strips_receiver_sequence spaced_strand
           spaced_reference "AC GT-A" eq_refl).
  eexists. split; [left; reflexivity|].
  split; [reflexivity|]. split; [reflexivity|].
  eexists. reflexivity.
Defined.

(** C10, as stated, fails: the sequence is not stripped of whitespace and
    hyphens, a tabulator stays.  The strand has a sequence and a matching
    row of the reference has a string sequence, and the receiver is left
    with the sequence less its space only, which is not its whitespace-
    and hyphen-stripped form. *)
Lemma with_reference_keeps_a_tabulator :
  sequence tabbed_strand = Some tabbed_sequence
  /\ (exists row, In row tabbed_reference
                  /\ row_with_sequence (strand_base tabbed_strand) row)
  /\ sequence (fst (Strand_with_reference tabbed_strand tabbed_reference
                      false))
     = Some (String.append "ACG" (String tab "TA"))
  /\ strip_whitespace_and_hyphens tabbed_sequence = "ACGTA"
  /\ sequence (fst (Strand_with_reference tabbed_strand tabbed_reference
                      false))
     <> Some (strip_whitespace_and_hyphens tabbed_sequence).
Proof.
  split; [reflexivity|]. split.
  - eexists. split; [left; reflexivity|].
    split; [reflexivity|]. split; [reflexivity|].
    eexists. reflexivity.
  - split; [reflexivity|]. split; [reflexivity|].
    vm_compute. discriminate.
Qed.

(** * Further properties *)

(** ** Validation: order, silence and the empty table *)

Section ValidateOrder.

Context {Action : Type} `{AbstractAction Action}.

Lemma append_when_finding (cond : bool) (e : VolumeError)
  (error_list : list VolumeError) :
  append_when cond e error_list = error_list ++ finding_when cond e.
Proof.
  unfold append_when, finding_when.
  destruct cond; [reflexivity|]. rewrite app_nil_r. reflexivity.
Qed.

Lemma check_minimum_appends (self : Mix Action) (mls : list MixLine) :
  forall error_list,
    check_minimum self mls error_list
    = error_list ++ minimum_findings self mls.
Proof.
  induction mls as [|l mls IH]; intro acc; simpl.
  - rewrite app_nil_r. reflexivity.
  - unfold finding_when. destruct (below_minimum self l).
    + rewrite IH, <- app_assoc. reflexivity.
    + apply IH.
Qed.

Lemma intermediate_findings_appends (self : Mix Action)
  (zipped : list (Source Action * Volume)) :
  forall error_list,
    intermediate_findings self zipped error_list
    = error_list ++ flat_map (intermediate_finding self) zipped.
Proof.
  induction zipped as [|[c v] zipped IH]; intro acc; simpl.
  - rewrite app_nil_r. reflexivity.
  - unfold intermediate_finding at 1. cbn [fst snd].
    destruct c as [c|s|sub]; try apply IH.
    unfold finding_when.
    destruct (dec_ltb (fixed_total_volume sub) v).
    + rewrite IH, <- app_assoc. reflexivity.
    + apply IH.
Qed.

Lemma check_intermediates_appends (self : Mix Action) (tv : Volume) :
  total_volume self = Ok tv ->
  forall acts volss error_list,
    mapM (fun a => each_volumes a tv (actions self)) acts = Ok volss ->
    check_intermediates self acts error_list
    = Ok (error_list
          ++ flat_map (fun av => flat_map (intermediate_finding self)
                                   (combine (components (fst av)) (snd av)))
               (combine acts volss)).
Proof.
  intros Htv acts.
  induction acts as [|a acts IH]; intros volss acc Hm; simpl in Hm.
  - injection Hm as <-. simpl. rewrite app_nil_r. reflexivity.
  - destruct (each_volumes a tv (actions self)) as [vols|e] eqn:Hv;
      simpl in Hm; [|discriminate].
    destruct (mapM _ acts) as [rest|e] eqn:Hrest; simpl in Hm; [|discriminate].
    injection Hm as <-.
    cbn [check_intermediates]. rewrite Htv. cbn [bind]. rewrite Hv. cbn [bind].
    rewrite (IH rest _ eq_refl).
    rewrite intermediate_findings_appends.
    cbn [combine flat_map fst snd]. rewrite <- app_assoc. reflexivity.
Qed.

End ValidateOrder.

Lemma validate_unfolds {Action : Type} `{AbstractAction Action}
  (self : Mix Action) (tablefmt : option string)
  (given : option (list MixLine)) (raise_errors : bool) (mls : list MixLine)
  (tv : Volume) (final : list string * Volume) (volss : list (list Volume)) :
  resolved_mixlines self tablefmt given = Ok mls ->
  total_volume self = Ok tv ->
  last_item (ntx_of mls) = Ok final ->
  all_each_volumes self tv = Ok volss ->
  validate self tablefmt given raise_errors
  = Ok (findings_in_order self mls tv final volss).
Proof.
  intros Hmls Htv Hfinal Hvols.
  unfold validate.
  rewrite Hmls. cbn [bind]. rewrite Htv. cbn [bind].
  rewrite Hfinal. cbn [bind].
  rewrite (check_intermediates_appends self tv Htv _ volss _ Hvols).
  rewrite !append_when_finding, check_minimum_appends.
  unfold findings_in_order, intermediate_findings_of, nan_vols_of,
    high_vols_of, neg_vols_of.
  cbn [app]. rewrite <- !app_assoc. reflexivity.
Qed.

(** X1: when the lines, the total volume and the volumes of every action
    can be computed and a line carries a volume, validation returns the
    findings of its seven checks in the order of the checks, each check
    contributing independently of the others. *)
Theorem validate_findings_in_order :
  forall (Action : Type) (I : AbstractAction Action) (self : Mix Action)
         (tablefmt : option string) (given : option (list MixLine))
         (raise_errors : bool) (mls : list MixLine) (tv : Volume)
         (final : list string * Volume) (volss : list (list Volume)),
    resolved_mixlines self tablefmt given = Ok mls ->
    total_volume self = Ok tv ->
    last_item (ntx_of mls) = Ok final ->
    all_each_volumes self tv = Ok volss ->
    validate self tablefmt given raise_errors
    = Ok (findings_in_order self mls tv final volss).
Proof.
  intros Action I self tablefmt given raise_errors mls tv final volss.
  apply validate_unfolds.
Qed.

Lemma validate_findings_in_order_witness :
  validate outer_mix (Some "pipe") None false
  = Ok [LowerThanMinimum default_min_volume "outer" (uL (1 # 10)) ["inner"];
        IntermediateTooSmall "inner" (uL (1 # 10)) "outer" (uL (1 # 20))].
Proof.
  rewrite (validate_findings_in_order PipetteAction _ outer_mix
             (Some "pipe") None false
             [ {| names := ["inner"];
                  total_tx_vol := Some (uL (1 # 10));
                  number := 1;
                  each_tx_vol := uL (1 # 10);
                  line_plate := "" |};
               MixLine_init ["Buffer"] (Some (uL (99 # 10))) ]
             (uL 10) (["Buffer"], uL (99 # 10)) [[uL (1 # 10)]]);
    reflexivity.
Defined.

Lemma filter_nil_none {A : Type} (p : A -> bool) (l : list A) :
  filter p l = [] -> forall x, In x l -> p x = false.
Proof.
  intros Hf x Hx.
  destruct (p x) eqn:Hp; [|reflexivity].
  assert (Hin : In x (filter p l)) by (apply filter_In; split; assumption).
  rewrite Hf in Hin. destruct Hin.
Qed.

Lemma finding_when_nil (cond : bool) (e : VolumeError) :
  finding_when cond e = [] -> cond = false.
Proof. destruct cond; [discriminate|reflexivity]. Qed.

Lemma flat_map_nil {A B : Type} (f : A -> list B) (l : list A) :
  flat_map f l = [] -> forall x, In x l -> f x = [].
Proof.
  induction l as [|a l IH]; intros Hf x Hx; [destruct Hx|].
  simpl in Hf. apply app_eq_nil in Hf. destruct Hf as [Ha Hl].
  destruct Hx as [<-|Hx]; [exact Ha|apply IH; assumption].
Qed.

Lemma nonempty_false {A : Type} (l : list A) : nonempty l = false -> l = [].
Proof. destruct l; [reflexivity|discriminate]. Qed.

Lemma not_below (a b : Decimal) :
  isnan a = false -> isnan b = false -> dec_ltb a b = false -> at_least a b.
Proof.
  destruct a as [|x], b as [|y]; try discriminate. intros _ _.
  cbn [dec_ltb at_least]. intro H. apply negb_false_iff in H.
  apply Qle_bool_iff. exact H.
Qed.

(** X2: what an empty list of findings guarantees, and no more.  When
    validation returns no finding, the mix has a fixed total volume or no
    fixed-concentration action; every line volume is defined and not
    negative, and not above the total volume when that is defined; no line
    has a defined, nonzero volume per transfer below the minimum volume;
    and every intermediate mix that has a fixed total volume holds at
    least each defined volume drawn from it.  An intermediate mix without
    a fixed total volume is compared through its undefined sentinel and
    so is not covered. *)
Theorem validate_silence_is_sound :
  forall (Action : Type) (I : AbstractAction Action) (self : Mix Action)
         (tablefmt : option string) (given : option (list MixLine))
         (raise_errors : bool) (mls : list MixLine) (tv : Volume)
         (volss : list (list Volume)),
    resolved_mixlines self tablefmt given = Ok mls ->
    total_volume self = Ok tv ->
    all_each_volumes self tv = Ok volss ->
    validate self tablefmt given raise_errors = Ok [] ->
    negb (has_fixed_total_volume self) && has_fixed_concentration_action self
    = false
    /\ (forall nx, In nx (ntx_of mls) ->
                   isnan (snd nx) = false
                   /\ at_least (snd nx) ZERO_VOL
                   /\ (isnan tv = false -> at_least tv (snd nx)))
    /\ (forall l, In l mls -> below_minimum self l = false)
    /\ (forall a vols sub v,
          In (a, vols) (combine (actions self) volss) ->
          In (SMix sub, v) (combine (components a) vols) ->
          isnan (fixed_total_volume sub) = false ->
          isnan v = false ->
          at_least (fixed_total_volume sub) v).
Proof.
  intros Action I self tablefmt given raise_errors mls tv volss
         Hmls Htv Hvols Hval.
  destruct (last_item (ntx_of mls)) as [final|e] eqn:Hfinal.
  2:{ unfold validate in Hval. rewrite Hmls in Hval. cbn [bind] in Hval.
      rewrite Htv in Hval. cbn [bind] in Hval.
      rewrite Hfinal in Hval. discriminate Hval. }
  rewrite (validate_unfolds self tablefmt given raise_errors mls tv final
             volss Hmls Htv Hfinal Hvols) in Hval.
  injection Hval as Hall.
  unfold findings_in_order in Hall.
  repeat match type of Hall with
         | _ ++ _ = [] =>
             apply app_eq_nil in Hall;
             let Hhead := fresh "Hhead" in
             destruct Hall as [Hhead Hall]
         end.
  apply finding_when_nil in Hhead, Hhead0, Hhead1, Hhead3, Hhead4.
  apply nonempty_false in Hhead0, Hhead1, Hhead4.
  split; [exact Hhead|]. split; [|split].
  - intros nx Hnx.
    assert (Hdef : isnan (snd nx) = false).
    { unfold nan_vols_of in Hhead0. apply map_eq_nil in Hhead0.
      apply (filter_nil_none _ _ Hhead0 nx Hnx). }
    split; [exact Hdef|]. split.
    + apply not_below; [exact Hdef|reflexivity|].
      apply (filter_nil_none _ _ Hhead4 nx Hnx).
    + intro Htvd. apply not_below; [exact Htvd|exact Hdef|].
      apply (filter_nil_none _ _ Hhead1 nx Hnx).
  - intros l Hl.
    pose proof (flat_map_nil _ _ Hhead2 l Hl) as Hlow.
    apply finding_when_nil in Hlow. exact Hlow.
  - intros a vols sub v Hav Hcv Hsub Hv.
    pose proof (flat_map_nil _ _ Hall (a, vols) Hav) as Ha.
    cbn [fst snd] in Ha.
    pose proof (flat_map_nil _ _ Ha (SMix sub, v) Hcv) as Hc.
    unfold intermediate_finding in Hc. cbn [fst snd] in Hc.
    apply finding_when_nil in Hc.
    apply not_below; assumption.
Qed.

Lemma validate_silence_is_sound_witness :
  validate (two_transfers (plain "a") (plain "b") "m" (uL 20))
    (Some "pipe") None false = Ok []
  /\ forall nx,
       In nx (ntx_of
                [ {| names := ["a"]; total_tx_vol := Some (uL 5); number := 1;
                     each_tx_vol := uL 5; line_plate := "" |};
                  {| names := ["b"]; total_tx_vol := Some (uL 10);
                     number := 1; each_tx_vol := uL 10; line_plate := "" |};
                  MixLine_init ["Buffer"] (Some (uL 5)) ]) ->
       isnan (snd nx) = false
       /\ at_least (snd nx) ZERO_VOL
       /\ (isnan (uL 20) = false -> at_least (uL 20) (snd nx)).
Proof.
  split; [reflexivity|].
  apply (validate_silence_is_sound PipetteAction _
           (two_transfers (plain "a") (plain "b") "m" (uL 20))
           (Some "pipe") None false _ (uL 20) [[uL 5]; [uL 10]]);
    reflexivity.
Defined.

(** X3: given lines none of which carries a volume, an empty list of lines
    in particular, validation raises IndexError when it reaches the check
    of the last line, provided the total volume can be computed. *)
Theorem validate_without_volumes_raises :
  forall (Action : Type) (I : AbstractAction Action) (self : Mix Action)
         (tablefmt : option string) (given : option (list MixLine))
         (raise_errors : bool) (mls : list MixLine) (tv : Volume),
    resolved_mixlines self tablefmt given = Ok mls ->
    (forall l, In l mls -> total_tx_vol l = None) ->
    total_volume self = Ok tv ->
    validate self tablefmt given raise_errors = Raise IndexError.
Proof.
  intros Action I self tablefmt given raise_errors mls tv Hmls Hnone Htv.
  assert (Hntx : ntx_of mls = []).
  { unfold ntx_of. clear Hmls.
    induction mls as [|l mls IH]; [reflexivity|].
    simpl. rewrite (Hnone l (or_introl eq_refl)). simpl.
    apply IH. intros l' Hl'. apply Hnone. right. exact Hl'. }
  unfold validate.
  rewrite Hmls. cbn [bind]. rewrite Htv. cbn [bind].
  rewrite Hntx. reflexivity.
Qed.

Lemma validate_without_volumes_raises_witness :
  validate (two_transfers (plain "a") (plain "b") "m" (uL 20))
    None (Some []) false = Raise IndexError.
Proof.
  apply (validate_without_volumes_raises PipetteAction _
           (two_transfers (plain "a") (plain "b") "m" (uL 20))
           None (Some []) false [] (uL 20)).
  - reflexivity.
  - intros l [].
  - reflexivity.
Defined.

Lemma list_string_eqb_single (a b : string) :
  list_string_eqb [a] [b] = String.eqb a b.
Proof.
  unfold list_string_eqb.
  destruct (list_eq_dec string_dec [a] [b]) as [Heq|Hne].
  - injection Heq as ->. symmetry. apply String.eqb_refl.
  - destruct (String.eqb_spec a b) as [->|_]; [|reflexivity].
    exfalso. apply Hne. reflexivity.
Qed.

Lemma last_item_snoc {A : Type} (l : list A) (x : A) :
  last_item (l ++ [x]) = Ok x.
Proof. unfold last_item. rewrite rev_app_distr. reflexivity. Qed.

(** X4: validation in a table format builds the buffer line under the
    literal name "Buffer" and recognises it by the buffer name of the mix.
    A buffer volume that is defined, not zero and below the minimum volume
    is therefore reported as a negative buffer volume only for a mix whose
    buffer name is "Buffer"; under another buffer name it is reported as an
    ordinary transfer below the minimum, of the component "Buffer". *)
Theorem validate_buffer_line_by_name :
  forall (Action : Type) (I : AbstractAction Action) (self : Mix Action)
         (fmt : string) (raise_errors : bool) (als : list MixLine)
         (bv : Volume) (volss : list (list Volume)),
    has_fixed_total_volume self = true ->
    action_mixlines self fmt (actions self) [] = Ok als ->
    buffer_volume self = Ok bv ->
    all_each_volumes self (fixed_total_volume self) = Ok volss ->
    isnan bv = false ->
    dec_neb bv ZERO_VOL = true ->
    dec_ltb bv (min_volume self) = true ->
    exists errs,
      validate self (Some fmt) None raise_errors = Ok errs
      /\ In (if String.eqb (buffer_name self) "Buffer"
             then NegativeBuffer (mix_name self)
             else LowerThanMinimum (min_volume self) (mix_name self) bv
                    ["Buffer"]) errs.
Proof.
  intros Action I self fmt raise_errors als bv volss
         Hfixed Hals Hbv Hvols Hnan Hnz Hlow.
  assert (Htv : total_volume self = Ok (fixed_total_volume self)).
  { unfold total_volume. unfold has_fixed_total_volume in Hfixed.
    rewrite Hfixed. reflexivity. }
  assert (Hmls : resolved_mixlines self (Some fmt) None
                 = Ok (als ++ [MixLine_init ["Buffer"] (Some bv)])).
  { unfold resolved_mixlines, mixlines.
    rewrite Hals. cbn [bind]. rewrite Hfixed, Hbv. reflexivity. }
  assert (Hfinal : last_item (ntx_of (als ++ [MixLine_init ["Buffer"] (Some bv)]))
                   = Ok (["Buffer"], bv)).
  { unfold ntx_of. rewrite flat_map_app. cbn [flat_map MixLine_init
      total_tx_vol names app]. apply last_item_snoc. }
  eexists. split.
  - apply (validate_unfolds self (Some fmt) None raise_errors _ _ _ volss
             Hmls Htv Hfinal Hvols).
  - unfold findings_in_order.
    do 3 (apply in_or_app; right). apply in_or_app. left.
    unfold minimum_findings. apply in_flat_map.
    exists (MixLine_init ["Buffer"] (Some bv)). split.
    + apply in_or_app. right. left. reflexivity.
    + assert (Hb : below_minimum self (MixLine_init ["Buffer"] (Some bv))
                   = true).
      { unfold below_minimum. cbn [MixLine_init each_tx_vol
          _parse_vol_optional]. rewrite Hnan, Hnz, Hlow. reflexivity. }
      rewrite Hb. unfold finding_when, minimum_finding.
      cbn [MixLine_init names each_tx_vol _parse_vol_optional].
      rewrite list_string_eqb_single.
      rewrite (String.eqb_sym "Buffer" (buffer_name self)).
      left. reflexivity.
Qed.

Lemma validate_buffer_line_by_name_witness :
  buffer_volume watered_mix = Ok (uL (-3))
  /\ exists errs,
       validate watered_mix (Some "pipe") None false = Ok errs
       /\ In (LowerThanMinimum default_min_volume "m" (uL (-3)) ["Buffer"])
            errs.
Proof.
  split; [reflexivity|].
  apply (validate_buffer_line_by_name PipetteAction _ watered_mix "pipe"
           false
           [ {| names := ["a"]; total_tx_vol := Some (uL 5); number := 1;
                each_tx_vol := uL 5; line_plate := "" |};
             {| names := ["b"]; total_tx_vol := Some (uL 10); number := 1;
                each_tx_vol := uL 10; line_plate := "" |} ]
           (uL (-3)) [[uL 5]; [uL 10]]); reflexivity.
Defined.

(** ** Total volume and buffer volume *)

Lemma mapM_ext_in {A B : Type} (f g : A -> result B) (l : list A) :
  (forall a, In a l -> f a = g a) -> mapM f l = mapM g l.
Proof.
  induction l as [|a l IH]; intro Hfg; [reflexivity|].
  simpl. rewrite (Hfg a (or_introl eq_refl)).
  rewrite IH; [reflexivity|].
  intros a' Ha'. apply Hfg. right. exact Ha'.
Qed.

Lemma dec_sub_self (v : Decimal) :
  isnan v = false -> dec_sub v v = ZERO_VOL.
Proof.
  destruct v as [|q]; [discriminate|]. intros _.
  unfold dec_sub, dec_lift2, ZERO_VOL, uL. f_equal.
  apply Qred_complete. unfold Qminus. apply Qplus_opp_r.
Qed.

(** X5: a mix without a fixed total volume, all of whose actions add a
    volume that does not depend on the mix volume, needs no buffer: its
    buffer volume is zero when its total volume is defined, and undefined
    when that is undefined. *)
Theorem unfixed_mix_needs_no_buffer :
  forall (Action : Type) (I : AbstractAction Action) (self : Mix Action)
         (tv : Volume),
    has_fixed_total_volume self = false ->
    (forall a, In a (actions self) ->
               tx_volume a tv (actions self)
               = tx_volume a NAN_VOL (actions self)) ->
    total_volume self = Ok tv ->
    buffer_volume self = Ok (if isnan tv then NAN_VOL else ZERO_VOL).
Proof.
  intros Action I self tv Hunfixed Hindep Htv.
  unfold has_fixed_total_volume in Hunfixed.
  apply negb_false_iff in Hunfixed.
  assert (Hftv : fixed_total_volume self = DNaN)
    by (destruct (fixed_total_volume self); [reflexivity|discriminate]).
  unfold buffer_volume.
  rewrite (mapM_ext_in
             (fun c => tv0 <- total_volume self ;;
                       tx_volume c tv0 (actions self))
             (fun c => tx_volume c NAN_VOL (actions self))).
  2:{ intros a Ha. rewrite Htv. cbn [bind]. apply Hindep. exact Ha. }
  rewrite Htv.
  unfold total_volume in Htv. rewrite Hunfixed, Hftv in Htv.
  cbn [negb quantity_or quantity_truthy] in Htv.
  unfold NAN_VOL in Htv |- * at 1.
  destruct (mapM (fun c => tx_volume c DNaN (actions self)) (actions self))
    as [vols|e]; cbn [bind] in Htv |- *; [|discriminate Htv].
  injection Htv as Htv.
  change (dec_sum (uL 0) vols) with (dec_sum (dec_of_Z 0) vols) in Htv.
  rewrite Htv.
  destruct (isnan tv) eqn:Hnan.
  - destruct tv; [reflexivity|discriminate].
  - rewrite (dec_sub_self tv Hnan). reflexivity.
Qed.

Lemma unfixed_mix_needs_no_buffer_witness :
  total_volume unfixed_two_transfers = Ok (uL 15)
  /\ buffer_volume unfixed_two_transfers = Ok ZERO_VOL.
Proof.
  split; [reflexivity|].
  apply (unfixed_mix_needs_no_buffer PipetteAction _ unfixed_two_transfers
           (uL 15)).
  - reflexivity.
  - intros a Ha. destruct a. reflexivity.
  - reflexivity.
Defined.

(** ** Split mixes: what is kept and how the buffer scales *)

(** X6: when [split_mix] returns for a template without a reference, the
    derived mix has as many actions as the template; at every position a
    fixed-volume action is replaced by a fixed-volume action on the same
    components with the volume times the multiplier, and any other action
    is the template's own; name, test tube name, fixed concentration,
    buffer name and minimum volume are the template's, and the tube count
    is recorded. *)
Theorem split_mix_keeps_the_rest :
  forall (Action : Type) (I : AbstractAction Action) (prec : Z)
         (mix : Mix Action) (num_tubes : Z) (excess : ExcessArg)
         (large : Mix Action),
    split_mix prec mix num_tubes excess = Ok large ->
    reference mix = None ->
    exists e,
      convert_excess excess = Ok e
      /\ List.length (actions large) = List.length (actions mix)
      /\ (forall i a,
            nth_error (actions mix) i = Some a ->
            nth_error (actions large) i
            = Some (match as_FixedVolume a with
                    | Some fv =>
                        FixedVolume (fv_components fv)
                          (dec_mul (fv_fixed_volume fv)
                             (volume_multiplier_of prec num_tubes e))
                          (fv_set_name fv) (fv_compact_display fv)
                    | None => a
                    end))
      /\ mix_name large = mix_name mix
      /\ test_tube_name large = test_tube_name mix
      /\ fixed_concentration large = fixed_concentration mix
      /\ buffer_name large = buffer_name mix
      /\ min_volume large = min_volume mix
      /\ split_tubes large = Some num_tubes.
Proof.
  intros Action I prec mix num_tubes excess large Hsplit Href.
  unfold split_mix in Hsplit.
  destruct (convert_excess excess) as [e|err]; cbn [bind] in Hsplit;
    [|discriminate].
  destruct (total_volume mix) as [tv|err]; cbn [bind] in Hsplit;
    [|discriminate].
  rewrite (split_loops_enlarge _ (actions mix) []) in Hsplit.
  unfold Mix_init in Hsplit. rewrite Href in Hsplit.
  cbn [_maybesequence_action bind app] in Hsplit.
  destruct (List.length (map (enlarged (volume_multiplier_of prec num_tubes e))
                           (actions mix)) =? 0)%nat; [discriminate|].
  injection Hsplit as <-. cbn.
  exists e. split; [reflexivity|].
  split; [apply length_map|].
  split.
  - intros i a Hi. rewrite nth_error_map, Hi. reflexivity.
  - repeat split; reflexivity.
Qed.

Lemma split_mix_keeps_the_rest_witness :
  exists large,
    split_mix 9 (two_transfers (plain "a") (plain "b") "m" (uL 20)) 4
      (ExInt 0) = Ok large
    /\ nth_error (actions large) 1
       = Some (PFixedVolume [SComponent (plain "b")] (uL 40) None true)
    /\ buffer_name large = "Buffer".
Proof.
  destruct (split_mix 9 (two_transfers (plain "a") (plain "b") "m" (uL 20)) 4
              (ExInt 0)) as [large|err] eqn:Hsplit; [|discriminate Hsplit].
  destruct (split_mix_keeps_the_rest PipetteAction _ 9 _ 4 (ExInt 0) large
              Hsplit eq_refl)
    as (e & He & _ & Hnth & _ & _ & _ & Hbuf & _).
  injection He as <-.
  exists large. split; [reflexivity|]. split.
  - apply (Hnth 1%nat (PFixedVolume [SComponent (plain "b")] (uL 10) None true)).
    reflexivity.
  - exact Hbuf.
Defined.

(** ** Acoustic actions: rounding, the droplet check and destinations *)

Lemma round_half_even_close_Z (n : Z) (d : positive) :
  2 * Z.abs (round_half_even (n # d) * Zpos d - n) <= Zpos d.
Proof.
  unfold round_half_even. cbn [Qnum Qden].
  pose proof (Z.div_mod n (Zpos d) ltac:(discriminate)) as Hdiv.
  pose proof (Z.mod_pos_bound n (Zpos d) ltac:(reflexivity)) as Hmod.
  set (f := n / Zpos d) in *. set (r := n mod Zpos d) in *.
  destruct (Z.ltb_spec (2 * r) (Zpos d)) as [Hlt|Hge].
  - replace (f * Zpos d - n) with (- r) by lia. lia.
  - destruct (Z.ltb_spec (Zpos d) (2 * r)) as [Hgt|Hle].
    + replace ((f + 1) * Zpos d - n) with (Zpos d - r) by lia. lia.
    + destruct (Z.even f).
      * replace (f * Zpos d - n) with (- r) by lia. lia.
      * replace ((f + 1) * Zpos d - n) with (Zpos d - r) by lia. lia.
Qed.

Lemma round_half_even_close (q : Q) :
  (Qabs (inject_Z (round_half_even q) - q) <= 1 # 2)%Q.
Proof.
  destruct q as [n d].
  pose proof (round_half_even_close_Z n d) as Hz.
  set (z := round_half_even (n # d)) in *.
  unfold Qle, Qabs, Qminus, Qplus, Qopp, inject_Z. cbn [Qnum Qden].
  rewrite Pos2Z.inj_mul.
  replace (z * Zpos d + - n * 1) with (z * Zpos d - n) by ring.
  change (Zpos 1 * Zpos d) with (Zpos d).
  lia.
Qed.

(** Rounding to droplets moves a volume by at most half a droplet. *)
Lemma quantize_close (v y w : Q) :
  quantize (DFin v) (DFin y) = Ok (DFin w) ->
  ~ (y == 0)%Q /\ (Qabs (w - v) <= Qabs y * (1 # 2))%Q.
Proof.
  unfold quantize, dec_div.
  destruct (Qeq_bool y 0) eqn:Hy; [discriminate|].
  assert (Hy0 : ~ (y == 0)%Q).
  { intro H0. apply Qeq_bool_iff in H0. congruence. }
  cbn [py_round bind]. intro Hq.
  cbv [int_mul dec_mul dec_lift2 dec_of_Z] in Hq. injection Hq as <-.
  split; [exact Hy0|].
  set (n := round_half_even (Qred (v / y))).
  assert (Heq : (Qred (inject_Z n * y) - v
                 == y * (inject_Z n - Qred (v / y)))%Q).
  { rewrite !Qred_correct. field. exact Hy0. }
  apply Qle_trans with (Qabs (y * (inject_Z n - Qred (v / y)))).
  - apply Qle_lteq. right. apply Qabs_wd. exact Heq.
  - apply Qle_trans with (Qabs y * Qabs (inject_Z n - Qred (v / y)))%Q.
    + apply Qle_lteq. right. apply Qabs_Qmult.
    + apply Qle_trans with (Qabs (inject_Z n - Qred (v / y)) * Qabs y)%Q;
        [apply Qle_lteq; right; apply Qmult_comm|].
      apply Qle_trans with ((1 # 2) * Qabs y)%Q;
        [|apply Qle_lteq; right; apply Qmult_comm].
      apply Qmult_le_compat_r; [|apply Qabs_nonneg].
      apply round_half_even_close.
Qed.

Lemma quantize_defined (v droplet w : Volume) :
  quantize v droplet = Ok w ->
  exists vq dq wq, v = DFin vq /\ droplet = DFin dq /\ w = DFin wq.
Proof.
  unfold quantize. intro Hq.
  destruct v as [|vq]; [discriminate|].
  destruct droplet as [|dq]; [discriminate|].
  destruct (py_round (dec_div (DFin vq) (DFin dq))) as [n|e];
    cbn [bind] in Hq; [|discriminate].
  injection Hq as <-.
  exists vq, dq. eexists. repeat split; reflexivity.
Qed.

(** X8: when the acoustic fill-to-volume action returns, it returns one
    volume; the volume it was asked to fill (the target, or the mix volume
    when there is no target, less what the other actions add) and the
    droplet volume are defined, the droplet volume is not zero, and the
    volume returned is within half a droplet of the volume asked for. *)
Theorem fill_to_volume_within_half_droplet :
  forall (Comp Sibling : Type)
         (sibling_tx :
            Sibling -> Volume -> list (ActionRef Sibling) -> result Volume)
         (self : EchoFillToVolume Comp) (mix_vol : Volume)
         (acts : list (ActionRef Sibling)) (vols : list Volume),
    EchoFillToVolume_each_volumes Comp Sibling sibling_tx self mix_vol acts
    = Ok vols ->
    exists txs w wanted d,
      mapM (fun a => sibling_tx a mix_vol acts) (others Sibling acts) = Ok txs
      /\ vols = [DFin w]
      /\ dec_sub (if isnan (eftv_target_total_volume Comp self)
                  then mix_vol else eftv_target_total_volume Comp self)
           (dec_sum (dec_of_Z 0) txs) = DFin wanted
      /\ eftv_droplet_volume Comp self = DFin d
      /\ ~ (d == 0)%Q
      /\ (Qabs (w - wanted) <= Qabs d * (1 # 2))%Q.
Proof.
  intros Comp Sibling sibling_tx self mix_vol acts vols Hev.
  unfold EchoFillToVolume_each_volumes in Hev.
  destruct (mapM _ (others Sibling acts)) as [txs|e]; cbn [bind] in Hev;
    [|discriminate].
  destruct (1 <? List.length (eftv_components Comp self))%nat;
    [discriminate|].
  destruct (quantize _ _) as [w|e] eqn:Hq; cbn [bind] in Hev; [|discriminate].
  injection Hev as <-.
  destruct (quantize_defined _ _ _ Hq) as (vq & dq & wq & Hv & Hd & ->).
  rewrite Hv, Hd in Hq.
  destruct (quantize_close vq dq wq Hq) as [Hnz Hclose].
  exists txs, wq, vq, dq. repeat split; assumption.
Qed.

Lemma fill_to_volume_within_half_droplet_witness :
  exists w,
    plain_echo_each_volumes
      (AFillToVolume _ {| eftv_components := [plain "b"];
                          eftv_target_total_volume := NAN_VOL;
                          eftv_droplet_volume := DEFAULT_DROPLET_VOL |})
      (uL 1) [Other _ (Ok (nL 110)); Self _] = Ok [DFin w]
    /\ (Qabs (w - (89 # 100)) <= (1 # 80))%Q.
Proof.
  destruct (fill_to_volume_within_half_droplet Component (result Volume)
              (fun s _ _ => s)
              {| eftv_components := [plain "b"];
                 eftv_target_total_volume := NAN_VOL;
                 eftv_droplet_volume := DEFAULT_DROPLET_VOL |}
              (uL 1) [Other _ (Ok (nL 110)); Self _] [uL (9 # 10)] eq_refl)
    as (txs & w & wanted & d & Htxs & Hw & Hwanted & Hd & _ & Hclose).
  injection Htxs as <-. injection Hw as <-.
  injection Hwanted as <-. injection Hd as <-.
  exists (9 # 10)%Q. split; [reflexivity|exact Hclose].
Defined.

(** X9: with an undefined mix volume and no target of its own, the
    acoustic fill-to-volume action does not hand the undefined sentinel on:
    [each_volumes] raises. *)
Theorem fill_to_volume_raises_when_undefined :
  forall (Comp Sibling : Type)
         (sibling_tx :
            Sibling -> Volume -> list (ActionRef Sibling) -> result Volume)
         (self : EchoFillToVolume Comp) (mix_vol : Volume)
         (acts : list (ActionRef Sibling)),
    isnan (eftv_target_total_volume Comp self) = true ->
    isnan mix_vol = true ->
    exists e,
      EchoFillToVolume_each_volumes Comp Sibling sibling_tx self mix_vol acts
      = Raise e.
Proof.
  intros Comp Sibling sibling_tx self mix_vol acts Htarget Hmix.
  unfold EchoFillToVolume_each_volumes.
  destruct (mapM _ (others Sibling acts)) as [txs|e]; cbn [bind];
    [|eexists; reflexivity].
  destruct (1 <? List.length (eftv_components Comp self))%nat;
    [eexists; reflexivity|].
  rewrite Htarget.
  destruct mix_vol; [|discriminate].
  eexists. reflexivity.
Qed.

Lemma fill_to_volume_raises_when_undefined_witness :
  plain_echo_each_volumes
    (AFillToVolume _ {| eftv_components := [plain "b"];
                        eftv_target_total_volume := NAN_VOL;
                        eftv_droplet_volume := DEFAULT_DROPLET_VOL |})
    NAN_VOL [Self _] = Raise ValueError.
Proof.
  destruct (fill_to_volume_raises_when_undefined Component (result Volume)
              (fun s _ _ => s)
              {| eftv_components := [plain "b"];
                 eftv_target_total_volume := NAN_VOL;
                 eftv_droplet_volume := DEFAULT_DROPLET_VOL |}
              NAN_VOL [Self _] eq_refl eq_refl) as [e He].
  reflexivity.
Defined.



Lemma Qtrunc_of_integer (q : Q) (n : Z) :
  (q == inject_Z n)%Q -> Qtrunc q = n.
Proof.
  unfold Qeq, Qtrunc, inject_Z. cbn [Qnum Qden]. intro Hq.
  rewrite Z.mul_1_r in Hq. rewrite Hq.
  apply Z.quot_mul. discriminate.
Qed.

Lemma check_volume_iff (fv dv : Volume) :
  usable dv ->
  check_volume fv dv = Ok tt <-> is_multiple_of fv dv.
Proof.
  destruct dv as [|y]; [intros []|]. cbn [usable]. intro Hy.
  destruct fv as [|x].
  - cbn. split; [discriminate|intros []].
  - unfold check_volume, m_as_nL, dec_mul, dec_lift2, dec_of_Z, dec_rem.
    set (X := Qred (x * inject_Z 1000)).
    set (Y := Qred (y * inject_Z 1000)).
    assert (HX : (X == x * inject_Z 1000)%Q) by apply Qred_correct.
    assert (HY : (Y == y * inject_Z 1000)%Q) by apply Qred_correct.
    assert (HY0 : ~ (Y == 0)%Q).
    { rewrite HY. intro H0. apply Hy.
      apply (Qmult_integral_l (inject_Z 1000) y); [discriminate|].
      rewrite Qmult_comm. exact H0. }
    destruct (Qeq_bool Y 0) eqn:HYb.
    { exfalso. apply HY0. apply Qeq_bool_iff. exact HYb. }
    set (t := Qtrunc (X / Y)).
    unfold dec_neb, dec_eqb, is_multiple_of.
    split.
    + intro Hok.
      destruct (Qeq_bool (Qred (X - Y * inject_Z t)) (inject_Z 0)) eqn:Hr;
        [|discriminate Hok].
      apply Qeq_bool_iff in Hr. rewrite Qred_correct in Hr.
      exists t.
      assert (H1000 : (x * inject_Z 1000 == inject_Z t * y * inject_Z 1000)%Q).
      { rewrite <- HX.
        assert (HXY : (X == Y * inject_Z t)%Q).
        { rewrite <- (Qplus_0_r (Y * inject_Z t)).
          change 0%Q with (inject_Z 0). rewrite <- Hr. ring. }
        rewrite HXY, HY. ring. }
      apply (Qmult_inj_r _ _ (inject_Z 1000)); [discriminate|exact H1000].
    + intros [n Hn].
      assert (Hq : (X / Y == inject_Z n)%Q).
      { rewrite HX, HY, Hn. field. exact Hy. }
      unfold t. rewrite (Qtrunc_of_integer _ _ Hq).
      assert (Hr : (Qred (X - Y * inject_Z n) == inject_Z 0)%Q).
      { rewrite Qred_correct, HX, HY, Hn. change (inject_Z 0) with 0%Q. ring. }
      apply Qeq_bool_iff in Hr. rewrite Hr. reflexivity.
Qed.

(** X11: the droplet check of both classes accepts a fixed volume exactly
    when it is an integer multiple of the droplet volume, for a droplet
    volume that is defined and not zero; an undefined fixed volume is
    refused. *)
Theorem check_volume_accepts_exactly_the_multiples :
  forall (Comp : Type),
    (forall self : EchoFixedVolume Comp,
        usable (efv_droplet_volume Comp self) ->
        EchoFixedVolume__check_volume Comp self = Ok tt
        <-> is_multiple_of (efv_fixed_volume Comp self)
              (efv_droplet_volume Comp self))
    /\ (forall self : EchoEqualTargetConcentration Comp,
           usable (eetc_droplet_volume Comp self) ->
           EchoEqualTargetConcentration__check_volume Comp self = Ok tt
           <-> is_multiple_of (eetc_fixed_volume Comp self)
                 (eetc_droplet_volume Comp self)).
Proof.
  intro Comp. split; intros self Hd; apply check_volume_iff; exact Hd.
Qed.

Lemma check_volume_accepts_exactly_the_multiples_witness :
  EchoFixedVolume__check_volume Component
    {| efv_components := [plain "a"]; efv_fixed_volume := nL 75;
       efv_set_name := None; efv_droplet_volume := DEFAULT_DROPLET_VOL;
       efv_compact_display := true |} = Ok tt
  /\ is_multiple_of (nL 75) DEFAULT_DROPLET_VOL.
Proof.
  split; [reflexivity|].
  apply (proj1 (check_volume_accepts_exactly_the_multiples Component)
           {| efv_components := [plain "a"]; efv_fixed_volume := nL 75;
              efv_set_name := None; efv_droplet_volume := DEFAULT_DROPLET_VOL;
              efv_compact_display := true |}).
  - vm_compute. discriminate.
  - reflexivity.
Defined.



Lemma positive_quantity (d : Decimal) :
  dec_gtb d (dec_of_Z 0) = true -> exists q, d = DFin q /\ (0 < q)%Q.
Proof.
  destruct d as [|q]; [discriminate|].
  cbv [dec_gtb dec_ltb dec_of_Z]. intro Hq. exists q. split; [reflexivity|].
  apply negb_true_iff in Hq. apply Qnot_le_lt. intro Hle.
  apply Qle_bool_iff in Hle. change (inject_Z 0) with 0%Q in Hq.
  rewrite Hle in Hq. discriminate.
Qed.




(** ** Components *)

Lemma dec_eqb_sym (a b : Decimal) : dec_eqb a b = dec_eqb b a.
Proof.
  destruct a as [|x], b as [|y]; try reflexivity.
  cbn [dec_eqb].
  destruct (Qeq_bool x y) eqn:Hxy, (Qeq_bool y x) eqn:Hyx; try reflexivity.
  - apply Qeq_bool_iff in Hxy. symmetry in Hxy.
    apply Qeq_bool_iff in Hxy. congruence.
  - apply Qeq_bool_iff in Hyx. symmetry in Hyx.
    apply Qeq_bool_iff in Hyx. congruence.
Qed.

Lemma dec_eqb_trans (a b c : Decimal) :
  dec_eqb a b = true -> dec_eqb b c = true -> dec_eqb a c = true.
Proof.
  destruct a as [|x], b as [|y], c as [|z]; try discriminate.
  cbn [dec_eqb]. intros Hxy Hyz.
  apply Qeq_bool_iff in Hxy, Hyz. apply Qeq_bool_iff.
  rewrite Hxy. exact Hyz.
Qed.

Lemma dec_eqb_refl (a : Decimal) : isnan a = false -> dec_eqb a a = true.
Proof.
  destruct a as [|x]; [discriminate|]. intros _.
  apply Qeq_bool_iff. reflexivity.
Qed.

Lemma Component_eq_true (a b : Component) :
  Component_eq a (VComponent b) = true <->
  name a = name b
  /\ (isnan (concentration a) && isnan (concentration b)
      || dec_eqb (concentration a) (concentration b)) = true.
Proof.
  unfold Component_eq.
  destruct (String.eqb (name a) (name b)) eqn:Hn; cbn [negb].
  - apply String.eqb_eq in Hn.
    destruct (isnan (concentration a) && isnan (concentration b));
      cbn [orb]; tauto.
  - apply String.eqb_neq in Hn. split; [discriminate|tauto].
Qed.

(** X13: equality of components is an equivalence relation: every component
    equals itself (also one of undefined concentration), the comparison
    gives the same answer in both directions, and it is transitive. *)
Theorem Component_eq_is_an_equivalence (a b c : Component) :
  Component_eq a (VComponent a) = true
  /\ Component_eq a (VComponent b) = Component_eq b (VComponent a)
  /\ (Component_eq a (VComponent b) = true ->
      Component_eq b (VComponent c) = true ->
      Component_eq a (VComponent c) = true).
Proof.
  split; [|split].
  - apply Component_eq_true. split; [reflexivity|].
    destruct (concentration a) as [|x]; [reflexivity|].
    cbn [isnan andb orb]. apply Qeq_bool_iff. reflexivity.
  - unfold Component_eq.
    rewrite (String.eqb_sym (name b) (name a)).
    rewrite (andb_comm (isnan (concentration b))).
    rewrite (dec_eqb_sym (concentration b)). reflexivity.
  - intros Hab Hbc.
    apply Component_eq_true in Hab, Hbc. apply Component_eq_true.
    destruct Hab as [Hn1 H1], Hbc as [Hn2 H2].
    split; [congruence|].
    destruct (concentration a) as [|x], (concentration b) as [|y],
      (concentration c) as [|z]; try discriminate; try reflexivity.
    cbn [isnan andb orb] in *.
    exact (dec_eqb_trans (DFin x) (DFin y) (DFin z) H1 H2).
Qed.

Lemma Component_eq_is_an_equivalence_witness :
  Component_eq (at_conc "a" (nM 100))
    (VComponent {| name := "a"; concentration := DFin (200 # 2);
                   plate := "P1"; well := Some "A1" |}) = true
  /\ Component_eq
       {| name := "a"; concentration := DFin (200 # 2);
          plate := "P1"; well := Some "A1" |}
       (VComponent {| name := "a"; concentration := DFin (300 # 3);
                      plate := "P2"; well := None |}) = true
  /\ Component_eq (at_conc "a" (nM 100))
       (VComponent {| name := "a"; concentration := DFin (300 # 3);
                      plate := "P2"; well := None |}) = true.
Proof.
  split; [reflexivity|]. split; [reflexivity|].
  apply (Component_eq_is_an_equivalence
           (at_conc "a" (nM 100))
           {| name := "a"; concentration := DFin (200 # 2);
              plate := "P1"; well := Some "A1" |}
           {| name := "a"; concentration := DFin (300 # 3);
              plate := "P2"; well := None |}); reflexivity.
Defined.

Lemma component_step_passes (self : Component) (row : RefRow)
  (mm : list Mismatch) (mt : list RefRow) :
  row_passes self row = true ->
  component_step self (mm, mt) row = (mm, mt ++ [row]).
Proof.
  unfold row_passes, component_step. intro Hpass.
  apply andb_prop in Hpass. destruct Hpass as [Hpass Hwell].
  apply andb_prop in Hpass. destruct Hpass as [Hconc Hplate].
  apply negb_true_iff in Hconc, Hplate, Hwell.
  rewrite Hconc, Hplate, Hwell. reflexivity.
Qed.

Lemma component_step_fails (self : Component) (row : RefRow)
  (mm : list Mismatch) (mt : list RefRow) :
  row_passes self row = false ->
  exists x, component_step self (mm, mt) row = (mm ++ [x], mt).
Proof.
  unfold row_passes, component_step. intro Hfail.
  destruct (negb (isnan (concentration self))
            && negb (dec_eqb (ref_conc row) (concentration self)));
    [eexists; reflexivity|].
  destruct (negb (String.eqb (plate self) "")
            && negb (String.eqb (ref_plate row) (plate self)));
    [eexists; reflexivity|].
  destruct (match well self with
            | Some w => negb (option_string_eqb (Some w) (ref_well row))
            | None => false
            end); [eexists; reflexivity|discriminate].
Qed.

(** The loop of [Component.with_reference] keeps, in table order, the rows
    that pass, and notes one mismatch for each row that does not. *)
Lemma component_loop (self : Component) (rows : list RefRow) :
  forall mm mt, exists mm',
    fold_left (component_step self) rows (mm, mt)
    = (mm', mt ++ filter (row_passes self) rows)
    /\ List.length mm'
       = (List.length mm
          + List.length (filter (fun r => negb (row_passes self r)) rows))%nat.
Proof.
  induction rows as [|row rows IH]; intros mm mt; cbn [fold_left filter].
  - exists mm. rewrite app_nil_r. split; [reflexivity|].
    cbn [List.length]. lia.
  - destruct (row_passes self row) eqn:Hp; cbn [negb].
    + rewrite component_step_passes by exact Hp.
      destruct (IH mm (mt ++ [row])) as (mm' & Hfold & Hlen).
      exists mm'. rewrite Hfold, <- app_assoc. split; [reflexivity|exact Hlen].
    + destruct (component_step_fails self row mm mt Hp) as (x & ->).
      destruct (IH (mm ++ [x]) mt) as (mm' & Hfold & Hlen).
      exists mm'. split; [exact Hfold|].
      rewrite Hlen, length_app. cbn [List.length]. lia.
Qed.

Lemma find_of_filters {A : Type} (f g : A -> bool) (l : list A) :
  find (fun x => f x && g x) l = hd_error (filter g (filter f l)).
Proof.
  induction l as [|x l IH]; [reflexivity|].
  cbn [find filter].
  destruct (f x); cbn [andb filter]; [|exact IH].
  destruct (g x); [reflexivity|exact IH].
Qed.

Lemma existsb_of_filter {A : Type} (f : A -> bool) (l : list A) :
  existsb f l = negb (List.length (filter f l) =? 0)%nat.
Proof.
  induction l as [|x l IH]; [reflexivity|].
  cbn [existsb filter]. destruct (f x); [reflexivity|exact IH].
Qed.

Lemma filter_split_length {A : Type} (f : A -> bool) (l : list A) :
  List.length l
  = (List.length (filter f l)
     + List.length (filter (fun x => negb (f x)) l))%nat.
Proof.
  induction l as [|x l IH]; [reflexivity|].
  cbn [filter]. destruct (f x); cbn [negb List.length]; lia.
Qed.

Lemma Component_with_reference_unfolds (self : Component)
  (reference : Reference) (inplace : bool) :
  Component_with_reference self reference inplace =
  match first_matching_row self reference with
  | Some m =>
      if inplace then (reconciled self m, Ok CRetSelf)
      else (self, Ok (CRetNew (reconciled self m)))
  | None =>
      if listed self reference then (self, Raise ValueError)
      else (self, Ok CRetSelf)
  end.
Proof.
  unfold Component_with_reference, first_matching_row, listed.
  rewrite find_of_filters, existsb_of_filter.
  set (rows := filter (fun row => String.eqb (ref_name row) (name self))
                 reference).
  destruct rows as [|r rows'] eqn:Hrows; [reflexivity|].
  rewrite <- Hrows.
  destruct (component_loop self rows [] []) as (mm' & Hfold & Hlen).
  rewrite Hfold. cbn [app List.length Nat.add] in Hlen |- *.
  pose proof (filter_split_length (row_passes self) rows) as Hsplit.
  destruct (filter (row_passes self) rows) as [|m ms] eqn:Hms.
  - cbn [List.length Nat.eqb andb hd_error].
    assert (Hpos : (0 < List.length mm')%nat).
    { rewrite Hlen. cbn [List.length Nat.add] in Hsplit.
      rewrite <- Hsplit, Hrows. cbn [List.length]. lia. }
    apply Nat.ltb_lt in Hpos. rewrite Hpos.
    rewrite Hrows. reflexivity.
  - cbn [List.length Nat.eqb andb hd_error]. reflexivity.
Qed.

(** X14: reconciling a component with a reference takes the first row, in
    table order, that carries its name and agrees with what it already has;
    a name that is listed with no agreeing row raises [ValueError], and a
    name that is not listed leaves the component as it is. *)
Theorem Component_with_reference_first_match (self : Component)
  (reference : Reference) (inplace : bool) :
  Component_with_reference self reference inplace =
  match first_matching_row self reference with
  | Some m =>
      if inplace then (reconciled self m, Ok CRetSelf)
      else (self, Ok (CRetNew (reconciled self m)))
  | None =>
      if listed self reference then (self, Raise ValueError)
      else (self, Ok CRetSelf)
  end.
Proof.
  apply Component_with_reference_unfolds.
Qed.

Lemma find_same_row {A : Type} (p q : A -> bool) (l : list A) (m : A) :
  find p l = Some m ->
  (forall r, p r = false -> q r = false) ->
  q m = true ->
  find q l = Some m.
Proof.
  intros Hfind Hfalse Hm.
  induction l as [|x l IH]; [discriminate|].
  cbn [find] in Hfind |- *.
  destruct (p x) eqn:Hp.
  - injection Hfind as ->. rewrite Hm. reflexivity.
  - rewrite (Hfalse x Hp). apply IH. exact Hfind.
Qed.

Lemma row_passes_reconciled (self : Component) (m : RefRow) :
  row_passes (reconciled self m) m = true.
Proof.
  unfold row_passes, reconciled. cbn [concentration plate well].
  assert (Hc : negb (negb (isnan (ref_conc m))
                     && negb (dec_eqb (ref_conc m) (ref_conc m))) = true).
  { destruct (ref_conc m) as [|x]; [reflexivity|].
    cbn [isnan negb andb dec_eqb].
    assert (H : Qeq_bool x x = true) by (apply Qeq_bool_iff; reflexivity).
    rewrite H. reflexivity. }
  rewrite Hc, String.eqb_refl. cbn [negb andb].
  rewrite andb_false_r. cbn [negb andb].
  destruct (ref_well m) as [w|]; [|reflexivity].
  cbn [option_string_eqb]. rewrite String.eqb_refl. reflexivity.
Qed.

Lemma row_fails_after_reconciling (self : Component) (m r : RefRow) :
  row_passes self m = true ->
  row_passes self r = false ->
  row_passes (reconciled self m) r = false.
Proof.
  unfold row_passes, reconciled. cbn [concentration plate well].
  intros Hm Hr.
  apply andb_prop in Hm. destruct Hm as [Hm Hwell].
  apply andb_prop in Hm. destruct Hm as [Hconc Hplate].
  apply negb_true_iff in Hconc, Hplate, Hwell.
  apply andb_false_iff in Hr. destruct Hr as [Hr|Hr].
  apply andb_false_iff in Hr. destruct Hr as [Hr|Hr].
  - (* the concentration *)
    apply negb_false_iff in Hr.
    apply andb_prop in Hr. destruct Hr as [Hdef Hne].
    rewrite Hdef in Hconc. cbn [andb] in Hconc.
    apply negb_false_iff in Hconc. apply negb_true_iff in Hne.
    assert (Hne' : dec_eqb (ref_conc r) (ref_conc m) = false).
    { destruct (dec_eqb (ref_conc r) (ref_conc m)) eqn:Hrm; [|reflexivity].
      rewrite (dec_eqb_trans _ _ _ Hrm Hconc) in Hne. discriminate. }
    assert (Hfin : isnan (ref_conc m) = false).
    { destruct (ref_conc m); [discriminate|reflexivity]. }
    rewrite Hne', Hfin. reflexivity.
  - (* the plate *)
    apply negb_false_iff in Hr.
    apply andb_prop in Hr. destruct Hr as [Hset Hne].
    rewrite Hset in Hplate. cbn [andb] in Hplate.
    apply negb_false_iff in Hplate. apply String.eqb_eq in Hplate.
    rewrite Hplate, Hset, Hne. cbn [andb negb].
    apply andb_false_iff. left. apply andb_false_r.
  - (* the well *)
    apply negb_false_iff in Hr.
    destruct (well self) as [w|]; [|discriminate].
    apply negb_false_iff in Hwell.
    destruct (ref_well m) as [wm|]; [|discriminate].
    cbn [option_string_eqb] in Hwell. apply String.eqb_eq in Hwell.
    subst wm. rewrite Hr. apply andb_false_r.
Qed.

(** X15: reconciling is idempotent: the component that a reconciliation
    returns is reconciled by the same reference to itself, through the same
    row. *)
Theorem Component_with_reference_idempotent (self c : Component)
  (reference : Reference) :
  Component_with_reference self reference false = (self, Ok (CRetNew c)) ->
  Component_with_reference c reference false = (c, Ok (CRetNew c)).
Proof.
  rewrite !Component_with_reference_unfolds.
  destruct (first_matching_row self reference) as [m|] eqn:Hm.
  - intro H. injection H as <-.
    unfold first_matching_row in Hm.
    pose proof (find_some _ _ Hm) as [_ Hpm].
    apply andb_prop in Hpm. destruct Hpm as [Hname Hpass].
    assert (Hfind : first_matching_row (reconciled self m) reference
                    = Some m).
    { unfold first_matching_row.
      apply (find_same_row _ _ _ _ Hm).
      - intros r Hr. cbn [reconciled name].
        apply andb_false_iff in Hr. destruct Hr as [Hr|Hr].
        + rewrite Hr. reflexivity.
        + rewrite (row_fails_after_reconciling self m r Hpass Hr).
          apply andb_false_r.
      - cbn [reconciled name]. rewrite Hname. cbn [andb].
        apply row_passes_reconciled. }
    rewrite Hfind. reflexivity.
  - destruct (listed self reference); discriminate.
Qed.

Lemma Component_with_reference_idempotent_witness :
  Component_with_reference placed_component two_plate_reference false
  = (placed_component,
     Ok (CRetNew {| name := "c1"; concentration := nM 200;
                    plate := "P2"; well := Some "B1" |}))
  /\ Component_with_reference
       {| name := "c1"; concentration := nM 200;
          plate := "P2"; well := Some "B1" |} two_plate_reference false
     = ({| name := "c1"; concentration := nM 200;
           plate := "P2"; well := Some "B1" |},
        Ok (CRetNew {| name := "c1"; concentration := nM 200;
                       plate := "P2"; well := Some "B1" |})).
Proof.
  split; [reflexivity|].
  apply (Component_with_reference_idempotent placed_component).
  reflexivity.
Defined.

(** X16: the component that a reconciliation returns compares equal to the
    receiver exactly when the receiver had a concentration or the chosen
    row has none: a reference only fills in the location of a component
    of known concentration. *)
Theorem reconciled_component_equals_receiver (self c : Component)
  (reference : Reference) :
  Component_with_reference self reference false = (self, Ok (CRetNew c)) ->
  Component_eq self (VComponent c)
  = negb (isnan (concentration self)) || isnan (concentration c).
Proof.
  rewrite Component_with_reference_unfolds.
  destruct (first_matching_row self reference) as [m|] eqn:Hm.
  - intro H. injection H as <-.
    unfold first_matching_row in Hm.
    pose proof (find_some _ _ Hm) as [_ Hpm].
    apply andb_prop in Hpm. destruct Hpm as [_ Hpass].
    unfold row_passes in Hpass.
    apply andb_prop in Hpass. destruct Hpass as [Hpass _].
    apply andb_prop in Hpass. destruct Hpass as [Hconc _].
    apply negb_true_iff in Hconc.
    unfold Component_eq, reconciled. cbn [name concentration].
    rewrite String.eqb_refl. cbn [negb].
    destruct (concentration self) as [|x] eqn:Hx.
    + cbn [isnan andb negb orb dec_eqb].
      destruct (isnan (ref_conc m)); reflexivity.
    + cbn [isnan andb negb orb] in Hconc |- *.
      apply negb_false_iff in Hconc.
      rewrite dec_eqb_sym. exact Hconc.
  - destruct (listed self reference); discriminate.
Qed.

Lemma reconciled_component_equals_receiver_witness :
  Component_eq placed_component
    (VComponent {| name := "c1"; concentration := nM 200;
                   plate := "P2"; well := Some "B1" |})
  = negb (isnan (concentration placed_component))
    || isnan (concentration {| name := "c1"; concentration := nM 200;
                               plate := "P2"; well := Some "B1" |}).
Proof.
  apply (reconciled_component_equals_receiver placed_component _
           two_plate_reference).
  reflexivity.
Defined.

(** ** Strands *)

Lemma strand_step (self st : Strand) (mm : list Mismatch)
  (mt : list RefRow) (row : RefRow) :
  tracks self st ->
  exists st1 mm1 mt1,
    reference_step (st, mm, mt) row = (st1, mm1, mt1)
    /\ tracks self st1
    /\ (if strand_row_passes self row
        then mm1 = mm /\ mt1 = mt ++ [row]
        else (exists x, mm1 = mm ++ [x]) /\ mt1 = mt)
    /\ (sequence st = option_map strip_sequence (sequence self) ->
        sequence st1 = option_map strip_sequence (sequence self))
    /\ (reaches_sequence_test self row = true ->
        sequence st1 = option_map strip_sequence (sequence self))
    /\ (reaches_sequence_test self row = false ->
        sequence st1 = sequence st).
Proof.
  intros [Hb Hs].
  unfold reference_step, strand_row_passes, reaches_sequence_test,
    row_passes.
  rewrite Hb.
  destruct (negb (isnan (concentration (strand_base self)))
            && negb (dec_eqb (ref_conc row)
                       (concentration (strand_base self)))).
  { exists st, (mm ++ [MisConcentration row]), mt. cbn [negb andb].
    split; [reflexivity|]. split; [split; assumption|].
    split; [split; [eexists|]; reflexivity|].
    split; [exact (fun H => H)|].
    split; [intro H; discriminate H|reflexivity]. }
  destruct (negb (String.eqb (plate (strand_base self)) "")
            && negb (String.eqb (ref_plate row) (plate (strand_base self)))).
  { exists st, (mm ++ [MisPlate row]), mt. cbn [negb andb].
    split; [reflexivity|]. split; [split; assumption|].
    split; [split; [eexists|]; reflexivity|].
    split; [exact (fun H => H)|].
    split; [intro H; discriminate H|reflexivity]. }
  destruct (match well (strand_base self) with
            | Some w => negb (option_string_eqb (Some w) (ref_well row))
            | None => false
            end).
  { exists st, (mm ++ [MisWell (ref_well row)]), mt. cbn [negb andb].
    split; [reflexivity|]. split; [split; assumption|].
    split; [split; [eexists|]; reflexivity|].
    split; [exact (fun H => H)|].
    split; [intro H; discriminate H|reflexivity]. }
  cbn [negb andb].
  destruct (sequence st) as [ss'|] eqn:Hst.
  - assert (Hself : exists ss0, sequence self = Some ss0
                                /\ strip_sequence ss' = strip_sequence ss0).
    { destruct (sequence self) as [ss0|]; [|destruct Hs; discriminate].
      exists ss0. split; [reflexivity|].
      destruct Hs as [Hs|Hs]; injection Hs as ->;
        [reflexivity|apply strip_sequence_idem]. }
    destruct Hself as (ss0 & Hss0 & Hstrip).
    rewrite Hss0 in Hs |- *. cbn [option_map] in Hs |- *.
    destruct (ref_sequence row) as [|y|] eqn:Hy.
    + exists st, mm, (mt ++ [row]).
      split; [reflexivity|].
      split; [split; [exact Hb|rewrite Hst, Hss0; exact Hs]|].
      split; [split; reflexivity|].
      rewrite Hst.
      split; [exact (fun H => H)|].
      split; [intro H; discriminate H|reflexivity].
    + rewrite Hstrip.
      destruct (String.eqb (strip_sequence ss0) (strip_sequence y));
        cbn [negb].
      * exists (set_sequence st (Some (strip_sequence ss0))), mm,
          (mt ++ [row]).
        cbn [set_sequence sequence strand_base].
        split; [reflexivity|].
        split; [split; [exact Hb|rewrite Hss0; right; reflexivity]|].
        split; [split; reflexivity|].
        split; [reflexivity|].
        split; [reflexivity|intro H; discriminate H].
      * exists (set_sequence st (Some (strip_sequence ss0))),
          (mm ++ [MisSequence (SeqStr y)]), mt.
        cbn [set_sequence sequence strand_base].
        split; [reflexivity|].
        split; [split; [exact Hb|rewrite Hss0; right; reflexivity]|].
        split; [split; [eexists|]; reflexivity|].
        split; [reflexivity|].
        split; [reflexivity|intro H; discriminate H].
    + exists st, mm, (mt ++ [row]).
      split; [reflexivity|].
      split; [split; [exact Hb|rewrite Hst, Hss0; exact Hs]|].
      split; [split; reflexivity|].
      rewrite Hst.
      split; [exact (fun H => H)|].
      split; [intro H; discriminate H|reflexivity].
  - assert (Hself : sequence self = None).
    { destruct (sequence self); [destruct Hs; discriminate|reflexivity]. }
    rewrite Hself. cbn [option_map].
    exists st, mm, (mt ++ [row]).
    split; [reflexivity|].
    split; [split; [exact Hb|rewrite Hst, Hself; left; reflexivity]|].
    split; [split; reflexivity|].
    rewrite Hst.
    split; [reflexivity|].
    split; reflexivity.
Qed.

(** The loop of [Strand.with_reference] keeps, in table order, the rows that
    pass the four tests on the strand as it was before the call; it notes
    one mismatch for each other row; and the receiver leaves it with its
    sequence stripped exactly when a row has reached the sequence test with
    a string. *)
Lemma strand_loop (self : Strand) (rows : list RefRow) :
  forall st mm mt,
    tracks self st ->
    exists st' mm',
      fold_left reference_step rows (st, mm, mt)
      = (st', mm', mt ++ filter (strand_row_passes self) rows)
      /\ tracks self st'
      /\ List.length mm'
         = (List.length mm
            + List.length
                (filter (fun r => negb (strand_row_passes self r)) rows))%nat
      /\ (sequence st = option_map strip_sequence (sequence self)
          \/ existsb (reaches_sequence_test self) rows = true ->
          sequence st' = option_map strip_sequence (sequence self))
      /\ (existsb (reaches_sequence_test self) rows = false ->
          sequence st' = sequence st).
Proof.
  induction rows as [|row rows IH]; intros st mm mt Htr;
    cbn [fold_left filter existsb].
  - exists st, mm. rewrite app_nil_r.
    split; [reflexivity|]. split; [exact Htr|].
    split; [cbn [List.length]; lia|].
    split; [intros [H|H]; [exact H|discriminate H]|reflexivity].
  - destruct (strand_step self st mm mt row Htr)
      as (st1 & mm1 & mt1 & Hstep & Htr1 & Hlists & Hkeep & Hreach & Hnot).
    rewrite Hstep.
    destruct (IH st1 mm1 mt1 Htr1)
      as (st' & mm' & Hfold & Htr' & Hlen & Hseq & Hsame).
    exists st', mm'. rewrite Hfold.
    assert (Hstripped :
              sequence st = option_map strip_sequence (sequence self)
              \/ reaches_sequence_test self row
                 || existsb (reaches_sequence_test self) rows = true ->
              sequence st' = option_map strip_sequence (sequence self)).
    { intros [H|H].
      - apply Hseq. left. apply Hkeep. exact H.
      - apply orb_prop in H. destruct H as [H|H].
        + apply Hseq. left. apply Hreach. exact H.
        + apply Hseq. right. exact H. }
    assert (Hplain :
              reaches_sequence_test self row
              || existsb (reaches_sequence_test self) rows = false ->
              sequence st' = sequence st).
    { intro H. apply orb_false_elim in H. destruct H as [H1 H2].
      rewrite (Hsame H2). apply Hnot. exact H1. }
    destruct (strand_row_passes self row) eqn:Hp; cbn [negb].
    + destruct Hlists as [-> ->]. rewrite <- app_assoc.
      split; [reflexivity|]. split; [exact Htr'|].
      split; [exact Hlen|]. split; assumption.
    + destruct Hlists as [(x & ->) ->].
      split; [reflexivity|]. split; [exact Htr'|].
      split; [rewrite Hlen, length_app; cbn [List.length]; lia|].
      split; assumption.
Qed.

Lemma existsb_of_filters {A : Type} (f g : A -> bool) (l : list A) :
  existsb (fun x => f x && g x) l = existsb g (filter f l).
Proof.
  induction l as [|x l IH]; [reflexivity|].
  cbn [existsb filter]. destruct (f x); cbn [andb existsb orb]; rewrite IH;
    reflexivity.
Qed.

Lemma merged_with_reference_string (ss : option string) (t : string) :
  (t = EmptyString -> ss = None \/ ss = Some EmptyString) ->
  merged_sequence ss (SeqStr t) = Ok (Some t).
Proof.
  intro H. destruct ss as [s|], t as [|a t']; try reflexivity.
  destruct (H eq_refl) as [Hs|Hs]; [discriminate|].
  injection Hs as ->. reflexivity.
Qed.

(** X17: a closed form of [Strand.with_reference].  The row taken is the
    first, in table order, that carries the name of the strand and agrees
    with its concentration, plate, well and, separators apart, sequence.
    The result has the location of that row; its sequence is the one of
    the row as written there, separators included, when the row has a
    string, and otherwise the one the loop left on the receiver.  A row
    whose sequence is neither a string nor absent raises [RuntimeError]; a
    name listed with no agreeing row raises [ValueError]; in every case
    where the name is listed the receiver leaves with its sequence
    stripped if a row reached the sequence test with a string. *)
Theorem Strand_with_reference_closed_form (self : Strand)
  (reference : Reference) (inplace : bool) :
  Strand_with_reference self reference inplace =
  let self' := set_sequence self (receiver_sequence self reference) in
  match first_matching_strand_row self reference with
  | None =>
      if listed (strand_base self) reference then (self', Raise ValueError)
      else (self, Ok RetSelf)
  | Some m =>
      match ref_sequence m with
      | SeqOther => (self', Raise RuntimeError)
      | cell =>
          let new :=
            {| strand_base := reconciled (strand_base self) m;
               sequence := match cell with
                           | SeqStr t => Some t
                           | _ => receiver_sequence self reference
                           end |} in
          if inplace then (new, Ok RetSelf) else (self', Ok (RetNew new))
      end
  end.
Proof.
  unfold Strand_with_reference, first_matching_strand_row, listed,
    receiver_sequence.
  rewrite find_of_filters.
  rewrite (existsb_of_filters
             (fun row => String.eqb (ref_name row) (name (strand_base self)))
             (reaches_sequence_test self)).
  rewrite (existsb_of_filter
             (fun row => String.eqb (ref_name row) (name (strand_base self)))
             reference).
  set (rows := filter (fun row => String.eqb (ref_name row)
                                    (name (strand_base self))) reference).
  destruct rows as [|r rows'] eqn:Hrows; [reflexivity|].
  rewrite <- Hrows.
  assert (Htr : tracks self self) by (split; [|left]; reflexivity).
  destruct (strand_loop self rows self [] [] Htr)
    as (st' & mm' & Hfold & [Hb Hs] & Hlen & Hstripped & Hplain).
  rewrite Hfold. cbn [app List.length Nat.add] in Hlen |- *.
  assert (Hst : st' = set_sequence self
                        (if existsb (reaches_sequence_test self) rows
                         then option_map strip_sequence (sequence self)
                         else sequence self)).
  { destruct st' as [b' s']. cbn [strand_base sequence] in *.
    unfold set_sequence. rewrite Hb. f_equal.
    destruct (existsb (reaches_sequence_test self) rows).
    - apply Hstripped. right. reflexivity.
    - apply Hplain. reflexivity. }
  pose proof (filter_split_length (strand_row_passes self) rows) as Hsplit.
  destruct (filter (strand_row_passes self) rows) as [|m ms] eqn:Hms.
  - cbn [List.length Nat.eqb andb hd_error].
    assert (Hpos : (0 < List.length mm')%nat).
    { rewrite Hlen. cbn [List.length Nat.add] in Hsplit.
      rewrite <- Hsplit, Hrows. cbn [List.length]. lia. }
    apply Nat.ltb_lt in Hpos. rewrite Hpos.
    rewrite Hrows at 1. cbn [List.length Nat.eqb negb].
    rewrite <- Hst. reflexivity.
  - cbn [List.length Nat.eqb andb hd_error].
    assert (Hm : In m rows /\ strand_row_passes self m = true).
    { apply filter_In. rewrite Hms. left. reflexivity. }
    destruct Hm as [Hin Hpass].
    cbv zeta.
    unfold reconciled. rewrite Hb.
    destruct (ref_sequence m) as [|t|] eqn:Hcell.
    + assert (Hmerged : merged_sequence (sequence st') SeqNone
                        = Ok (sequence st')).
      { destruct (sequence st'); reflexivity. }
      rewrite Hmerged.
      replace (sequence st')
        with (if existsb (reaches_sequence_test self) rows
              then option_map strip_sequence (sequence self)
              else sequence self)
        by (rewrite Hst; reflexivity).
      rewrite <- Hst. reflexivity.
    + rewrite merged_with_reference_string.
      * rewrite <- Hst. reflexivity.
      * intros ->.
        assert (Hreach : existsb (reaches_sequence_test self) rows = true).
        { apply existsb_exists. exists m. split; [exact Hin|].
          unfold reaches_sequence_test. rewrite Hcell.
          unfold strand_row_passes in Hpass.
          apply andb_prop in Hpass. destruct Hpass as [-> _]. reflexivity. }
        rewrite (Hstripped (or_intror Hreach)).
        unfold strand_row_passes in Hpass. rewrite Hcell in Hpass.
        apply andb_prop in Hpass. destruct Hpass as [_ Hseq].
        destruct (sequence self) as [ss|]; [|left; reflexivity].
        right. cbn [option_map]. apply String.eqb_eq in Hseq.
        rewrite Hseq. reflexivity.
    + assert (Hmerged : merged_sequence (sequence st') SeqOther
                        = Raise RuntimeError).
      { destruct (sequence st'); reflexivity. }
      rewrite Hmerged, <- Hst. reflexivity.
Qed.

(** ** Volumes made and consumed *)

Lemma dict_get_set (d : Dict) (k k' : string) (v : Volume) :
  dict_get (dict_set d k v) k'
  = if String.eqb k k' then Some v else dict_get d k'.
Proof.
  induction d as [|[k0 v0] d IH]; cbn [dict_set dict_get].
  - reflexivity.
  - destruct (String.eqb k0 k) eqn:Hk0; cbn [dict_get].
    + apply String.eqb_eq in Hk0. subst k0.
      destruct (String.eqb k k'); reflexivity.
    + destruct (String.eqb k0 k') eqn:Hk0'.
      * apply String.eqb_eq in Hk0'. subst k0.
        rewrite String.eqb_sym, Hk0. reflexivity.
      * exact IH.
Qed.

Lemma dict_set_set (d : Dict) (k : string) (v w : Volume) :
  dict_set (dict_set d k v) k w = dict_set d k w.
Proof.
  induction d as [|[k0 v0] d IH]; cbn [dict_set].
  - rewrite String.eqb_refl. reflexivity.
  - destruct (String.eqb k0 k) eqn:Hk0; cbn [dict_set]; rewrite Hk0.
    + reflexivity.
    + rewrite IH. reflexivity.
Qed.

Lemma dict_mem_set (d : Dict) (k k' : string) (v : Volume) :
  dict_mem (dict_set d k v) k' = String.eqb k k' || dict_mem d k'.
Proof.
  unfold dict_mem. rewrite dict_get_set.
  destruct (String.eqb k k'); reflexivity.
Qed.

Lemma extends_refl (cm : Volumes) : extends cm cm.
Proof.
  split; intros; assumption.
Qed.

Lemma extends_trans (a b c : Volumes) :
  extends a b -> extends b c -> extends a c.
Proof.
  intros [H1 H2] [H3 H4]. split.
  - intros k v Hk. apply H3, H1, Hk.
  - intros k Hk. apply H4, H2, Hk.
Qed.

Lemma extends_consumed (consumed made : Dict) (k : string) (v : Volume) :
  extends (consumed, made) (dict_set consumed k v, made).
Proof.
  split; cbn [fst snd].
  - intros k' v' Hk. exact Hk.
  - intros k' Hk. rewrite dict_mem_set, Hk. apply orb_true_r.
Qed.

Lemma extends_made_new (consumed made : Dict) (k : string) (v : Volume) :
  dict_mem made k = false ->
  extends (consumed, made) (consumed, dict_set made k v).
Proof.
  intro Hnew. split; cbn [fst snd].
  - intros k' v' Hk. rewrite dict_get_set.
    destruct (String.eqb k k') eqn:Hkk; [|exact Hk].
    apply String.eqb_eq in Hkk. subst k'.
    unfold dict_mem in Hnew. rewrite Hk in Hnew. discriminate.
  - intros k' Hk. exact Hk.
Qed.

Lemma extends_made_default (consumed made : Dict) (k : string)
  (dflt : Volume) :
  extends (consumed, made)
    (consumed, dict_set made k (dict_get_default made k dflt)).
Proof.
  split; cbn [fst snd].
  - intros k' v' Hk. rewrite dict_get_set.
    destruct (String.eqb k k') eqn:Hkk; [|exact Hk].
    apply String.eqb_eq in Hkk. subst k'.
    unfold dict_get_default. rewrite Hk. reflexivity.
  - intros k' Hk. exact Hk.
Qed.

Lemma Component_update_volumes_extends (nm : string) (cm : Volumes) :
  extends cm (Component_update_volumes nm cm).
Proof.
  destruct cm as [consumed made]. unfold Component_update_volumes.
  destruct (dict_mem made nm) eqn:Hmem.
  - apply extends_refl.
  - apply extends_made_new. exact Hmem.
Qed.

Section UpdateVolumesFacts.

Context {Action : Type} `{AbstractAction Action}.

Variable update_mix : Mix Action -> Volumes -> Outcome.

Hypothesis update_mix_extends :
  forall m cm cm', update_mix m cm = Some (Ok cm') -> extends cm cm'.

Lemma consume_components_extends (zipped : list (Source Action * Volume)) :
  forall cm cm',
    consume_components update_mix zipped cm = Some (Ok cm') ->
    extends cm cm'.
Proof.
  induction zipped as [|[component volume] rest IH]; intros cm cm' Hrun.
  - cbn [consume_components] in Hrun. injection Hrun as <-.
    apply extends_refl.
  - destruct cm as [consumed made]. cbn [consume_components] in Hrun.
    set (consumed1 := dict_set consumed (source_name component) _) in Hrun.
    destruct (Source_update_volumes update_mix component (consumed1, made))
      as [[cm1|e]|] eqn:Hstep; try discriminate.
    apply (extends_trans _ (consumed1, made)).
    { apply extends_consumed. }
    apply (extends_trans _ cm1); [|apply IH; exact Hrun].
    destruct component as [c|s|m]; cbn [Source_update_volumes] in Hstep.
    + injection Hstep as <-.
      exact (Component_update_volumes_extends (name c) (consumed1, made)).
    + injection Hstep as <-.
      exact (Component_update_volumes_extends (name (strand_base s))
               (consumed1, made)).
    + apply (update_mix_extends m). exact Hstep.
Qed.

Lemma consume_actions_extends (self : Mix Action) (acts : list Action) :
  forall cm cm',
    consume_actions update_mix self acts cm = Some (Ok cm') ->
    extends cm cm'.
Proof.
  induction acts as [|action rest IH]; intros cm cm' Hrun.
  - cbn [consume_actions] in Hrun. injection Hrun as <-.
    apply extends_refl.
  - cbn [consume_actions] in Hrun.
    destruct (total_volume self) as [tv|e]; [|discriminate].
    destruct (each_volumes action tv (actions self)) as [vols|e];
      [|discriminate].
    destruct (consume_components update_mix
                (combine (components action) vols) cm)
      as [[cm1|e]|] eqn:Hinner; try discriminate.
    apply (extends_trans _ cm1).
    + apply (consume_components_extends _ _ _ Hinner).
    + apply IH. exact Hrun.
Qed.

End UpdateVolumesFacts.

Section UpdateVolumesResults.

Context {Action : Type} `{AbstractAction Action}.

Lemma consume_buffer_extends (self : Mix Action) (cm cm' : Volumes) :
  consume_buffer self cm = Some (Ok cm') -> extends cm cm'.
Proof.
  destruct cm as [consumed made]. unfold consume_buffer.
  destruct (buffer_volume self) as [bv|e]; [|discriminate].
  destruct (dec_gtb bv (dec_of_Z 0)).
  - intro Hrun. injection Hrun as <-.
    apply (extends_trans _ (consumed, dict_set made (buffer_name self)
                              (dict_get_default made (buffer_name self)
                                 (uL 0)))).
    + apply extends_made_default.
    + apply extends_consumed.
  - intro Hrun. injection Hrun as <-. apply extends_refl.
Qed.

Lemma Mix_update_volumes_extends (depth : nat) :
  forall (self : Mix Action) (cm cm' : Volumes),
    Mix_update_volumes depth self cm = Some (Ok cm') ->
    extends cm cm'
    /\ dict_get (snd cm') (mix_name self)
       = match dict_get (snd cm) (mix_name self) with
         | Some v => Some v
         | None => match total_volume self with
                   | Ok tv => Some tv
                   | Raise _ => None
                   end
         end.
Proof.
  induction depth as [|depth IH]; intros self cm cm' Hrun.
  - discriminate Hrun.
  - destruct cm as [consumed made]. cbn [Mix_update_volumes] in Hrun.
    unfold dict_mem in Hrun. cbn [snd].
    destruct (dict_get made (mix_name self)) as [v|] eqn:Hseen.
    + injection Hrun as <-. split; [apply extends_refl|exact Hseen].
    + destruct (total_volume self) as [tv|e]; [|discriminate].
      set (start := (dict_set consumed (mix_name self) ZERO_VOL,
                     dict_set made (mix_name self) tv)) in Hrun.
      destruct (consume_actions (Mix_update_volumes depth) self
                  (actions self) start) as [[cm1|e]|] eqn:Hloop;
        try discriminate.
      assert (Hstart : extends (consumed, made) start).
      { apply (extends_trans _ (consumed, dict_set made (mix_name self) tv)).
        - apply extends_made_new. unfold dict_mem. rewrite Hseen.
          reflexivity.
        - apply extends_consumed. }
      assert (Hloop' : extends start cm1).
      { apply (consume_actions_extends (Mix_update_volumes depth)
                 (fun m a b Hm => proj1 (IH m a b Hm)) self _ _ _ Hloop). }
      pose proof (consume_buffer_extends self cm1 cm' Hrun) as Hbuf.
      split.
      * exact (extends_trans _ _ _ Hstart (extends_trans _ _ _ Hloop' Hbuf)).
      * apply Hbuf, Hloop'. unfold start. cbn [snd].
        rewrite dict_get_set, String.eqb_refl. reflexivity.
Qed.

(** X18: the volumes made are written once.  When [_update_volumes] of a
    mix returns, every entry that the volumes made had before the call is
    still there with its value, every name of the volumes consumed is still
    there, and the mix itself stands in the volumes made with the value it
    had or, if it was new, with its total volume. *)
Theorem update_volumes_writes_made_once (depth : nat) (self : Mix Action)
  (cm cm' : Volumes) :
  Mix_update_volumes depth self cm = Some (Ok cm') ->
  extends cm cm'
  /\ dict_get (snd cm') (mix_name self)
     = match dict_get (snd cm) (mix_name self) with
       | Some v => Some v
       | None => match total_volume self with
                 | Ok tv => Some tv
                 | Raise _ => None
                 end
       end.
Proof.
  apply Mix_update_volumes_extends.
Qed.

(** X19: a second call of [_update_volumes] on the dictionaries that a
    first call returned changes nothing, whatever the mix holds: the mix is
    found among the volumes made and the call returns at once. *)
Theorem update_volumes_again_changes_nothing (depth depth' : nat)
  (self : Mix Action) (cm cm' : Volumes) :
  Mix_update_volumes depth self cm = Some (Ok cm') ->
  Mix_update_volumes (S depth') self cm' = Some (Ok cm').
Proof.
  intro Hrun.
  destruct (Mix_update_volumes_extends depth self cm cm' Hrun) as [_ Hself].
  destruct cm as [consumed made], cm' as [consumed' made'].
  cbn [Mix_update_volumes]. unfold dict_mem. cbn [snd] in Hself.
  destruct (dict_get made (mix_name self)) as [v|] eqn:Hseen.
  - rewrite Hself. reflexivity.
  - destruct depth as [|depth]; [discriminate Hrun|].
    cbn [Mix_update_volumes] in Hrun. unfold dict_mem in Hrun.
    rewrite Hseen in Hrun.
    destruct (total_volume self) as [tv|e]; [|discriminate Hrun].
    rewrite Hself. reflexivity.
Qed.

(** X20: the first draw from an intermediate mix is not booked.  In the
    loop of [_update_volumes], the turn of a mix that is not yet among the
    volumes made leaves the dictionaries as the call on that mix alone
    would, whatever the volume drawn: the mix sets its own consumed volume
    back to zero. *)
Theorem first_draw_from_a_mix_is_not_booked (depth : nat)
  (m : Mix Action) (volume : Volume)
  (rest : list (Source Action * Volume)) (cm : Volumes) :
  dict_mem (snd cm) (mix_name m) = false ->
  consume_components (Mix_update_volumes depth) ((SMix m, volume) :: rest) cm
  = match Mix_update_volumes depth m cm with
    | Some (Ok cm') => consume_components (Mix_update_volumes depth) rest cm'
    | other => other
    end.
Proof.
  destruct cm as [consumed made]. cbn [snd]. intro Hnew.
  cbn [consume_components Source_update_volumes source_name].
  destruct depth as [|depth]; [reflexivity|].
  cbn [Mix_update_volumes]. rewrite Hnew.
  destruct (total_volume m) as [tv|e]; [|reflexivity].
  rewrite dict_set_set. reflexivity.
Qed.

End UpdateVolumesResults.

Lemma update_volumes_writes_made_once_witness :
  extends ([], [("inner", uL 7)])
    ([("outer", uL 0); ("inner", uL (1 # 10)); ("Buffer", uL (99 # 10))],
     [("inner", uL 7); ("outer", uL 10); ("Buffer", uL 0)])
  /\ dict_get [("inner", uL 7); ("outer", uL 10); ("Buffer", uL 0)] "outer"
     = Some (uL 10).
Proof.
  apply (update_volumes_writes_made_once 2 outer_mix
           ([], [("inner", uL 7)])).
  vm_compute. reflexivity.
Defined.

Lemma update_volumes_again_changes_nothing_witness :
  Mix_update_volumes 1 outer_mix
    ([("outer", DFin 0); ("inner", DFin 0); ("s", DFin (1 # 20));
      ("Buffer", DFin (99 # 10))],
     [("outer", DFin 10); ("inner", DFin (1 # 20)); ("s", DFin 0);
      ("Buffer", DFin 0)])
  = Some (Ok ([("outer", DFin 0); ("inner", DFin 0); ("s", DFin (1 # 20));
               ("Buffer", DFin (99 # 10))],
              [("outer", DFin 10); ("inner", DFin (1 # 20)); ("s", DFin 0);
               ("Buffer", DFin 0)])).
Proof.
  apply (update_volumes_again_changes_nothing 3 0 outer_mix ([], [])).
  vm_compute. reflexivity.
Defined.

Lemma first_draw_from_a_mix_is_not_booked_witness :
  consume_components (Mix_update_volumes 2)
    [(SMix inner_mix, uL (1 # 10))] ([], [("outer", uL 10)])
  = match Mix_update_volumes 2 inner_mix ([], [("outer", uL 10)]) with
    | Some (Ok cm') => consume_components (Mix_update_volumes 2) [] cm'
    | other => other
    end.
Proof.
  apply (first_draw_from_a_mix_is_not_booked 2 inner_mix (uL (1 # 10)) []
           ([], [("outer", uL 10)])).
  reflexivity.
Defined.

(** ** Equal target concentrations: the bounds that name the methods *)

Lemma round_half_even_at_least (q : Q) (k : Z) :
  (inject_Z k <= q)%Q -> k <= round_half_even q.
Proof.
  intro Hk.
  pose proof (round_half_even_close q) as Hclose.
  apply Qabs_Qle_condition in Hclose. destruct Hclose as [Hlow _].
  assert (Hr : (inject_Z k - (1 # 2) <= inject_Z (round_half_even q))%Q).
  { apply (Qplus_le_l _ _ (1 # 2)).
    setoid_replace (inject_Z k - (1 # 2) + (1 # 2))%Q with (inject_Z k)
      by ring.
    apply (Qle_trans _ q); [exact Hk|].
    apply (Qplus_le_l _ _ (- q - (1 # 2))).
    setoid_replace (q + (- q - (1 # 2)))%Q with (- (1 # 2))%Q by ring.
    setoid_replace (inject_Z (round_half_even q) + (1 # 2)
                    + (- q - (1 # 2)))%Q
      with (inject_Z (round_half_even q) - q)%Q by ring.
    exact Hlow. }
  unfold Qle, Qminus, Qplus, Qopp, inject_Z in Hr. cbn in Hr. lia.
Qed.

Lemma round_half_even_at_most (q : Q) (k : Z) :
  (q <= inject_Z k)%Q -> round_half_even q <= k.
Proof.
  intro Hk.
  pose proof (round_half_even_close q) as Hclose.
  apply Qabs_Qle_condition in Hclose. destruct Hclose as [_ Hhigh].
  assert (Hr : (inject_Z (round_half_even q) <= inject_Z k + (1 # 2))%Q).
  { apply (Qle_trans _ (q + (1 # 2))).
    - apply (Qplus_le_l _ _ (- q)).
      setoid_replace (q + (1 # 2) + - q)%Q with (1 # 2)%Q by ring.
      exact Hhigh.
    - apply Qplus_le_l. exact Hk. }
  unfold Qle, Qplus, inject_Z in Hr. cbn in Hr. lia.
Qed.

Lemma fold_max_bound (t : list Decimal) :
  forall x : Q,
    (forall y, In y t -> isnan y = false) ->
    exists m,
      fold_left (fun m y => if dec_gtb y m then y else m) t (DFin x) = DFin m
      /\ (x <= m)%Q
      /\ forall q, In (DFin q) t -> (q <= m)%Q.
Proof.
  induction t as [|y t IH]; intros x Hdef; cbn [fold_left].
  - exists x. split; [reflexivity|]. split; [apply Qle_refl|].
    intros q [].
  - assert (Hy : isnan y = false) by (apply Hdef; left; reflexivity).
    destruct y as [|yq]; [discriminate|].
    assert (Ht : forall z, In z t -> isnan z = false)
      by (intros z Hz; apply Hdef; right; exact Hz).
    cbn [dec_gtb dec_ltb].
    destruct (Qle_bool yq x) eqn:Hle; cbn [negb].
    + apply Qle_bool_iff in Hle.
      destruct (IH x Ht) as (m & Hfold & Hx & Hall).
      exists m. split; [exact Hfold|]. split; [exact Hx|].
      intros q [Hq|Hq].
      * injection Hq as <-. apply (Qle_trans _ x); assumption.
      * apply Hall. exact Hq.
    + assert (Hlt : (x < yq)%Q).
      { apply Qnot_le_lt. intro H. apply Qle_bool_iff in H.
        rewrite H in Hle. discriminate. }
      destruct (IH yq Ht) as (m & Hfold & Hx & Hall).
      exists m. split; [exact Hfold|].
      split; [apply (Qle_trans _ yq); [apply Qlt_le_weak; exact Hlt|exact Hx]|].
      intros q [Hq|Hq].
      * injection Hq as <-. exact Hx.
      * apply Hall. exact Hq.
Qed.

Lemma fold_min_bound (t : list Decimal) :
  forall x : Q,
    (forall y, In y t -> isnan y = false) ->
    exists m,
      fold_left (fun m y => if dec_ltb y m then y else m) t (DFin x) = DFin m
      /\ (m <= x)%Q
      /\ forall q, In (DFin q) t -> (m <= q)%Q.
Proof.
  induction t as [|y t IH]; intros x Hdef; cbn [fold_left].
  - exists x. split; [reflexivity|]. split; [apply Qle_refl|].
    intros q [].
  - assert (Hy : isnan y = false) by (apply Hdef; left; reflexivity).
    destruct y as [|yq]; [discriminate|].
    assert (Ht : forall z, In z t -> isnan z = false)
      by (intros z Hz; apply Hdef; right; exact Hz).
    cbn [dec_ltb].
    destruct (Qle_bool x yq) eqn:Hle; cbn [negb].
    + apply Qle_bool_iff in Hle.
      destruct (IH x Ht) as (m & Hfold & Hx & Hall).
      exists m. split; [exact Hfold|]. split; [exact Hx|].
      intros q [Hq|Hq].
      * injection Hq as <-. apply (Qle_trans _ x); assumption.
      * apply Hall. exact Hq.
    + assert (Hlt : (yq < x)%Q).
      { apply Qnot_le_lt. intro H. apply Qle_bool_iff in H.
        rewrite H in Hle. discriminate. }
      destruct (IH yq Ht) as (m & Hfold & Hx & Hall).
      exists m. split; [exact Hfold|].
      split; [apply (Qle_trans _ yq); [exact Hx|apply Qlt_le_weak; exact Hlt]|].
      intros q [Hq|Hq].
      * injection Hq as <-. exact Hx.
      * apply Hall. exact Hq.
Qed.

(** The volume of one component under [min_volume] and [max_volume]: the
    fixed volume scaled by a ratio of concentrations and brought to whole
    droplets. *)
Lemma scaled_volume_value (f d m y : Q) (w : Volume) :
  (0 < d)%Q -> (0 < y)%Q ->
  quantize (dec_mul (DFin f) (dec_div (DFin m) (DFin y))) (DFin d) = Ok w ->
  exists n : Z,
    n = round_half_even (Qred (Qred (f * Qred (m / y)) / d))
    /\ w = DFin (Qred (inject_Z n * d)).
Proof.
  intros Hd Hy.
  assert (Hy0 : Qeq_bool y 0 = false).
  { destruct (Qeq_bool y 0) eqn:H0; [|reflexivity].
    apply Qeq_bool_iff in H0. rewrite H0 in Hy.
    exfalso. exact (Qlt_irrefl _ Hy). }
  assert (Hd0 : Qeq_bool d 0 = false).
  { destruct (Qeq_bool d 0) eqn:H0; [|reflexivity].
    apply Qeq_bool_iff in H0. rewrite H0 in Hd.
    exfalso. exact (Qlt_irrefl _ Hd). }
  cbv [quantize dec_mul dec_lift2 dec_div]. rewrite Hy0, Hd0.
  cbn [py_round bind]. cbv [int_mul dec_mul dec_lift2 dec_of_Z].
  intro Hw. injection Hw as <-.
  eexists. split; reflexivity.
Qed.

Lemma scaled_up_at_least (f d m y : Q) (k : Z) (w : Volume) :
  (f == inject_Z k * d)%Q -> (0 < d)%Q -> (0 <= f)%Q ->
  (0 < y)%Q -> (y <= m)%Q ->
  quantize (dec_mul (DFin f) (dec_div (DFin m) (DFin y))) (DFin d) = Ok w ->
  at_least w (DFin f).
Proof.
  intros Hk Hd Hf Hy Hym Hw.
  destruct (scaled_volume_value f d m y w Hd Hy Hw) as (n & Hn & ->).
  cbn [at_least]. rewrite Qred_correct.
  assert (Hd0 : ~ (d == 0)%Q).
  { intro H0. rewrite H0 in Hd. exact (Qlt_irrefl _ Hd). }
  assert (Hratio : (1 <= m / y)%Q).
  { apply Qle_shift_div_l; [exact Hy|]. rewrite Qmult_1_l. exact Hym. }
  assert (Hscaled : (f <= f * (m / y))%Q).
  { setoid_replace f with (1 * f)%Q at 1 by ring.
    rewrite (Qmult_comm f). apply Qmult_le_compat_r; assumption. }
  assert (Hkn : k <= n).
  { subst n. apply round_half_even_at_least.
    rewrite !Qred_correct.
    apply Qle_shift_div_l; [exact Hd|].
    rewrite <- Hk. exact Hscaled. }
  rewrite Hk. apply Qmult_le_compat_r; [|apply Qlt_le_weak; exact Hd].
  rewrite <- Zle_Qle. exact Hkn.
Qed.

Lemma scaled_down_at_most (f d m y : Q) (k : Z) (w : Volume) :
  (f == inject_Z k * d)%Q -> (0 < d)%Q -> (0 <= f)%Q ->
  (0 < y)%Q -> (m <= y)%Q ->
  quantize (dec_mul (DFin f) (dec_div (DFin m) (DFin y))) (DFin d) = Ok w ->
  at_least (DFin f) w.
Proof.
  intros Hk Hd Hf Hy Hym Hw.
  destruct (scaled_volume_value f d m y w Hd Hy Hw) as (n & Hn & ->).
  cbn [at_least]. rewrite Qred_correct.
  assert (Hratio : (m / y <= 1)%Q).
  { apply Qle_shift_div_r; [exact Hy|]. rewrite Qmult_1_l. exact Hym. }
  assert (Hscaled : (f * (m / y) <= f)%Q).
  { setoid_replace f with (1 * f)%Q at 2 by ring.
    rewrite (Qmult_comm f). apply Qmult_le_compat_r; assumption. }
  assert (Hnk : n <= k).
  { subst n. apply round_half_even_at_most.
    rewrite !Qred_correct.
    apply Qle_shift_div_r; [exact Hd|].
    rewrite <- Hk. exact Hscaled. }
  rewrite Hk. apply Qmult_le_compat_r; [|apply Qlt_le_weak; exact Hd].
  rewrite <- Zle_Qle. exact Hnk.
Qed.

Lemma scaled_volumes_members (fv dv top : Decimal) (sc : list Decimal)
  (vols : list Volume) (v : Volume) :
  scaled_volumes fv dv (_ratio_by_each top sc) = Ok vols ->
  In v vols ->
  exists y, In y sc /\ quantize (dec_mul fv (dec_div top y)) dv = Ok v.
Proof.
  unfold scaled_volumes, _ratio_by_each. intros Hvols Hv.
  destruct (mapM_members _ _ _ Hvols v Hv) as (r & Hr & Hq).
  apply in_map_iff in Hr. destruct Hr as (y & <- & Hy).
  exists y. split; assumption.
Qed.

(** X21: the methods [min_volume] and [max_volume] do what their names say.
    For components of positive concentration and a non-negative fixed
    volume that passes the droplet check, no component receives less than
    the fixed volume under [min_volume], and none receives more under
    [max_volume] or [max_fill]. *)
Theorem equal_target_methods_bound_the_volumes (Comp : Type)
  (conc : Comp -> Conc) (Sibling : Type)
  (self : EchoEqualTargetConcentration Comp) (mix_vol : Volume)
  (acts : list (ActionRef Sibling)) (vols : list Volume) :
  (forall c, In c (eetc_components Comp self) ->
             dec_gtb (conc c) (dec_of_Z 0) = true) ->
  dec_gtb (eetc_droplet_volume Comp self) (dec_of_Z 0) = true ->
  dec_ltb (eetc_fixed_volume Comp self) (dec_of_Z 0) = false ->
  EchoEqualTargetConcentration__check_volume Comp self = Ok tt ->
  EchoEqualTargetConcentration_each_volumes Comp conc Sibling self
    mix_vol acts = Ok vols ->
  (eetc_method Comp self = MStr "min_volume" ->
   forall v, In v vols -> at_least v (eetc_fixed_volume Comp self))
  /\ (eetc_method Comp self = MStr "max_volume"
      \/ (exists s, eetc_method Comp self = MPair "max_fill" s) ->
      forall v, In v vols -> at_least (eetc_fixed_volume Comp self) v).
Proof.
  intros Hconc Hdrop Hfixed Hcheck Hvols.
  destruct (positive_quantity _ Hdrop) as (d & Hd & Hdpos).
  assert (Huse : usable (eetc_droplet_volume Comp self)).
  { rewrite Hd. cbn [usable]. intro H0. rewrite H0 in Hdpos.
    exact (Qlt_irrefl _ Hdpos). }
  unfold EchoEqualTargetConcentration__check_volume in Hcheck.
  apply (check_volume_iff _ _ Huse) in Hcheck.
  rewrite Hd in Hcheck.
  destruct (eetc_fixed_volume Comp self) as [|f] eqn:Hf; [destruct Hcheck|].
  cbn [is_multiple_of] in Hcheck. destruct Hcheck as (k & Hk).
  assert (Hfpos : (0 <= f)%Q).
  { cbv [dec_ltb dec_of_Z] in Hfixed. apply negb_false_iff in Hfixed.
    apply Qle_bool_iff in Hfixed. exact Hfixed. }
  assert (Hsc : forall y, In y (map conc (eetc_components Comp self)) ->
                          exists q, y = DFin q /\ (0 < q)%Q).
  { intros y Hy. apply in_map_iff in Hy. destruct Hy as (c & <- & Hc).
    apply positive_quantity, Hconc, Hc. }
  unfold EchoEqualTargetConcentration_each_volumes, source_concentrations
    in Hvols.
  rewrite Hf, Hd in Hvols.
  destruct (map conc (eetc_components Comp self)) as [|y0 sc] eqn:Hmap.
  { split.
    - intros Hm. rewrite Hm in Hvols. cbn in Hvols. discriminate.
    - intros [Hm|(s & Hm)]; rewrite Hm in Hvols; cbn in Hvols; discriminate. }
  destruct (Hsc y0 (or_introl eq_refl)) as (x0 & Hy0 & Hx0).
  assert (Hdef : forall y, In y sc -> isnan y = false).
  { intros y Hy. destruct (Hsc y (or_intror Hy)) as (q & -> & _).
    reflexivity. }
  split.
  - intros Hm v Hv. rewrite Hm in Hvols.
    cbn [method_is] in Hvols. rewrite String.eqb_refl in Hvols.
    cbn [py_max bind] in Hvols. rewrite Hy0 in Hvols.
    destruct (fold_max_bound sc x0 Hdef) as (m & Hfold & Hx & Hall).
    rewrite Hfold in Hvols.
    destruct (scaled_volumes_members _ _ _ _ _ v Hvols Hv) as (y & Hy & Hq).
    assert (Hbound : exists q, y = DFin q /\ (0 < q)%Q /\ (q <= m)%Q).
    { destruct Hy as [<-|Hy].
      - exists x0. repeat split; assumption.
      - destruct (Hsc y (or_intror Hy)) as (q & -> & Hqpos).
        exists q. repeat split; [exact Hqpos|apply Hall; exact Hy]. }
    destruct Hbound as (q & -> & Hqpos & Hqm).
    exact (scaled_up_at_least f d m q k v Hk Hdpos Hfpos Hqpos Hqm Hq).
  - intros Hm v Hv.
    assert (Hbranch :
              (scmin <- py_min (y0 :: sc) ;;
               scaled_volumes (DFin f) (DFin d) (_ratio_by_each scmin (y0 :: sc)))
              = Ok vols).
    { destruct Hm as [Hm|(s & Hm)]; rewrite Hm in Hvols; exact Hvols. }
    cbn [py_min bind] in Hbranch. rewrite Hy0 in Hbranch.
    destruct (fold_min_bound sc x0 Hdef) as (m & Hfold & Hx & Hall).
    rewrite Hfold in Hbranch.
    destruct (scaled_volumes_members _ _ _ _ _ v Hbranch Hv) as (y & Hy & Hq).
    assert (Hbound : exists q, y = DFin q /\ (0 < q)%Q /\ (m <= q)%Q).
    { destruct Hy as [<-|Hy].
      - exists x0. repeat split; assumption.
      - destruct (Hsc y (or_intror Hy)) as (q & -> & Hqpos).
        exists q. repeat split; [exact Hqpos|apply Hall; exact Hy]. }
    destruct Hbound as (q & -> & Hqpos & Hqm).
    exact (scaled_down_at_most f d m q k v Hk Hdpos Hfpos Hqpos Hqm Hq).
Qed.

Lemma equal_target_methods_bound_the_volumes_witness :
  at_least (nL 100) (nL 50) /\ at_least (nL 50) (nL 25).
Proof.
  split.
  - apply (proj1 (equal_target_methods_bound_the_volumes Component
                    concentration unit
                    (equal_target_of_three (MStr "min_volume")) DNaN []
                    [nL 100; nL 200; nL 50]
                    ltac:(intros c [<-|[<-|[<-|[]]]]; reflexivity)
                    eq_refl eq_refl eq_refl eq_refl) eq_refl (nL 100)).
    left. reflexivity.
  - apply (proj2 (equal_target_methods_bound_the_volumes Component
                    concentration unit
                    (equal_target_of_three (MStr "max_volume")) DNaN []
                    [nL 25; nL 50; nL 0]
                    ltac:(intros c [<-|[<-|[<-|[]]]]; reflexivity)
                    eq_refl eq_refl eq_refl eq_refl)
             (or_introl eq_refl) (nL 25)).
    left. reflexivity.
Defined.
